(** * QuackIR, PostgreSQL backend: sparse, dense and hybrid (RRF) search

    A shallow embedding of [quackir/search/_postgres.py] (class
    [PostgresSearcher]) and of [get_index_type] from
    [quackir/index/_postgres.py], with the properties of the hybrid
    rank-fusion subsystem stated and proved over it.

    Layers, in the order of the file:
    - Python [str] operations used by [clean_tsquery];
    - exceptions and the cursor monad (every [cur.execute] is logged);
    - the database: catalog, tables and the engine's operators;
    - the SQL statements: their text as the source builds it and their
      denotation (window functions, FULL OUTER JOIN, ORDER BY, LIMIT);
    - the methods of the searcher and of the indexer;
    - the properties.

    Numbers.  [k] and the weights are Python numbers, ranks are SQL
    [bigint]s, scores are SQL numerics: the model uses exact rationals
    ([Q]) and integers ([Z]).  PostgreSQL rounds a numeric quotient to a
    finite scale; the model keeps the exact quotient. *)

From Stdlib Require Import List String Ascii Bool Arith ZArith QArith Lia.
From Stdlib Require Import Permutation Sorted.
From Stdlib Require Import Qabs.
Import ListNotations.

Local Open Scope string_scope.
Local Open Scope list_scope.

(* ================================================================== *)
(** ** Python strings *)

(** The character tables behind [\w], [\s], [str.strip] and [str.split]
    belong to the Python runtime, not to the repository: they are an
    interface.  Regular expressions on [str] and the [str] methods use
    the same whitespace predicate, and U+0020 is whitespace. *)
Class CharTables := {
  is_word : ascii -> bool;          (* \w *)
  is_space : ascii -> bool;         (* \s, str.isspace *)
  space_is_space : is_space " "%char = true
}.

Section PyStr.
Context {tables : CharTables}.

(** [re.sub(r'[^\w\s]', ' ', s)]: every character that is neither a
    word character nor whitespace is replaced by one space. *)
Fixpoint re_sub_non_word_space (s : string) : string :=
  match s with
  | EmptyString => EmptyString
  | String c r =>
      String (if is_word c || is_space c then c else " "%char)
             (re_sub_non_word_space r)
  end.

(** [re.sub(r'\s+', ' ', s)]: every maximal run of whitespace is
    replaced by one space.  [in_run] tells that the previous character
    belonged to a run whose replacement is already written. *)
Fixpoint re_sub_space_runs_from (in_run : bool) (s : string) : string :=
  match s with
  | EmptyString => EmptyString
  | String c r =>
      if is_space c
      then if in_run then re_sub_space_runs_from true r
           else String " "%char (re_sub_space_runs_from true r)
      else String c (re_sub_space_runs_from false r)
  end.

Definition re_sub_space_runs (s : string) : string :=
  re_sub_space_runs_from false s.

(** [str.lstrip()], [str.rstrip()], [str.strip()]. *)
Fixpoint str_lstrip (s : string) : string :=
  match s with
  | EmptyString => EmptyString
  | String c r => if is_space c then str_lstrip r else s
  end.

Fixpoint str_rstrip (s : string) : string :=
  match s with
  | EmptyString => EmptyString
  | String c r =>
      match str_rstrip r with
      | EmptyString => if is_space c then EmptyString else String c EmptyString
      | r' => String c r'
      end
  end.

Definition str_strip (s : string) : string := str_rstrip (str_lstrip s).

(** Maximal runs of characters that are not separators, left to right. *)
Definition at_boundary (sep : ascii -> bool) (s : string) : bool :=
  match s with
  | EmptyString => true
  | String c _ => sep c
  end.

Definition push_char (c : ascii) (l : list string) : list string :=
  match l with
  | [] => [String c EmptyString]
  | t :: ts => String c t :: ts
  end.

Fixpoint fields (sep : ascii -> bool) (s : string) : list string :=
  match s with
  | EmptyString => []
  | String c r =>
      if sep c then fields sep r
      else if at_boundary sep r then String c EmptyString :: fields sep r
      else push_char c (fields sep r)
  end.

(** [str.split()] with no argument: split on runs of whitespace, no
    empty strings in the result. *)
Definition str_split (s : string) : list string := fields is_space s.

(** [sep.join(l)]. *)
Fixpoint str_join (sep : string) (l : list string) : string :=
  match l with
  | [] => EmptyString
  | [t] => t
  | t :: ts => t ++ sep ++ str_join sep ts
  end.

(** [PostgresSearcher.clean_tsquery] (static method). *)
Definition clean_tsquery (query_string : string) : string :=
  let cleaned_query := re_sub_non_word_space query_string in
  let cleaned_query := str_strip (re_sub_space_runs cleaned_query) in
  let ts_query := str_join " | " (str_split cleaned_query) in
  ts_query.

(** The terms of a query, read off the query directly: the maximal runs
    of word characters (a character that the tables would class as both
    word and whitespace separates, as whitespace does). *)
Definition is_term_char (c : ascii) : bool := is_word c && negb (is_space c).

Definition query_terms (query_string : string) : list string :=
  fields (fun c => negb (is_term_char c)) query_string.

(** Following the words of the specification literally: the characters
    that are neither word characters nor whitespace are removed (not
    replaced), whitespace runs are collapsed, the rest is split and the
    terms joined by OR. *)
Fixpoint delete_non_word_space (s : string) : string :=
  match s with
  | EmptyString => EmptyString
  | String c r =>
      if is_word c || is_space c then String c (delete_non_word_space r)
      else delete_non_word_space r
  end.

Definition spec_normalize_by_deletion (query_string : string) : string :=
  str_join " | "
    (str_split (re_sub_space_runs (delete_non_word_space query_string))).

End PyStr.

(** The tables on the ASCII range, as CPython has them: [\w] is
    [[a-zA-Z0-9_]]; whitespace is U+0009..U+000D, U+001C..U+001F and
    U+0020.  Code points above U+007F are outside this instance. *)
Definition ascii_is_word (c : ascii) : bool :=
  let n := nat_of_ascii c in
  (((48 <=? n) && (n <=? 57)) || ((65 <=? n) && (n <=? 90))
   || ((97 <=? n) && (n <=? 122)) || (n =? 95))%nat.

Definition ascii_is_space (c : ascii) : bool :=
  let n := nat_of_ascii c in
  (((9 <=? n) && (n <=? 13)) || ((28 <=? n) && (n <=? 32)))%nat.

#[export] Instance ascii_tables : CharTables :=
  {| is_word := ascii_is_word;
     is_space := ascii_is_space;
     space_is_space := eq_refl |}.

(* ================================================================== *)
(** ** Exceptions and the cursor *)

(** The exceptions the modelled methods can raise: [ValueError] (raised
    by the resolvers), [IndexError] (indexing [table_names]) and the
    errors psycopg2 raises from [cur.execute]. *)
Inductive exn : Type :=
| ValueError (msg : string)
| IndexError (msg : string)
| DatabaseError (msg : string).

Inductive outcome (A : Type) : Type :=
| Return (a : A)
| Raise (e : exn).
Arguments Return {A} a.
Arguments Raise {A} e.

Definition obind {A B : Type} (m : outcome A) (f : A -> outcome B) : outcome B :=
  match m with
  | Return a => f a
  | Raise e => Raise e
  end.

Fixpoint omap {A B : Type} (f : A -> outcome B) (l : list A) : outcome (list B) :=
  match l with
  | [] => Return []
  | x :: r => obind (f x) (fun y => obind (omap f r) (fun ys => Return (y :: ys)))
  end.

(** Values bound to the placeholders of a statement. *)
Inductive sql_value : Type :=
| SqlText (s : string)
| SqlInt (n : Z)
| SqlNumeric (q : Q).

(** The second argument of [cur.execute]: a tuple for [%s] placeholders,
    a dict for [%(name)s] placeholders. *)
Inductive sql_params : Type :=
| Positional (args : list sql_value)
| Named (args : list (string * sql_value)).

Record statement : Type := { sql : string; params : sql_params }.

(** A method using the connection: it reads the log of the statements
    executed so far and returns its outcome with the extended log. *)
Definition Cursor (A : Type) : Type := list statement -> outcome A * list statement.

Definition ret {A : Type} (a : A) : Cursor A := fun log => (Return a, log).

Definition raise {A : Type} (e : exn) : Cursor A := fun log => (Raise e, log).

Definition bind {A B : Type} (m : Cursor A) (f : A -> Cursor B) : Cursor B :=
  fun log =>
    match m log with
    | (Return a, log') => f a log'
    | (Raise e, log') => (Raise e, log')
    end.

Notation "x <- m ;; f" := (bind m (fun x => f))
  (at level 61, m at next level, right associativity).

(** [cur.execute(sql, params)] followed by [cur.fetchall()]: the
    statement is sent (logged) and the engine answers or fails. *)
Definition execute {A : Type} (st : statement) (answer : outcome A) : Cursor A :=
  fun log => (answer, log ++ [st]).

(** [l[i]] on a Python list. *)
Definition py_getitem (l : list string) (i : nat) : Cursor string :=
  match nth_error l i with
  | Some x => ret x
  | None => raise (IndexError "list index out of range")
  end.

(** [x in l] on a Python list of strings. *)
Definition py_in (x : string) (l : list string) : bool :=
  existsb (String.eqb x) l.

(* ================================================================== *)
(** ** The database *)

(** What the engine and its extensions compute is not the repository's
    code: pgvector's distance [<=>] and the cast [::vector], full-text
    match [@@] and [ts_rank] under the 'simple' configuration, and
    pg_textsearch's [<@>] with [to_bm25query]. *)
Class Engine := {
  vector : Type;
  cast_vector : string -> option vector;            (* %s::vector *)
  distance : vector -> vector -> Q;                 (* a <=> b *)
  ts_match : string -> string -> bool;
    (* to_tsvector('simple', contents) @@ to_tsquery('simple', q) *)
  ts_rank : string -> string -> Q;
    (* ts_rank(to_tsvector('simple', contents), to_tsquery('simple', q)) *)
  bm25_distance : string -> string -> string -> Q
    (* contents <@> to_bm25query(q, idx) *)
}.

(** [BM25_INDEX_TEMPLATE.format(table_name=...)]: the template is a
    constant of [quackir.utils.constants]. *)
Class Constants := {
  BM25_INDEX_TEMPLATE_format : string -> string
}.

Module SearchType.
Inductive t : Type := SPARSE | DENSE.
Definition eqb (a b : t) : bool :=
  match a, b with
  | SPARSE, SPARSE | DENSE, DENSE => true
  | _, _ => false
  end.
End SearchType.

Module IndexType.
Inductive t : Type := SPARSE | DENSE.
End IndexType.

Section Database.
Context {engine : Engine}.

(** The catalog view [information_schema.columns], as rows
    [(table_name, column_name)], and the rows of each table projected
    on [(id, contents)] and on [(id, embedding)].  A statement reaches a
    projection only through a column the catalog lists. *)
Record database : Type := {
  information_schema_columns : list (string * string);
  sparse_rows : string -> list (string * string);
  dense_rows : string -> list (string * vector)
}.

(** [SELECT column_name FROM information_schema.columns
     WHERE table_name = %s] *)
Definition select_column_names (db : database) (table_name : string) : list string :=
  map snd (filter (fun r => String.eqb (fst r) table_name)
                  (information_schema_columns db)).

Definition has_column (db : database) (table_name column : string) : bool :=
  py_in column (select_column_names db table_name).

End Database.

(* ================================================================== *)
(** ** SQL: ORDER BY, LIMIT, window functions, FULL OUTER JOIN *)

Section OrderBy.
Context {A : Type} (leb : A -> A -> bool).

Fixpoint insert_sorted (x : A) (l : list A) : list A :=
  match l with
  | [] => [x]
  | y :: r => if leb x y then x :: l else y :: insert_sorted x r
  end.

(** [ORDER BY]: rows comparing equal keep their input order (the engine
    leaves their order open; nothing below depends on it). *)
Definition order_by (l : list A) : list A := fold_right insert_sorted [] l.

(** [RANK() OVER (ORDER BY ...)]: one plus the number of rows of the
    partition that come strictly before the row. *)
Definition sql_rank (partition : list A) (x : A) : Z :=
  1 + Z.of_nat (List.length (filter (fun y => negb (leb x y)) partition)).

(** [ROW_NUMBER() OVER (ORDER BY ...)] on the ordered partition. *)
Definition row_numbers (ordered : list A) : list (A * Z) :=
  combine ordered (map Z.of_nat (seq 1 (List.length ordered))).

End OrderBy.

Definition asc {A : Type} (key : A -> Q) (x y : A) : bool := Qle_bool (key x) (key y).
Definition desc {A : Type} (key : A -> Q) (x y : A) : bool := Qle_bool (key y) (key x).

(** [LIMIT n] for [0 <= n] (a negative [n] is rejected before). *)
Definition sql_limit {A : Type} (n : Z) (l : list A) : list A := firstn (Z.to_nat n) l.

(** A row of a rank list: [(id, rank)]. *)
Definition rank_row : Type := string * Z.

(** A row of [vector FULL OUTER JOIN keyword ON v.id = k.id]. *)
Inductive joined : Type :=
| Matched (v k : rank_row)
| VectorOnly (v : rank_row)
| KeywordOnly (k : rank_row).

Definition same_id (x y : rank_row) : bool := String.eqb (fst x) (fst y).

(** The rows a left row [x] gives: one per right row with its id, or
    [x] alone. *)
Definition join_left (k : list rank_row) (x : rank_row) : list joined :=
  match filter (same_id x) k with
  | [] => [VectorOnly x]
  | y :: ys => map (Matched x) (y :: ys)
  end.

(** The left rows with their matches, then the right rows no left row
    matches. *)
Definition full_outer_join (v k : list rank_row) : list joined :=
  flat_map (join_left k) v
  ++ map KeywordOnly (filter (fun y => negb (existsb (fun x => same_id x y) v)) k).

(** [COALESCE(v.id, k.id)], [v.rank], [k.rank] on a joined row. *)
Definition joined_id (j : joined) : string :=
  match j with
  | Matched x _ | VectorOnly x => fst x
  | KeywordOnly y => fst y
  end.

Definition vector_rank (j : joined) : option Z :=
  match j with
  | Matched x _ | VectorOnly x => Some (snd x)
  | KeywordOnly _ => None
  end.

Definition keyword_rank (j : joined) : option Z :=
  match j with
  | Matched _ y | KeywordOnly y => Some (snd y)
  | VectorOnly _ => None
  end.

(** [COALESCE(1.0 / (k + rank), 0.0)]: NULL rank gives NULL quotient
    gives 0.0; a zero divisor is an error of the statement. *)
Definition reciprocal_rank (k : Q) (rank : option Z) : outcome Q :=
  match rank with
  | None => Return 0
  | Some r =>
      if Qeq_bool (k + inject_Z r) 0
      then Raise (DatabaseError "division by zero")
      else Return (1 / (k + inject_Z r))
  end.

(** [w_sem * COALESCE(1.0 / (k + v.rank), 0.0) +
     w_key * COALESCE(1.0 / (k + k.rank), 0.0)] *)
Definition fused_score (w_sem w_key k : Q) (vrank krank : option Z) : outcome Q :=
  obind (reciprocal_rank k vrank) (fun a =>
  obind (reciprocal_rank k krank) (fun b =>
  Return (w_sem * a + w_key * b))).

Definition select_fused (w_sem w_key k : Q) (j : joined) : outcome (string * Q) :=
  obind (fused_score w_sem w_key k (vector_rank j) (keyword_rank j)) (fun s =>
  Return (joined_id j, s)).

(** The candidate pool: the main SELECT before ORDER BY and LIMIT. *)
Definition candidate_pool (w_sem w_key k : Q) (vector_ranks keyword_ranks : list rank_row)
  : outcome (list (string * Q)) :=
  omap (select_fused w_sem w_key k) (full_outer_join vector_ranks keyword_ranks).

(** The main SELECT of both fusion statements, over the two rank lists:
    [... FROM v FULL OUTER JOIN k ON v.id = k.id
     ORDER BY score DESC LIMIT n]. *)
Definition fuse (w_sem w_key k : Q) (n : Z) (vector_ranks keyword_ranks : list rank_row)
  : outcome (list (string * Q)) :=
  obind (candidate_pool w_sem w_key k vector_ranks keyword_ranks) (fun pool =>
  Return (sql_limit n (order_by (desc snd) pool))).

(* ================================================================== *)
(** ** The statements: text *)

(** The f-strings of the source, with the interpolated names as
    arguments.  Everything else reaches the engine as a bound value. *)
Definition dquote : string := String "034"%char EmptyString.

Definition columns_sql : string :=
  "SELECT column_name FROM information_schema.columns WHERE table_name = %s".

(** [fts_search], pg_textsearch dialect. *)
Definition fts_bm25_sql (table_name : string) : string :=
  "
                    SELECT id,
                        contents <@> to_bm25query(%(q)s, %(idx)s) AS score
                    FROM " ++
  dquote ++
  table_name ++
  dquote ++
  "
                    ORDER BY score
                    LIMIT %(n)s
                    ".

(** [fts_search], default dialect. *)
Definition fts_tsquery_sql (table_name : string) : string :=
  "
                    SELECT 
                        id, 
                        ts_rank(to_tsvector('simple', contents), to_tsquery('simple', %s)) AS score
                    FROM 
                        " ++
  table_name ++
  "
                    WHERE
                        to_tsvector('simple', contents) @@ to_tsquery('simple', %s)
                    ORDER BY 
                        score DESC
                    LIMIT %s
                    ".

(** [embedding_search]. *)
Definition embedding_sql (table_name : string) : string :=
  "select id, 1 - (embedding <=> %s::vector) as score from " ++
  table_name ++
  " order by score desc limit %s".

(** [rrf_search], pg_textsearch dialect. *)
Definition rrf_bm25_sql (dense_table sparse_table : string) : string :=
  "
                        WITH vector_search AS (
                            SELECT id,
                                ROW_NUMBER() OVER (ORDER BY embedding <=> %(vector)s::vector) AS rank
                            FROM " ++
  dquote ++
  dense_table ++
  dquote ++
  "
                            ORDER BY embedding <=> %(vector)s::vector
                            LIMIT %(n)s
                        ),
                        keyword_search AS (
                            SELECT id,
                                ROW_NUMBER() OVER (
                                    ORDER BY contents <@> to_bm25query(%(q)s, %(idx)s)
                                ) AS rank
                            FROM " ++
  dquote ++
  sparse_table ++
  dquote ++
  "
                            ORDER BY contents <@> to_bm25query(%(q)s, %(idx)s)
                            LIMIT %(n)s
                        )
                        SELECT COALESCE(v.id, k.id) AS id,
                            %(w_sem)s * COALESCE(1.0 / (%(k)s + v.rank), 0.0) +
                            %(w_key)s * COALESCE(1.0 / (%(k)s + k.rank), 0.0) AS score
                        FROM vector_search v
                        FULL OUTER JOIN keyword_search k ON v.id = k.id
                        ORDER BY score DESC
                        LIMIT %(n)s
                        ".

(** [rrf_search], default dialect. *)
Definition rrf_tsquery_sql (dense_table sparse_table : string) : string :=
  "
                        WITH semantic_search AS (
                                SELECT id, RANK () OVER (ORDER BY embedding <=> %(vector)s::vector) AS rank
                                FROM " ++
  dense_table ++
  "
                                LIMIT %(n)s
                        ),
                        keyword_search AS (
                                SELECT id, RANK () OVER (ORDER BY ts_rank(to_tsvector('simple', contents), query) DESC) as rank
                                FROM " ++
  sparse_table ++
  ", to_tsquery('simple', %(query)s) query
                                WHERE to_tsvector('simple', contents) @@ query
                                LIMIT %(n)s
                        )
                        SELECT
                            COALESCE(semantic_search.id, keyword_search.id) AS id,
                            %(w_sem)s * COALESCE(1.0 / (%(k)s + semantic_search.rank), 0.0) +
                            %(w_key)s * COALESCE(1.0 / (%(k)s + keyword_search.rank), 0.0) AS score
                        FROM semantic_search
                        FULL OUTER JOIN keyword_search ON semantic_search.id = keyword_search.id
                        ORDER BY score DESC
                        LIMIT %(n)s
                        ".

(* ================================================================== *)
(** ** The statements: what the engine answers *)

Section Answers.
Context {engine : Engine}.

Definition require_columns (db : database) (table_name : string) (cols : list string)
  : outcome unit :=
  if forallb (has_column db table_name) cols then Return tt
  else Raise (DatabaseError ("undefined table or column in " ++ table_name)).

Definition require_vector (text : string) : outcome vector :=
  match cast_vector text with
  | Some v => Return v
  | None => Raise (DatabaseError "invalid input for type vector")
  end.

Definition require_limit (n : Z) : outcome unit :=
  if (n <? 0)%Z then Raise (DatabaseError "LIMIT must not be negative")
  else Return tt.

Definition id_and_rank {R : Type} (x : (string * R) * Z) : rank_row :=
  (fst (fst x), snd x).

(** pg_textsearch dialect, CTE [vector_search]:
    [SELECT id, ROW_NUMBER() OVER (ORDER BY embedding <=> v) AS rank
     FROM dense_table ORDER BY embedding <=> v LIMIT n]. *)
Definition vector_search (db : database) (dense_table : string) (v : vector) (n : Z)
  : list rank_row :=
  let d (r : string * vector) := distance (snd r) v in
  let numbered := row_numbers (order_by (asc d) (dense_rows db dense_table)) in
  map id_and_rank (sql_limit n (order_by (asc (fun x => d (fst x))) numbered)).

(** pg_textsearch dialect, CTE [keyword_search]:
    [SELECT id, ROW_NUMBER() OVER (ORDER BY contents <@> to_bm25query(q, idx)) AS rank
     FROM sparse_table ORDER BY contents <@> to_bm25query(q, idx) LIMIT n]. *)
Definition keyword_search_bm25 (db : database) (sparse_table q idx : string) (n : Z)
  : list rank_row :=
  let d (r : string * string) := bm25_distance (snd r) q idx in
  let numbered := row_numbers (order_by (asc d) (sparse_rows db sparse_table)) in
  map id_and_rank (sql_limit n (order_by (asc (fun x => d (fst x))) numbered)).

(** Default dialect, CTE [semantic_search]:
    [SELECT id, RANK () OVER (ORDER BY embedding <=> v) AS rank
     FROM dense_table LIMIT n].
    There is no ORDER BY before LIMIT: the rows reach LIMIT in the order
    the window function leaves them, its own ORDER BY, which is how
    PostgreSQL evaluates the statement. *)
Definition semantic_search (db : database) (dense_table : string) (v : vector) (n : Z)
  : list rank_row :=
  let d (r : string * vector) := distance (snd r) v in
  let rows := dense_rows db dense_table in
  sql_limit n (map (fun r => (fst r, sql_rank (asc d) rows r)) (order_by (asc d) rows)).

(** Default dialect, CTE [keyword_search]:
    [SELECT id, RANK () OVER (ORDER BY ts_rank(to_tsvector('simple', contents), query) DESC) as rank
     FROM sparse_table, to_tsquery('simple', q) query
     WHERE to_tsvector('simple', contents) @@ query LIMIT n]. *)
Definition keyword_search (db : database) (sparse_table q : string) (n : Z)
  : list rank_row :=
  let s (r : string * string) := ts_rank (snd r) q in
  let rows := filter (fun r => ts_match (snd r) q) (sparse_rows db sparse_table) in
  sql_limit n (map (fun r => (fst r, sql_rank (desc s) rows r)) (order_by (desc s) rows)).

(** The fusion statement of the pg_textsearch dialect. *)
Definition rrf_bm25_answer (db : database) (dense_table sparse_table : string)
    (q vector_text : string) (n : Z) (k : Q) (idx : string) (w_sem w_key : Q)
  : outcome (list (string * Q)) :=
  obind (require_columns db dense_table ["id"; "embedding"]) (fun _ =>
  obind (require_columns db sparse_table ["id"; "contents"]) (fun _ =>
  obind (require_vector vector_text) (fun v =>
  obind (require_limit n) (fun _ =>
  fuse w_sem w_key k n
       (vector_search db dense_table v n)
       (keyword_search_bm25 db sparse_table q idx n))))).

(** The fusion statement of the default dialect. *)
Definition rrf_tsquery_answer (db : database) (dense_table sparse_table : string)
    (query vector_text : string) (n : Z) (k : Q) (w_sem w_key : Q)
  : outcome (list (string * Q)) :=
  obind (require_columns db dense_table ["id"; "embedding"]) (fun _ =>
  obind (require_columns db sparse_table ["id"; "contents"]) (fun _ =>
  obind (require_vector vector_text) (fun v =>
  obind (require_limit n) (fun _ =>
  fuse w_sem w_key k n
       (semantic_search db dense_table v n)
       (keyword_search db sparse_table query n))))).

(** [SELECT id, contents <@> to_bm25query(q, idx) AS score
     FROM table ORDER BY score LIMIT n]. *)
Definition fts_bm25_answer (db : database) (table_name q idx : string) (n : Z)
  : outcome (list (string * Q)) :=
  obind (require_columns db table_name ["id"; "contents"]) (fun _ =>
  obind (require_limit n) (fun _ =>
  Return (sql_limit n (order_by (asc snd)
            (map (fun r => (fst r, bm25_distance (snd r) q idx))
                 (sparse_rows db table_name)))))).

(** [SELECT id, ts_rank(..., to_tsquery('simple', q)) AS score FROM table
     WHERE to_tsvector('simple', contents) @@ to_tsquery('simple', q)
     ORDER BY score DESC LIMIT n]. *)
Definition fts_tsquery_answer (db : database) (table_name q : string) (n : Z)
  : outcome (list (string * Q)) :=
  obind (require_columns db table_name ["id"; "contents"]) (fun _ =>
  obind (require_limit n) (fun _ =>
  Return (sql_limit n (order_by (desc snd)
            (map (fun r => (fst r, ts_rank (snd r) q))
                 (filter (fun r => ts_match (snd r) q) (sparse_rows db table_name))))))).

(** [select id, 1 - (embedding <=> v) as score from table
     order by score desc limit n]. *)
Definition embedding_answer (db : database) (table_name vector_text : string) (n : Z)
  : outcome (list (string * Q)) :=
  obind (require_columns db table_name ["id"; "embedding"]) (fun _ =>
  obind (require_vector vector_text) (fun v =>
  obind (require_limit n) (fun _ =>
  Return (sql_limit n (order_by (desc snd)
            (map (fun r => (fst r, 1 - distance (snd r) v))
                 (dense_rows db table_name))))))).

End Answers.

(* ================================================================== *)
(** ** class PostgresSearcher *)

Section Searcher.
Context {tables : CharTables} {engine : Engine} {constants : Constants}.

Record PostgresSearcher : Type := {
  conn : database;
  use_pg_textsearch : bool
}.

Definition unknown_search_type (table_name : string) : string :=
  "Unknown search type for table " ++ table_name ++
  ". Ensure it has either an 'embedding' column or a 'contents' column.".

(** [get_search_type]: the catalog lookup binds the table name; its
    rows are 1-tuples and [columns] lists their component. *)
Definition get_search_type (self : PostgresSearcher) (table_name : string)
  : Cursor SearchType.t :=
  columns <- execute {| sql := columns_sql; params := Positional [SqlText table_name] |}
                     (Return (select_column_names (conn self) table_name)) ;;
  if py_in "contents" columns then ret SearchType.SPARSE
  else if py_in "embedding" columns then ret SearchType.DENSE
  else raise (ValueError (unknown_search_type table_name)).

(** [fts_search]: only the default dialect goes through
    [clean_tsquery]. *)
Definition fts_search (self : PostgresSearcher) (query_string : string)
    (top_n : Z) (table_name : string) : Cursor (list (string * Q)) :=
  if use_pg_textsearch self then
    let idx_name := BM25_INDEX_TEMPLATE_format table_name in
    let query := fts_bm25_sql table_name in
    execute {| sql := query;
               params := Named [("q", SqlText query_string);
                                ("idx", SqlText idx_name);
                                ("n", SqlInt top_n)] |}
            (fts_bm25_answer (conn self) table_name query_string idx_name top_n)
  else
    let ts_query := clean_tsquery query_string in
    let query := fts_tsquery_sql table_name in
    execute {| sql := query;
               params := Positional [SqlText ts_query; SqlText ts_query; SqlInt top_n] |}
            (fts_tsquery_answer (conn self) table_name ts_query top_n).

Definition embedding_search (self : PostgresSearcher) (query_embedding : string)
    (top_n : Z) (table_name : string) : Cursor (list (string * Q)) :=
  let query := embedding_sql table_name in
  execute {| sql := query;
             params := Positional [SqlText query_embedding; SqlInt top_n] |}
          (embedding_answer (conn self) table_name query_embedding top_n).

(** [rrf_search].  A conditional expression evaluates its condition
    first: [table_names[0]] is read and resolved, then one of the two
    names is read; the same for [table_names[1]]. *)
Definition rrf_search (self : PostgresSearcher) (query_string query_embedding : string)
    (top_n : Z) (k : Q) (table_names : list string) (weight_keyword weight_semantic : Q)
  : Cursor (list (string * Q)) :=
  t0 <- py_getitem table_names 0 ;;
  ty0 <- get_search_type self t0 ;;
  sparse_table <- (if SearchType.eqb ty0 SearchType.SPARSE
                   then py_getitem table_names 0
                   else py_getitem table_names 1) ;;
  t1 <- py_getitem table_names 1 ;;
  ty1 <- get_search_type self t1 ;;
  dense_table <- (if SearchType.eqb ty1 SearchType.DENSE
                  then py_getitem table_names 1
                  else py_getitem table_names 0) ;;
  if use_pg_textsearch self then
    let idx_name := BM25_INDEX_TEMPLATE_format sparse_table in
    let query_sql := rrf_bm25_sql dense_table sparse_table in
    execute {| sql := query_sql;
               params := Named [("q", SqlText query_string);
                                ("vector", SqlText query_embedding);
                                ("n", SqlInt top_n);
                                ("k", SqlNumeric k);
                                ("idx", SqlText idx_name);
                                ("w_sem", SqlNumeric weight_semantic);
                                ("w_key", SqlNumeric weight_keyword)] |}
            (rrf_bm25_answer (conn self) dense_table sparse_table
               query_string query_embedding top_n k idx_name
               weight_semantic weight_keyword)
  else
    let ts_query := clean_tsquery query_string in
    let query_sql := rrf_tsquery_sql dense_table sparse_table in
    execute {| sql := query_sql;
               params := Named [("query", SqlText ts_query);
                                ("vector", SqlText query_embedding);
                                ("n", SqlInt top_n);
                                ("k", SqlNumeric k);
                                ("w_sem", SqlNumeric weight_semantic);
                                ("w_key", SqlNumeric weight_keyword)] |}
            (rrf_tsquery_answer (conn self) dense_table sparse_table
               ts_query query_embedding top_n k
               weight_semantic weight_keyword).

End Searcher.

(* ================================================================== *)
(** ** class PostgresIndexer: the resolver *)

Section Indexer.
Context {engine : Engine}.

Record PostgresIndexer : Type := {
  indexer_conn : database;
  indexer_use_pg_textsearch : bool
}.

Definition unknown_index_type (table_name : string) : string :=
  "Unknown index type for table " ++ table_name ++
  ". Ensure it has either an 'embedding' column or a 'contents' column.".

(** [get_index_type]: the same lookup and the same tests as
    [get_search_type], on [IndexType]. *)
Definition get_index_type (self : PostgresIndexer) (table_name : string)
  : Cursor IndexType.t :=
  columns <- execute {| sql := columns_sql; params := Positional [SqlText table_name] |}
                     (Return (select_column_names (indexer_conn self) table_name)) ;;
  if py_in "contents" columns then ret IndexType.SPARSE
  else if py_in "embedding" columns then ret IndexType.DENSE
  else raise (ValueError (unknown_index_type table_name)).

End Indexer.

(* ================================================================== *)
(** ** class PostgresIndexer: [load_jsonl_table] *)

(** The values [json.loads] returns. *)
#[warnings="-register-all"]
Inductive pyvalue : Type :=
| PyNone
| PyBool (b : bool)
| PyNum (q : Q)
| PyStr (s : string)
| PyList (l : list pyvalue)
| PyDict (items : list (string * pyvalue)).

(** The exceptions of the row computation; [tokenize] may raise its
    own. *)
Inductive py_error : Type :=
| KeyError (key : string)
| TypeError
| AttributeError
| TokenizeError (msg : string).

Inductive attempt (A : Type) : Type :=
| Done (a : A)
| Failed (e : py_error).
Arguments Done {A} a.
Arguments Failed {A} e.

Definition abind {A B : Type} (m : attempt A) (f : A -> attempt B) : attempt B :=
  match m with
  | Done a => f a
  | Failed e => Failed e
  end.

(** A list comprehension whose element may raise: the first failure
    ends it. *)
Fixpoint amap {A B : Type} (f : A -> attempt B) (l : list A) : attempt (list B) :=
  match l with
  | [] => Done []
  | x :: r => abind (f x) (fun y => abind (amap f r) (fun ys => Done (y :: ys)))
  end.

(** [tokenize] of [quackir.analysis] is not among the sources. *)
Class Analysis := {
  tokenize : pyvalue -> attempt pyvalue
}.

(** The value of a key of a dict; the items are in lookup order. *)
Fixpoint dict_get (items : list (string * pyvalue)) (key : string) : option pyvalue :=
  match items with
  | [] => None
  | (k, v) :: r => if String.eqb k key then Some v else dict_get r key
  end.

(** [d[key]] for a string key: [KeyError] on a dict without the key,
    [TypeError] on every other JSON value. *)
Definition py_subscript (d : pyvalue) (key : string) : attempt pyvalue :=
  match d with
  | PyDict items =>
      match dict_get items key with
      | Some v => Done v
      | None => Failed (KeyError key)
      end
  | _ => Failed TypeError
  end.

(** [key in d], evaluated after [d["id"]] succeeded: [d] is a dict. *)
Definition py_has_key (d : pyvalue) (key : string) : bool :=
  match d with
  | PyDict items => match dict_get items key with Some _ => true | None => false end
  | _ => false
  end.

(** Strings are held in UTF-8 in this section: U+0000 is the byte 0,
    which occurs in the encoding of no other code point, and U+FFFD is
    the three bytes EF BF BD. *)
Definition nul : ascii := "000"%char.

Definition replacement_character : string :=
  String "239"%char (String "191"%char (String "189"%char EmptyString)).

(** [s.replace("\x00", "\uFFFD")] *)
Fixpoint str_replace_nul (s : string) : string :=
  match s with
  | EmptyString => EmptyString
  | String c r =>
      if Ascii.eqb c nul then (replacement_character ++ str_replace_nul r)%string
      else String c (str_replace_nul r)
  end.

(** [v.replace("\x00", "\uFFFD")]: only [str] has the method. *)
Definition py_replace_nul (v : pyvalue) : attempt pyvalue :=
  match v with
  | PyStr s => Done (PyStr (str_replace_nul s))
  | _ => Failed AttributeError
  end.

(** [(d["id"], d["contents"].replace("\x00", "\uFFFD")
              if "contents" in d else d["vector"])] *)
Definition first_pass_row (d : pyvalue) : attempt (pyvalue * pyvalue) :=
  abind (py_subscript d "id") (fun id =>
  if py_has_key d "contents"
  then abind (py_subscript d "contents") (fun c =>
       abind (py_replace_nul c) (fun c' => Done (id, c')))
  else abind (py_subscript d "vector") (fun vec => Done (id, vec))).

Section Loader.
Context {analysis : Analysis}.

(** [(d["id"], tokenize(d["contents"]))] *)
Definition second_pass_row (d : pyvalue) : attempt (pyvalue * pyvalue) :=
  abind (py_subscript d "id") (fun id =>
  abind (py_subscript d "contents") (fun c =>
  abind (tokenize c) (fun t => Done (id, t)))).

Definition is_sparse (index_type : IndexType.t) : bool :=
  match index_type with
  | IndexType.SPARSE => true
  | IndexType.DENSE => false
  end.

(** What [load_jsonl_table] hands to [execute_values]. *)
Record insert_request : Type := {
  insert_sql : string;
  insert_rows : list (pyvalue * pyvalue)
}.

(** [load_jsonl_table], from the decoded lines of the file ([data]) to
    the call of [execute_values]; opening and decoding the file, the
    insertion itself and the commit are the runtime's and the
    engine's. *)
Definition load_jsonl_table (table_name : string) (data : list pyvalue)
    (index_type : IndexType.t) (pretokenized : bool) : attempt insert_request :=
  abind (amap first_pass_row data) (fun rows =>
  abind (if is_sparse index_type && negb pretokenized
         then amap second_pass_row data
         else Done rows) (fun rows =>
  match index_type with
  | IndexType.SPARSE =>
      Done {| insert_sql := "INSERT INTO " ++ table_name ++ " (id, contents) VALUES %s";
              insert_rows := rows |}
  | IndexType.DENSE =>
      Done {| insert_sql := "INSERT INTO " ++ table_name ++ " (id, embedding) VALUES %s";
              insert_rows := rows |}
  end)).

End Loader.

(** A tokenizer to run the loader on: it keeps the terms of a string,
    separated by spaces. *)
#[export] Instance toy_analysis : Analysis :=
  {| tokenize := fun v =>
       match v with
       | PyStr s => Done (PyStr (str_join " " (query_terms s)))
       | _ => Failed (TokenizeError "expected a string")
       end |}.

(* ================================================================== *)
(** ** Views used by the statements of the properties *)

Section Views.
Context {tables : CharTables} {engine : Engine} {constants : Constants}.

(** The catalog lookup both resolvers send. *)
Definition columns_statement (table_name : string) : statement :=
  {| sql := columns_sql; params := Positional [SqlText table_name] |}.

(** The outcome of [get_search_type]; it does not depend on the log. *)
Definition search_type_of (self : PostgresSearcher) (table_name : string)
  : outcome SearchType.t :=
  fst (get_search_type self table_name []).

(** The two conditional expressions at the head of [rrf_search]. *)
Definition sparse_table_of (ty0 : SearchType.t) (t0 t1 : string) : string :=
  if SearchType.eqb ty0 SearchType.SPARSE then t0 else t1.

Definition dense_table_of (ty1 : SearchType.t) (t0 t1 : string) : string :=
  if SearchType.eqb ty1 SearchType.DENSE then t1 else t0.

(** The fusion statement [rrf_search] sends once the tables are
    assigned, and the engine's answer to it. *)
Definition rrf_statement (self : PostgresSearcher) (dense_table sparse_table : string)
    (query_string query_embedding : string) (top_n : Z) (k : Q)
    (weight_keyword weight_semantic : Q) : statement :=
  if use_pg_textsearch self then
    {| sql := rrf_bm25_sql dense_table sparse_table;
       params := Named [("q", SqlText query_string);
                        ("vector", SqlText query_embedding);
                        ("n", SqlInt top_n);
                        ("k", SqlNumeric k);
                        ("idx", SqlText (BM25_INDEX_TEMPLATE_format sparse_table));
                        ("w_sem", SqlNumeric weight_semantic);
                        ("w_key", SqlNumeric weight_keyword)] |}
  else
    {| sql := rrf_tsquery_sql dense_table sparse_table;
       params := Named [("query", SqlText (clean_tsquery query_string));
                        ("vector", SqlText query_embedding);
                        ("n", SqlInt top_n);
                        ("k", SqlNumeric k);
                        ("w_sem", SqlNumeric weight_semantic);
                        ("w_key", SqlNumeric weight_keyword)] |}.

Definition rrf_answer (self : PostgresSearcher) (dense_table sparse_table : string)
    (query_string query_embedding : string) (top_n : Z) (k : Q)
    (weight_keyword weight_semantic : Q) : outcome (list (string * Q)) :=
  if use_pg_textsearch self then
    rrf_bm25_answer (conn self) dense_table sparse_table query_string query_embedding
      top_n k (BM25_INDEX_TEMPLATE_format sparse_table) weight_semantic weight_keyword
  else
    rrf_tsquery_answer (conn self) dense_table sparse_table (clean_tsquery query_string)
      query_embedding top_n k weight_semantic weight_keyword.

(** The two rank lists of a fusion call, per dialect. *)
Definition dense_rank_list (self : PostgresSearcher) (dense_table : string)
    (v : vector) (top_n : Z) : list rank_row :=
  if use_pg_textsearch self then vector_search (conn self) dense_table v top_n
  else semantic_search (conn self) dense_table v top_n.

Definition sparse_rank_list (self : PostgresSearcher) (sparse_table query_string : string)
    (top_n : Z) : list rank_row :=
  if use_pg_textsearch self
  then keyword_search_bm25 (conn self) sparse_table query_string
         (BM25_INDEX_TEMPLATE_format sparse_table) top_n
  else keyword_search (conn self) sparse_table (clean_tsquery query_string) top_n.

End Views.

(** The value bound to a named placeholder; the values bound by
    position. *)
Fixpoint assoc_value (name : string) (l : list (string * sql_value)) : option sql_value :=
  match l with
  | [] => None
  | (n, v) :: r => if String.eqb n name then Some v else assoc_value name r
  end.

Definition bound_named (name : string) (st : statement) : option sql_value :=
  match params st with
  | Named l => assoc_value name l
  | Positional _ => None
  end.

Definition bound_positional (st : statement) : list sql_value :=
  match params st with
  | Positional l => l
  | Named _ => []
  end.

(** [t] occurs in [s]. *)
Definition occurs_in (t s : string) : Prop :=
  exists pre post : string, s = (pre ++ t ++ post)%string.

(** The rank of an id in a rank list, if it is there. *)
Definition rank_in (l : list rank_row) (id : string) : option Z :=
  option_map snd (find (fun x => String.eqb (fst x) id) l).

(** The fused score in the words of the specification:
    [weight_sparse * (1 / (k + rank_sparse(id))) if present else 0
     + weight_dense * (1 / (k + rank_dense(id))) if present else 0]. *)
Definition spec_term (k : Q) (rank : option Z) : Q :=
  match rank with
  | Some r => 1 / (k + inject_Z r)
  | None => 0
  end.

Definition spec_fused_score (weight_sparse weight_dense k : Q)
    (sparse_ranks dense_ranks : list rank_row) (id : string) : Q :=
  weight_sparse * spec_term k (rank_in sparse_ranks id)
  + weight_dense * spec_term k (rank_in dense_ranks id).

(** A rank, when there is one, is at least 1. *)
Definition one_based (rank : option Z) : Prop :=
  forall r, rank = Some r -> (1 <= r)%Z.

(** The row the main SELECT computes from a joined row when no divisor
    is zero. *)
Definition fused_row (w_sem w_key k : Q) (j : joined) : string * Q :=
  (joined_id j,
   w_sem * spec_term k (vector_rank j) + w_key * spec_term k (keyword_rank j)).

(** No two rows have the same sort key. *)
Definition no_ties {A : Type} (key : A -> Q) (rows : list A) : Prop :=
  forall x y, In x rows -> In y rows -> key x == key y -> x = y.

(** A safe identifier pattern, [[A-Za-z_][A-Za-z0-9_]*]: the check the
    specification asks for before a table name is interpolated. *)
Definition identifier_start (c : ascii) : bool :=
  let n := nat_of_ascii c in
  (((65 <=? n) && (n <=? 90)) || ((97 <=? n) && (n <=? 122)) || (n =? 95))%nat.

Fixpoint all_chars (p : ascii -> bool) (s : string) : bool :=
  match s with
  | EmptyString => true
  | String c r => p c && all_chars p r
  end.

Definition safe_identifier (s : string) : bool :=
  match s with
  | EmptyString => false
  | String c r => identifier_start c && all_chars ascii_is_word r
  end.

(* ================================================================== *)
(** ** A small engine to run the model on *)

(** Vectors have one coordinate and three texts denote one; a text
    matches a query when they share a term; the text rank counts the
    shared terms and the BM25 distance is its opposite. *)
Definition toy_cast (s : string) : option Q :=
  if String.eqb s "[0]" then Some 0
  else if String.eqb s "[1]" then Some 1
  else if String.eqb s "[2]" then Some 2
  else None.

Definition shared_terms (contents q : string) : Z :=
  Z.of_nat (List.length (filter (fun t => py_in t (query_terms contents)) (query_terms q))).

#[export] Instance toy_engine : Engine :=
  {| vector := Q;
     cast_vector := toy_cast;
     distance := fun a b => Qabs (a - b);
     ts_match := fun contents q => (0 <? shared_terms contents q)%Z;
     ts_rank := fun contents q => inject_Z (shared_terms contents q);
     bm25_distance := fun contents q _ => - inject_Z (shared_terms contents q) |}.

#[export] Instance toy_constants : Constants :=
  {| BM25_INDEX_TEMPLATE_format := fun table_name => (table_name ++ "_bm25_idx")%string |}.

(** Two tables as [init_table] creates them, and two tables that carry
    both marker columns. *)
Definition toy_db : database :=
  {| information_schema_columns :=
       [("sparse", "id"); ("sparse", "contents");
        ("dense", "id"); ("dense", "embedding");
        ("both_a", "id"); ("both_a", "contents"); ("both_a", "embedding");
        ("both_b", "id"); ("both_b", "contents"); ("both_b", "embedding");
        ("empty_sparse", "id"); ("empty_sparse", "contents");
        ("empty_dense", "id"); ("empty_dense", "embedding");
        ("other", "id"); ("other", "title")];
     sparse_rows := fun t =>
       if String.eqb t "sparse"
       then [("d1", "black hole"); ("d2", "white dwarf"); ("d3", "black dwarf hole")]
       else if String.eqb t "both_a" then [("d1", "black hole"); ("d4", "red giant")]
       else [];
     dense_rows := fun t =>
       if String.eqb t "dense" then [("d1", 2); ("d2", 1); ("d5", 1)]
       else if String.eqb t "both_a" then [("d1", 2); ("d4", 0)]
       else [] |}.

Definition toy_searcher (pg_textsearch : bool) : PostgresSearcher :=
  {| conn := toy_db; use_pg_textsearch := pg_textsearch |}.

Definition toy_indexer : PostgresIndexer :=
  {| indexer_conn := toy_db; indexer_use_pg_textsearch := false |}.

(* ================================================================== *)
(** * Properties *)

(** ** Running the resolvers and [rrf_search] *)

Section Runs.
Context {tables : CharTables} {engine : Engine} {constants : Constants}.

Lemma select_column_names_In (db : database) (t c : string) :
  In c (select_column_names db t) <-> In (t, c) (information_schema_columns db).
Proof.
  unfold select_column_names. rewrite in_map_iff. split.
  - intros [[t' c'] [Hc Hin]]. apply filter_In in Hin. destruct Hin as [Hin Ht].
    simpl in *. apply String.eqb_eq in Ht. subst. exact Hin.
  - intros Hin. exists (t, c). split; [reflexivity|].
    apply filter_In. split; [exact Hin|]. simpl. apply String.eqb_refl.
Qed.

Lemma py_in_In (x : string) (l : list string) : py_in x l = true <-> In x l.
Proof.
  unfold py_in. rewrite existsb_exists. split.
  - intros [y [Hin Heq]]. apply String.eqb_eq in Heq. subst. exact Hin.
  - intros Hin. exists x. split; [exact Hin | apply String.eqb_refl].
Qed.

Lemma has_column_In (db : database) (t c : string) :
  has_column db t c = true <-> In (t, c) (information_schema_columns db).
Proof. unfold has_column. rewrite py_in_In. apply select_column_names_In. Qed.

Lemma has_column_not_In (db : database) (t c : string) :
  has_column db t c = false <-> ~ In (t, c) (information_schema_columns db).
Proof.
  rewrite <- has_column_In. destruct (has_column db t c); split; intros H;
    try discriminate; try reflexivity; try (intros H'; discriminate).
  exfalso. apply H. reflexivity.
Qed.

Lemma get_search_type_run (self : PostgresSearcher) (t : string) (log : list statement) :
  get_search_type self t log = (search_type_of self t, (log ++ [columns_statement t])%list).
Proof.
  unfold search_type_of, get_search_type, bind, execute, ret, raise, columns_statement.
  simpl.
  destruct (py_in "contents" (select_column_names (conn self) t));
    [reflexivity|].
  destruct (py_in "embedding" (select_column_names (conn self) t)); reflexivity.
Qed.

Lemma search_type_of_cases (self : PostgresSearcher) (t : string) :
  search_type_of self t =
  if has_column (conn self) t "contents" then Return SearchType.SPARSE
  else if has_column (conn self) t "embedding" then Return SearchType.DENSE
  else Raise (ValueError (unknown_search_type t)).
Proof.
  unfold search_type_of, get_search_type, bind, execute, ret, raise, has_column.
  simpl.
  destruct (py_in "contents" (select_column_names (conn self) t));
    [reflexivity|].
  destruct (py_in "embedding" (select_column_names (conn self) t)); reflexivity.
Qed.

Lemma get_index_type_cases (self : PostgresIndexer) (t : string) (log : list statement) :
  get_index_type self t log =
  ((if has_column (indexer_conn self) t "contents" then Return IndexType.SPARSE
    else if has_column (indexer_conn self) t "embedding" then Return IndexType.DENSE
    else Raise (ValueError (unknown_index_type t))),
   (log ++ [columns_statement t])%list).
Proof.
  unfold get_index_type, bind, execute, ret, raise, has_column, columns_statement.
  simpl.
  destruct (py_in "contents" (select_column_names (indexer_conn self) t));
    [reflexivity|].
  destruct (py_in "embedding" (select_column_names (indexer_conn self) t)); reflexivity.
Qed.

(** Once both names resolve, [rrf_search] sends the two catalog lookups
    and then the fusion statement, and returns what the engine answers. *)
Lemma rrf_search_run (self : PostgresSearcher) (q qe : string) (n : Z) (k : Q)
    (t0 t1 : string) (more : list string) (wk ws : Q) (log : list statement)
    (ty0 ty1 : SearchType.t) :
  search_type_of self t0 = Return ty0 ->
  search_type_of self t1 = Return ty1 ->
  rrf_search self q qe n k (t0 :: t1 :: more) wk ws log =
  (rrf_answer self (dense_table_of ty1 t0 t1) (sparse_table_of ty0 t0 t1) q qe n k wk ws,
   (log ++ [columns_statement t0; columns_statement t1;
            rrf_statement self (dense_table_of ty1 t0 t1) (sparse_table_of ty0 t0 t1)
                          q qe n k wk ws])%list).
Proof.
  intros H0 H1.
  cbv [rrf_search bind py_getitem nth_error ret].
  rewrite get_search_type_run, H0.
  assert (Hs : (if SearchType.eqb ty0 SearchType.SPARSE then t0 else t1)
               = sparse_table_of ty0 t0 t1) by reflexivity.
  assert (Hd : (if SearchType.eqb ty1 SearchType.DENSE then t1 else t0)
               = dense_table_of ty1 t0 t1) by reflexivity.
  destruct (SearchType.eqb ty0 SearchType.SPARSE);
    rewrite get_search_type_run, H1;
    destruct (SearchType.eqb ty1 SearchType.DENSE);
    rewrite <- Hs, <- Hd;
    unfold rrf_answer, rrf_statement, execute;
    destruct (use_pg_textsearch self); simpl;
    rewrite <- !app_assoc; reflexivity.
Qed.

(** A name that does not resolve stops the call at its lookup. *)
Lemma rrf_search_unresolved_first (self : PostgresSearcher) (q qe : string) (n : Z)
    (k : Q) (t0 : string) (more : list string) (wk ws : Q) (log : list statement)
    (e : exn) :
  search_type_of self t0 = Raise e ->
  rrf_search self q qe n k (t0 :: more) wk ws log =
  (Raise e, (log ++ [columns_statement t0])%list).
Proof.
  intros H0. cbv [rrf_search bind py_getitem nth_error ret].
  rewrite get_search_type_run, H0. reflexivity.
Qed.

End Runs.

(* ================================================================== *)
(** ** The index type resolver *)

Section Resolver.
Context {tables : CharTables} {engine : Engine} {constants : Constants}.

Lemma occurs_in_middle (pre t post : string) : occurs_in t (pre ++ t ++ post).
Proof. exists pre, post. reflexivity. Qed.

Lemma resolver_cases {T : Type} (S D : T) (hc he : bool) (C E : Prop)
    (t msg : string) :
  (hc = true <-> C) -> (he = true <-> E) -> occurs_in t msg ->
  let r := if hc then Return S else if he then Return D else Raise (ValueError msg) in
  (C -> r = Return S) /\
  (~ C -> E -> r = Return D) /\
  (~ C -> ~ E -> exists m, r = Raise (ValueError m) /\ occurs_in t m) /\
  ((exists e, r = Raise e) <-> ~ C /\ ~ E).
Proof.
  intros HC HE Hocc r. subst r.
  destruct hc, he; repeat split; intros;
    try reflexivity;
    try (exfalso; tauto);
    try (destruct H as [e H]; discriminate);
    try (intros HC'; apply HC in HC'; discriminate);
    try (intros HE'; apply HE in HE'; discriminate).
  all: try (exists msg; split; [reflexivity | exact Hocc]).
  all: try (eexists; reflexivity).
  all: exfalso; intuition congruence.
Qed.

(** C5.  Both resolvers ([get_search_type] of the searcher and
    [get_index_type] of the indexer) return SPARSE when the catalog
    lists a [contents] column for the table, DENSE when it lists no
    [contents] column but an [embedding] column, and raise a
    [ValueError] whose message names the table when it lists neither;
    they raise in exactly this last case. *)
Theorem resolver_by_columns (self : PostgresSearcher) (ix : PostgresIndexer)
    (t : string) (log : list statement) :
  let cols := information_schema_columns (conn self) in
  let icols := information_schema_columns (indexer_conn ix) in
  let r := fst (get_search_type self t log) in
  let ir := fst (get_index_type ix t log) in
  ((In (t, "contents") cols -> r = Return SearchType.SPARSE) /\
   (~ In (t, "contents") cols -> In (t, "embedding") cols ->
    r = Return SearchType.DENSE) /\
   (~ In (t, "contents") cols -> ~ In (t, "embedding") cols ->
    exists msg, r = Raise (ValueError msg) /\ occurs_in t msg) /\
   ((exists e, r = Raise e) <->
    ~ In (t, "contents") cols /\ ~ In (t, "embedding") cols))
  /\
  ((In (t, "contents") icols -> ir = Return IndexType.SPARSE) /\
   (~ In (t, "contents") icols -> In (t, "embedding") icols ->
    ir = Return IndexType.DENSE) /\
   (~ In (t, "contents") icols -> ~ In (t, "embedding") icols ->
    exists msg, ir = Raise (ValueError msg) /\ occurs_in t msg) /\
   ((exists e, ir = Raise e) <->
    ~ In (t, "contents") icols /\ ~ In (t, "embedding") icols)).
Proof.
  intros cols icols r ir. subst r ir cols icols.
  rewrite get_search_type_run, get_index_type_cases. simpl fst.
  rewrite search_type_of_cases.
  split; apply resolver_cases; try apply has_column_In; apply occurs_in_middle.
Qed.

(** C10.  A table whose catalog entry lists both a [contents] and an
    [embedding] column is classified SPARSE by both resolvers, and a
    resolver answers DENSE only for a table with no [contents] column
    (and with an [embedding] column). *)
Theorem resolver_contents_first (self : PostgresSearcher) (ix : PostgresIndexer)
    (t : string) (log : list statement) :
  let cols := information_schema_columns (conn self) in
  let icols := information_schema_columns (indexer_conn ix) in
  (In (t, "contents") cols -> In (t, "embedding") cols ->
   fst (get_search_type self t log) = Return SearchType.SPARSE) /\
  (fst (get_search_type self t log) = Return SearchType.DENSE ->
   ~ In (t, "contents") cols /\ In (t, "embedding") cols) /\
  (In (t, "contents") icols -> In (t, "embedding") icols ->
   fst (get_index_type ix t log) = Return IndexType.SPARSE) /\
  (fst (get_index_type ix t log) = Return IndexType.DENSE ->
   ~ In (t, "contents") icols /\ In (t, "embedding") icols).
Proof.
  intros cols icols. subst cols icols.
  rewrite get_search_type_run, get_index_type_cases. simpl fst.
  rewrite search_type_of_cases.
  repeat split.
  - intros Hc _. apply has_column_In in Hc. rewrite Hc. reflexivity.
  - destruct (has_column (conn self) t "contents") eqn:Hc; [discriminate|].
    apply has_column_not_In in Hc. exact Hc.
  - destruct (has_column (conn self) t "contents") eqn:Hc; [discriminate|].
    destruct (has_column (conn self) t "embedding") eqn:He; [|discriminate].
    apply has_column_In in He. exact He.
  - intros Hc _. apply has_column_In in Hc. rewrite Hc. reflexivity.
  - destruct (has_column (indexer_conn ix) t "contents") eqn:Hc; [discriminate|].
    apply has_column_not_In in Hc. exact Hc.
  - destruct (has_column (indexer_conn ix) t "contents") eqn:Hc; [discriminate|].
    destruct (has_column (indexer_conn ix) t "embedding") eqn:He; [|discriminate].
    apply has_column_In in He. exact He.
Qed.

(** C2, as the code has it.  When both names resolve to the same kind,
    [rrf_search] raises nothing of its own: after the two catalog
    lookups it sends the fusion statement with one table in both roles
    (the first name when both are SPARSE, the second when both are
    DENSE) and returns what the engine answers to that statement. *)
Theorem rrf_search_same_kind (self : PostgresSearcher) (q qe : string) (n : Z) (k : Q)
    (t0 t1 : string) (more : list string) (wk ws : Q) (log : list statement)
    (ty : SearchType.t) :
  search_type_of self t0 = Return ty ->
  search_type_of self t1 = Return ty ->
  let t := match ty with SearchType.SPARSE => t0 | SearchType.DENSE => t1 end in
  rrf_search self q qe n k (t0 :: t1 :: more) wk ws log =
  (rrf_answer self t t q qe n k wk ws,
   (log ++ [columns_statement t0; columns_statement t1;
            rrf_statement self t t q qe n k wk ws])%list).
Proof.
  intros H0 H1 t. rewrite (rrf_search_run _ _ _ _ _ _ _ _ _ _ _ _ _ H0 H1).
  subst t. destruct ty; reflexivity.
Qed.

End Resolver.

Lemma resolver_by_columns_witness :
  fst (get_search_type (toy_searcher false) "sparse" []) = Return SearchType.SPARSE /\
  fst (get_index_type toy_indexer "dense" []) = Return IndexType.DENSE /\
  (exists msg, fst (get_search_type (toy_searcher false) "other" []) = Raise (ValueError msg)
               /\ occurs_in "other" msg).
Proof.
  pose proof (resolver_by_columns (toy_searcher false) toy_indexer "sparse" []) as Hs.
  pose proof (resolver_by_columns (toy_searcher false) toy_indexer "dense" []) as Hd.
  pose proof (resolver_by_columns (toy_searcher false) toy_indexer "other" []) as Ho.
  cbv zeta in Hs, Hd, Ho.
  destruct Hs as [[Hs _] _]. destruct Hd as [_ [_ [Hd _]]].
  destruct Ho as [[_ [_ [Ho _]]] _].
  split; [|split].
  - apply Hs. simpl. tauto.
  - apply Hd; simpl; [intuition congruence | tauto].
  - apply Ho; simpl; intuition congruence.
Defined.

Lemma resolver_contents_first_witness :
  fst (get_search_type (toy_searcher false) "both_a" []) = Return SearchType.SPARSE /\
  fst (get_index_type toy_indexer "both_a" []) = Return IndexType.SPARSE.
Proof.
  pose proof (resolver_contents_first (toy_searcher false) toy_indexer "both_a" []) as H.
  cbv zeta in H. destruct H as [Hs [_ [Hi _]]].
  split; [apply Hs | apply Hi]; simpl; tauto.
Defined.

Lemma rrf_search_same_kind_witness :
  fst (rrf_search (toy_searcher false) "black hole" "[1]" 5 60 ["dense"; "dense"] 1 1 [])
  = Raise (DatabaseError "undefined table or column in dense").
Proof.
  rewrite (rrf_search_same_kind (toy_searcher false) "black hole" "[1]" 5 60
             "dense" "dense" [] 1 1 [] SearchType.DENSE eq_refl eq_refl).
  reflexivity.
Defined.

(** C2 as stated fails: both names resolve to SPARSE, no error is
    raised and the fusion statement is sent, with the first table in
    both roles. *)
Lemma rrf_search_same_kind_proceeds :
  let self := toy_searcher false in
  let run := rrf_search self "black hole" "[1]" 5 60 ["both_a"; "both_b"] 1 1 [] in
  search_type_of self "both_a" = Return SearchType.SPARSE /\
  search_type_of self "both_b" = Return SearchType.SPARSE /\
  fst run = Return [("d1", 122 # 3721); ("d4", 1 # 61)] /\
  snd run = [columns_statement "both_a"; columns_statement "both_b";
             rrf_statement self "both_a" "both_a" "black hole" "[1]" 5 60 1 1] /\
  sql (rrf_statement self "both_a" "both_a" "black hole" "[1]" 5 60 1 1)
  = rrf_tsquery_sql "both_a" "both_a".
Proof. vm_compute. repeat split. Qed.

(* ================================================================== *)
(** ** Sparse-query normalization *)

Section Normalization.
Context {tables : CharTables}.

Lemma fields_lstrip (s : string) :
  fields is_space (str_lstrip s) = fields is_space s.
Proof.
  induction s as [|c r IH]; [reflexivity|].
  cbn [str_lstrip]. destruct (is_space c) eqn:Hc; [|reflexivity].
  rewrite IH. cbn [fields]. rewrite Hc. reflexivity.
Qed.

Lemma str_rstrip_head (s : string) (c : ascii) (r' : string) :
  str_rstrip s = String c r' -> exists r, s = String c r.
Proof.
  destruct s as [|a s]; cbn [str_rstrip]; [discriminate|].
  destruct (str_rstrip s); [destruct (is_space a)|];
    intros H; inversion H; subst; eexists; reflexivity.
Qed.

Lemma fields_rstrip (s : string) :
  fields is_space (str_rstrip s) = fields is_space s.
Proof.
  induction s as [|c r IH]; [reflexivity|].
  cbn [str_rstrip]. destruct (str_rstrip r) as [|c' r''] eqn:Hr.
  - cbn [fields] in IH. cbn [fields]. rewrite <- IH.
    destruct (is_space c) eqn:Hc; [reflexivity|].
    cbn [fields at_boundary]. rewrite Hc.
    destruct (at_boundary is_space r); reflexivity.
  - destruct (str_rstrip_head _ _ _ Hr) as [r1 Hr1]. subst r.
    cbn [fields at_boundary]. cbn [fields at_boundary] in IH.
    rewrite IH. reflexivity.
Qed.

Lemma fields_strip (s : string) :
  fields is_space (str_strip s) = fields is_space s.
Proof. unfold str_strip. rewrite fields_rstrip. apply fields_lstrip. Qed.

Lemma at_boundary_space_runs (s : string) :
  at_boundary is_space (re_sub_space_runs_from false s) = at_boundary is_space s.
Proof.
  destruct s as [|c r]; [reflexivity|].
  cbn [re_sub_space_runs_from]. destruct (is_space c) eqn:Hc;
    cbn [at_boundary]; [rewrite Hc; apply space_is_space | reflexivity].
Qed.

Lemma fields_space_runs (b : bool) (s : string) :
  fields is_space (re_sub_space_runs_from b s) = fields is_space s.
Proof.
  revert b. induction s as [|c r IH]; intros b; [reflexivity|].
  cbn [re_sub_space_runs_from fields].
  destruct (is_space c) eqn:Hc.
  - destruct b; [apply IH|].
    cbn [fields]. rewrite space_is_space. apply IH.
  - cbn [fields]. rewrite Hc, at_boundary_space_runs, IH. reflexivity.
Qed.

Lemma is_space_replaced (c : ascii) :
  is_space (if is_word c || is_space c then c else " "%char)
  = negb (is_term_char c).
Proof.
  unfold is_term_char.
  destruct (is_word c) eqn:Hw, (is_space c) eqn:Hs; cbn;
    rewrite ?Hs; try reflexivity; apply space_is_space.
Qed.

Lemma term_char_kept (c : ascii) :
  is_term_char c = true ->
  (if is_word c || is_space c then c else " "%char) = c.
Proof.
  unfold is_term_char. destruct (is_word c); [reflexivity | discriminate].
Qed.

Lemma at_boundary_replaced (s : string) :
  at_boundary is_space (re_sub_non_word_space s)
  = at_boundary (fun c => negb (is_term_char c)) s.
Proof.
  destruct s as [|c r]; [reflexivity|].
  cbn [re_sub_non_word_space at_boundary]. apply is_space_replaced.
Qed.

Lemma fields_replaced (s : string) :
  fields is_space (re_sub_non_word_space s) = query_terms s.
Proof.
  unfold query_terms. induction s as [|c r IH]; [reflexivity|].
  cbn [re_sub_non_word_space fields].
  rewrite is_space_replaced, at_boundary_replaced, IH.
  destruct (is_term_char c) eqn:Hc; cbn [negb]; [|reflexivity].
  rewrite (term_char_kept _ Hc). reflexivity.
Qed.

(** The normalized query is the OR of the query's terms, the maximal
    runs of word characters: every other character separates terms. *)
Lemma clean_tsquery_terms (query_string : string) :
  clean_tsquery query_string = str_join " | " (query_terms query_string).
Proof.
  unfold clean_tsquery, str_split, re_sub_space_runs.
  rewrite fields_strip, fields_space_runs, fields_replaced. reflexivity.
Qed.

End Normalization.

(* ================================================================== *)
(** ** What the statements bind and what they interpolate *)

Section Statements.
Context {tables : CharTables} {engine : Engine} {constants : Constants}.

Lemma string_app_assoc (a b c : string) : ((a ++ b) ++ c = a ++ (b ++ c))%string.
Proof. induction a as [|x a IH]; simpl; [reflexivity | rewrite IH; reflexivity]. Qed.

Lemma occurs_here (t post : string) : occurs_in t (t ++ post).
Proof. exists EmptyString, post. reflexivity. Qed.

Lemma occurs_later (t p s : string) : occurs_in t s -> occurs_in t (p ++ s).
Proof.
  intros [pre [post H]]. exists (p ++ pre)%string, post.
  rewrite H. symmetry. apply string_app_assoc.
Qed.

Ltac find_occurrence :=
  first [ apply occurs_here | apply occurs_later; find_occurrence ].

Lemma fields_terms (sep : ascii -> bool) (s : string) :
  Forall (fun t => t <> EmptyString /\ all_chars (fun c => negb (sep c)) t = true)
         (fields sep s).
Proof.
  induction s as [|c r IH]; [constructor|].
  cbn [fields]. destruct (sep c) eqn:Hc; [exact IH|].
  destruct (at_boundary sep r).
  - constructor; [|exact IH]. split; [discriminate|].
    cbn. rewrite Hc. reflexivity.
  - destruct (fields sep r) as [|t ts]; cbn [push_char].
    + constructor; [|constructor]. split; [discriminate|].
      cbn. rewrite Hc. reflexivity.
    + inversion IH as [|? ? [_ Ht] Hts]; subst.
      constructor; [|exact Hts]. split; [discriminate|].
      cbn. rewrite Hc, Ht. reflexivity.
Qed.

Lemma fts_search_run (self : PostgresSearcher) (q : string) (n : Z) (tn : string)
    (log : list statement) :
  snd (fts_search self q n tn log) =
  (log ++ [if use_pg_textsearch self
           then {| sql := fts_bm25_sql tn;
                   params := Named [("q", SqlText q);
                                    ("idx", SqlText (BM25_INDEX_TEMPLATE_format tn));
                                    ("n", SqlInt n)] |}
           else {| sql := fts_tsquery_sql tn;
                   params := Positional [SqlText (clean_tsquery q);
                                         SqlText (clean_tsquery q); SqlInt n] |}])%list.
Proof. unfold fts_search, execute. destruct (use_pg_textsearch self); reflexivity. Qed.

(** C4, as the code has it.  [clean_tsquery] turns every query string
    into the OR of its terms, the maximal runs of word characters:
    every character that is not a word character (whitespace or not)
    separates terms and none survives.  In the default dialect
    [fts_search] and the fusion statement of [rrf_search] both bind
    this normalized text; in the pg_textsearch dialect both bind the
    query string as given. *)
Theorem sparse_query_normalization (self : PostgresSearcher) (q qe : string) (n : Z)
    (k : Q) (t0 t1 : string) (more : list string) (wk ws : Q) (tn : string)
    (log : list statement) (ty0 ty1 : SearchType.t) :
  search_type_of self t0 = Return ty0 ->
  search_type_of self t1 = Return ty1 ->
  clean_tsquery q = str_join " | " (query_terms q) /\
  Forall (fun t => t <> EmptyString /\ all_chars is_term_char t = true)
         (query_terms q) /\
  exists st_fts st_rrf,
    snd (fts_search self q n tn log) = (log ++ [st_fts])%list /\
    snd (rrf_search self q qe n k (t0 :: t1 :: more) wk ws log)
    = (log ++ [columns_statement t0; columns_statement t1; st_rrf])%list /\
    if use_pg_textsearch self
    then bound_named "q" st_fts = Some (SqlText q) /\
         bound_named "q" st_rrf = Some (SqlText q)
    else bound_positional st_fts
         = [SqlText (clean_tsquery q); SqlText (clean_tsquery q); SqlInt n] /\
         bound_named "query" st_rrf = Some (SqlText (clean_tsquery q)).
Proof.
  intros H0 H1. split; [apply clean_tsquery_terms|]. split.
  - unfold query_terms.
    eapply Forall_impl; [|apply fields_terms].
    cbv beta. intros t [Hne Hall]. split; [exact Hne|].
    clear Hne. induction t as [|c t IH]; [reflexivity|].
    cbn [all_chars] in *. apply andb_true_iff in Hall. destruct Hall as [Hc Ht].
    rewrite negb_involutive in Hc. rewrite Hc, (IH Ht). reflexivity.
  - eexists. eexists. split; [apply fts_search_run|]. split.
    + rewrite (rrf_search_run _ _ _ _ _ _ _ _ _ _ _ _ _ H0 H1). reflexivity.
    + unfold rrf_statement. destruct (use_pg_textsearch self); split; reflexivity.
Qed.

(** C9, as the code has it.  The SQL text of every statement sent by
    [fts_search], [embedding_search] and [rrf_search] is the same for
    any two query strings and any two query vectors, which travel as
    bound values; a table name is interpolated into the text as it is
    given, whatever the string: [fts_search] and [embedding_search]
    check nothing, and [rrf_search] interpolates the names that the
    catalog lookup resolved. *)
Theorem search_sql_text (self : PostgresSearcher) (q q' qe qe' : string) (n : Z) (k : Q)
    (tn : string) (tns : list string) (wk ws : Q) (log : list statement) :
  map sql (snd (fts_search self q n tn log))
  = map sql (snd (fts_search self q' n tn log)) /\
  map sql (snd (embedding_search self qe n tn log))
  = map sql (snd (embedding_search self qe' n tn log)) /\
  map sql (snd (rrf_search self q qe n k tns wk ws log))
  = map sql (snd (rrf_search self q' qe' n k tns wk ws log)) /\
  (exists st, snd (fts_search self q n tn log) = (log ++ [st])%list /\
              sql st = (if use_pg_textsearch self
                        then fts_bm25_sql tn else fts_tsquery_sql tn) /\
              occurs_in tn (sql st)) /\
  (exists st, snd (embedding_search self qe n tn log) = (log ++ [st])%list /\
              sql st = embedding_sql tn /\
              occurs_in tn (sql st) /\
              bound_positional st = [SqlText qe; SqlInt n]) /\
  (forall t0 t1 more ty0 ty1,
      tns = t0 :: t1 :: more ->
      search_type_of self t0 = Return ty0 ->
      search_type_of self t1 = Return ty1 ->
      exists st,
        snd (rrf_search self q qe n k tns wk ws log)
        = (log ++ [columns_statement t0; columns_statement t1; st])%list /\
        sql st = (if use_pg_textsearch self
                  then rrf_bm25_sql (dense_table_of ty1 t0 t1) (sparse_table_of ty0 t0 t1)
                  else rrf_tsquery_sql (dense_table_of ty1 t0 t1) (sparse_table_of ty0 t0 t1)) /\
        occurs_in (dense_table_of ty1 t0 t1) (sql st) /\
        occurs_in (sparse_table_of ty0 t0 t1) (sql st) /\
        bound_named "vector" st = Some (SqlText qe)).
Proof.
  split; [|split; [|split; [|split; [|split]]]].
  - rewrite !fts_search_run, !map_app. destruct (use_pg_textsearch self); reflexivity.
  - unfold embedding_search, execute. cbn [snd]. rewrite !map_app. reflexivity.
  - destruct tns as [|t0 [|t1 more]].
    + reflexivity.
    + cbv [rrf_search bind py_getitem nth_error ret raise].
      rewrite !get_search_type_run.
      destruct (search_type_of self t0) as [ty0|e]; [|reflexivity].
      destruct (SearchType.eqb ty0 SearchType.SPARSE); reflexivity.
    + destruct (search_type_of self t0) as [ty0|e0] eqn:H0.
      * destruct (search_type_of self t1) as [ty1|e1] eqn:H1.
        -- rewrite !(rrf_search_run _ _ _ _ _ _ _ _ _ _ _ _ _ H0 H1).
           cbn [snd]. rewrite !map_app. cbn [map]. unfold rrf_statement.
           destruct (use_pg_textsearch self); reflexivity.
        -- cbv [rrf_search bind py_getitem nth_error ret raise].
           rewrite !get_search_type_run, H0.
           destruct (SearchType.eqb ty0 SearchType.SPARSE);
             rewrite !get_search_type_run, H1; reflexivity.
      * rewrite !(rrf_search_unresolved_first _ _ _ _ _ _ _ _ _ _ _ H0). reflexivity.
  - eexists. split; [apply fts_search_run|].
    destruct (use_pg_textsearch self); (split; [reflexivity|]); cbn [sql].
    + unfold fts_bm25_sql. find_occurrence.
    + unfold fts_tsquery_sql. find_occurrence.
  - eexists. split; [reflexivity|]. split; [reflexivity|]. split; [|reflexivity].
    cbn [sql]. unfold embedding_sql. find_occurrence.
  - intros t0 t1 more ty0 ty1 -> H0 H1.
    eexists. split.
    { rewrite (rrf_search_run _ _ _ _ _ _ _ _ _ _ _ _ _ H0 H1). reflexivity. }
    unfold rrf_statement.
    destruct (use_pg_textsearch self); (split; [reflexivity|]); cbn [sql].
    + unfold rrf_bm25_sql. repeat split; try find_occurrence. 
    + unfold rrf_tsquery_sql. repeat split; try find_occurrence.
Qed.

End Statements.

Lemma sparse_query_normalization_witness :
  clean_tsquery "covid-19" = str_join " | " (query_terms "covid-19").
Proof.
  exact (proj1 (sparse_query_normalization (toy_searcher false) "covid-19" "[1]" 5 60
                  "sparse" "dense" [] 1 1 "sparse" []
                  SearchType.SPARSE SearchType.DENSE eq_refl eq_refl)).
Defined.

Lemma search_sql_text_witness :
  exists st,
    snd (rrf_search (toy_searcher false) "black hole" "[1]" 5 60 ["sparse"; "dense"] 1 1 [])
    = [columns_statement "sparse"; columns_statement "dense"; st] /\
    sql st = rrf_tsquery_sql "dense" "sparse".
Proof.
  destruct (search_sql_text (toy_searcher false) "black hole" "" "[1]" "" 5 60
              "sparse" ["sparse"; "dense"] 1 1 [])
    as [_ [_ [_ [_ [_ H]]]]].
  destruct (H "sparse" "dense" [] SearchType.SPARSE SearchType.DENSE
              eq_refl eq_refl eq_refl) as [st [Hrun [Hsql _]]].
  exists st. split; [exact Hrun | exact Hsql].
Defined.

(** C4 as stated fails: in the pg_textsearch dialect the query text is
    bound as given, on both paths, and differs from its normalization. *)
Lemma pg_textsearch_binds_raw_query :
  let self := toy_searcher true in
  clean_tsquery "covid-19" = "covid | 19" /\
  (exists st, snd (fts_search self "covid-19" 5 "sparse" []) = [st] /\
              bound_named "q" st = Some (SqlText "covid-19")) /\
  (exists st, snd (rrf_search self "covid-19" "[1]" 5 60 ["sparse"; "dense"] 1 1 [])
              = [columns_statement "sparse"; columns_statement "dense"; st] /\
              bound_named "q" st = Some (SqlText "covid-19")).
Proof.
  split; [reflexivity|]. split; eexists; split; reflexivity.
Qed.

(** C9 as stated fails: a table name that is no identifier goes into
    the SQL text of [fts_search] unchecked. *)
Lemma fts_search_unsafe_table_name :
  let tn := "corpus; DROP TABLE corpus" in
  safe_identifier tn = false /\
  exists st, snd (fts_search (toy_searcher false) "black hole" 5 tn []) = [st] /\
             sql st = fts_tsquery_sql tn /\
             occurs_in tn (sql st).
Proof.
  split; [reflexivity|]. eexists. split; [reflexivity|]. split; [reflexivity|].
  cbn [sql]. unfold fts_tsquery_sql.
  apply occurs_later. apply occurs_here.
Qed.

(* ================================================================== *)
(** ** ORDER BY *)

Section OrderByFacts.
Context {A : Type} (leb : A -> A -> bool).
Hypothesis leb_total : forall x y, leb x y = true \/ leb y x = true.
Hypothesis leb_trans : forall x y z, leb x y = true -> leb y z = true -> leb x z = true.

Lemma insert_sorted_perm (x : A) (l : list A) :
  Permutation (x :: l) (insert_sorted leb x l).
Proof.
  induction l as [|y r IH]; cbn [insert_sorted]; [apply Permutation_refl|].
  destruct (leb x y); [apply Permutation_refl|].
  eapply Permutation_trans; [apply perm_swap|]. apply perm_skip. exact IH.
Qed.

Lemma order_by_perm (l : list A) : Permutation l (order_by leb l).
Proof.
  induction l as [|x r IH]; [apply Permutation_refl|].
  cbn [order_by fold_right]. fold (order_by leb r).
  eapply Permutation_trans; [apply perm_skip; exact IH|].
  apply insert_sorted_perm.
Qed.

Lemma order_by_length (l : list A) : List.length (order_by leb l) = List.length l.
Proof. symmetry. apply Permutation_length. apply order_by_perm. Qed.

Lemma insert_sorted_sorted (x : A) (l : list A) :
  StronglySorted (fun x y => leb x y = true) l -> StronglySorted (fun x y => leb x y = true) (insert_sorted leb x l).
Proof.
  induction l as [|y r IH]; intros Hs; cbn [insert_sorted].
  - constructor; constructor.
  - inversion Hs as [|? ? Hr Hy]; subst.
    destruct (leb x y) eqn:Hxy.
    + constructor; [exact Hs|]. constructor; [exact Hxy|].
      eapply Forall_impl; [|exact Hy]. cbv beta. intros z Hz.
      exact (leb_trans _ _ _ Hxy Hz).
    + constructor; [apply IH; exact Hr|].
      assert (Hyx : leb y x = true).
      { destruct (leb_total x y) as [H|H]; [congruence | exact H]. }
      eapply Permutation_Forall; [apply insert_sorted_perm|].
      constructor; assumption.
Qed.

Lemma order_by_sorted (l : list A) : StronglySorted (fun x y => leb x y = true) (order_by leb l).
Proof.
  induction l as [|x r IH]; [constructor|].
  cbn [order_by fold_right]. apply insert_sorted_sorted. exact IH.
Qed.

(** Ordering rows that are in order already changes nothing. *)
Lemma order_by_id (l : list A) : StronglySorted (fun x y => leb x y = true) l -> order_by leb l = l.
Proof.
  induction l as [|x r IH]; intros Hs; [reflexivity|].
  inversion Hs as [|? ? Hr Hx]; subst.
  cbn [order_by fold_right]. fold (order_by leb r). rewrite (IH Hr).
  destruct r as [|y r']; [reflexivity|].
  cbn [insert_sorted]. inversion Hx; subst.
  replace (leb x y) with true by (symmetry; assumption). reflexivity.
Qed.

End OrderByFacts.

Lemma asc_total {A : Type} (key : A -> Q) (x y : A) :
  asc key x y = true \/ asc key y x = true.
Proof.
  unfold asc. rewrite !Qle_bool_iff.
  destruct (Qlt_le_dec (key y) (key x)) as [H|H];
    [right; apply Qlt_le_weak; exact H | left; exact H].
Qed.

Lemma asc_trans {A : Type} (key : A -> Q) (x y z : A) :
  asc key x y = true -> asc key y z = true -> asc key x z = true.
Proof. unfold asc. rewrite !Qle_bool_iff. apply Qle_trans. Qed.

Lemma desc_total {A : Type} (key : A -> Q) (x y : A) :
  desc key x y = true \/ desc key y x = true.
Proof. unfold desc. destruct (asc_total key x y); [right | left]; assumption. Qed.

Lemma desc_trans {A : Type} (key : A -> Q) (x y z : A) :
  desc key x y = true -> desc key y z = true -> desc key x z = true.
Proof. unfold desc. rewrite !Qle_bool_iff. intros H1 H2. eapply Qle_trans; eassumption. Qed.

Lemma StronglySorted_impl {A : Type} (R R' : A -> A -> Prop) (l : list A) :
  (forall x y, R x y -> R' x y) -> StronglySorted R l -> StronglySorted R' l.
Proof.
  intros HR. induction 1 as [|x l Hl IH Hx]; constructor; [exact IH|].
  eapply Forall_impl; [|exact Hx]. apply HR.
Qed.

Lemma order_by_asc_sorted {A : Type} (key : A -> Q) (l : list A) :
  StronglySorted (fun a b => key a <= key b) (order_by (asc key) l).
Proof.
  eapply StronglySorted_impl;
    [|apply order_by_sorted; [apply asc_total | apply asc_trans]].
  cbv beta. unfold asc. intros x y H. apply Qle_bool_iff. exact H.
Qed.

Lemma order_by_desc_sorted {A : Type} (key : A -> Q) (l : list A) :
  StronglySorted (fun a b => key b <= key a) (order_by (desc key) l).
Proof.
  eapply StronglySorted_impl;
    [|apply order_by_sorted; [apply desc_total | apply desc_trans]].
  cbv beta. unfold desc. intros x y H. apply Qle_bool_iff. exact H.
Qed.

(* ================================================================== *)
(** ** FULL OUTER JOIN and the candidate pool *)

Lemma same_id_eq (x y : rank_row) : same_id x y = true <-> fst x = fst y.
Proof. unfold same_id. apply String.eqb_eq. Qed.

Lemma no_match_iff (x : rank_row) (l : list rank_row) :
  filter (same_id x) l = [] <-> ~ In (fst x) (map fst l).
Proof.
  split.
  - intros Hf Hin. apply in_map_iff in Hin. destruct Hin as [y [Hy Hin]].
    assert (H : In y (filter (same_id x) l)).
    { apply filter_In. split; [exact Hin|]. apply same_id_eq. congruence. }
    rewrite Hf in H. exact H.
  - intros Hn. destruct (filter (same_id x) l) as [|y r] eqn:Hf; [reflexivity|].
    exfalso. apply Hn.
    assert (H : In y (filter (same_id x) l)) by (rewrite Hf; left; reflexivity).
    apply filter_In in H. destruct H as [Hin Hid]. apply same_id_eq in Hid.
    apply in_map_iff. exists y. split; [congruence | exact Hin].
Qed.

Lemma unmatched_iff (y : rank_row) (l : list rank_row) :
  negb (existsb (fun x => same_id x y) l) = true <-> ~ In (fst y) (map fst l).
Proof.
  rewrite negb_true_iff. split.
  - intros Hf Hin. apply in_map_iff in Hin. destruct Hin as [x [Hx Hin]].
    assert (H : existsb (fun x => same_id x y) l = true).
    { apply existsb_exists. exists x. split; [exact Hin | apply same_id_eq; exact Hx]. }
    congruence.
  - intros Hn. destruct (existsb (fun x => same_id x y) l) eqn:He; [|reflexivity].
    exfalso. apply Hn. apply existsb_exists in He. destruct He as [x [Hin Hid]].
    apply same_id_eq in Hid. apply in_map_iff. exists x. split; assumption.
Qed.

(** The rows of the join: a matched pair for two rows with one id, a
    row alone when the other list has no row with its id. *)
Lemma in_full_outer_join (v k : list rank_row) (j : joined) :
  In j (full_outer_join v k) <->
  (exists x y, j = Matched x y /\ In x v /\ In y k /\ fst x = fst y) \/
  (exists x, j = VectorOnly x /\ In x v /\ ~ In (fst x) (map fst k)) \/
  (exists y, j = KeywordOnly y /\ In y k /\ ~ In (fst y) (map fst v)).
Proof.
  unfold full_outer_join. rewrite in_app_iff, in_flat_map, in_map_iff. split.
  - intros [[x [Hx Hj]] | [y [Hj Hy]]].
    + unfold join_left in Hj. destruct (filter (same_id x) k) as [|m ms] eqn:Hf.
      * right. left. destruct Hj as [Hj|[]]. exists x.
        split; [symmetry; exact Hj|]. split; [exact Hx|].
        apply no_match_iff. exact Hf.
      * left. rewrite <- Hf in Hj. apply in_map_iff in Hj.
        destruct Hj as [y [Hj Hy]]. apply filter_In in Hy. destruct Hy as [Hy Hid].
        exists x, y. split; [symmetry; exact Hj|]. split; [exact Hx|].
        split; [exact Hy | apply same_id_eq; exact Hid].
    + right. right. apply filter_In in Hy. destruct Hy as [Hy Hu].
      exists y. split; [symmetry; exact Hj|]. split; [exact Hy|].
      apply unmatched_iff. exact Hu.
  - intros [[x [y [Hj [Hx [Hy Hid]]]]] | [[x [Hj [Hx Hn]]] | [y [Hj [Hy Hn]]]]].
    + left. exists x. split; [exact Hx|]. unfold join_left.
      assert (Hin : In y (filter (same_id x) k)).
      { apply filter_In. split; [exact Hy | apply same_id_eq; exact Hid]. }
      destruct (filter (same_id x) k) as [|m ms] eqn:Hf; [destruct Hin|].
      rewrite Hj. apply in_map. exact Hin.
    + left. exists x. split; [exact Hx|]. unfold join_left.
      apply no_match_iff in Hn. rewrite Hn, Hj. left. reflexivity.
    + right. exists y. split; [symmetry; exact Hj|].
      apply filter_In. split; [exact Hy | apply unmatched_iff; exact Hn].
Qed.

Lemma joined_id_in (v k : list rank_row) (id : string) :
  In id (map joined_id (full_outer_join v k)) <->
  In id (map fst v) \/ In id (map fst k).
Proof.
  rewrite in_map_iff. split.
  - intros [j [Hid Hj]]. apply in_full_outer_join in Hj.
    destruct Hj as [[x [y [-> [Hx _]]]] | [[x [-> [Hx _]]] | [y [-> [Hy _]]]]];
      cbn [joined_id] in Hid; subst id;
      [left | left | right]; apply in_map; assumption.
  - intros [Hin | Hin]; apply in_map_iff in Hin; destruct Hin as [x [Hid Hx]].
    + destruct (in_dec string_dec (fst x) (map fst k)) as [Hk | Hk].
      * apply in_map_iff in Hk. destruct Hk as [y [Hy Hk]].
        exists (Matched x y). split; [exact Hid|].
        apply in_full_outer_join. left. exists x, y.
        repeat split; [exact Hx | exact Hk | symmetry; exact Hy].
      * exists (VectorOnly x). split; [exact Hid|].
        apply in_full_outer_join. right. left. exists x. repeat split; assumption.
    + destruct (in_dec string_dec (fst x) (map fst v)) as [Hv | Hv].
      * apply in_map_iff in Hv. destruct Hv as [y [Hy Hv]].
        exists (Matched y x). split; [cbn [joined_id]; congruence|].
        apply in_full_outer_join. left. exists y, x.
        repeat split; [exact Hv | exact Hx | exact Hy].
      * exists (KeywordOnly x). split; [exact Hid|].
        apply in_full_outer_join. right. right. exists x. repeat split; assumption.
Qed.

Lemma at_most_one_match (x : rank_row) (k : list rank_row) :
  NoDup (map fst k) ->
  filter (same_id x) k = [] \/ exists y, filter (same_id x) k = [y].
Proof.
  induction k as [|y r IH]; intros Hnd; [left; reflexivity|].
  cbn [map] in Hnd. inversion Hnd as [|? ? Hy Hr]; subst.
  cbn [filter]. destruct (same_id x y) eqn:Hid.
  - right. exists y. f_equal. apply no_match_iff.
    apply same_id_eq in Hid. rewrite Hid. exact Hy.
  - apply IH. exact Hr.
Qed.

Lemma NoDup_map_filter_fst {B : Type} (p : string * B -> bool) (l : list (string * B)) :
  NoDup (map fst l) -> NoDup (map fst (filter p l)).
Proof.
  induction l as [|x r IH]; intros Hnd; [constructor|].
  cbn [map] in Hnd. inversion Hnd as [|? ? Hx Hr]; subst.
  cbn [filter]. destruct (p x); [|apply IH; exact Hr].
  cbn [map]. constructor; [|apply IH; exact Hr].
  intros Hin. apply Hx. apply in_map_iff in Hin. destruct Hin as [y [Hy Hin]].
  apply filter_In in Hin. apply in_map_iff. exists y. tauto.
Qed.

(** With unique ids on both sides every id has one row in the join. *)
Lemma joined_ids_once (v k : list rank_row) :
  NoDup (map fst v) -> NoDup (map fst k) ->
  NoDup (map joined_id (full_outer_join v k)).
Proof.
  intros Hv Hk. unfold full_outer_join. rewrite map_app.
  assert (Hleft : map joined_id (flat_map (join_left k) v) = map fst v).
  { clear Hv. induction v as [|x r IH]; [reflexivity|].
    cbn [flat_map map]. rewrite map_app, IH. f_equal. unfold join_left.
    destruct (at_most_one_match x k Hk) as [H | [y H]]; rewrite H; reflexivity. }
  rewrite Hleft. apply NoDup_app; [exact Hv | | ].
  - rewrite map_map. cbn [joined_id].
    apply NoDup_map_filter_fst. exact Hk.
  - intros id Hin Hin'. rewrite map_map in Hin'. cbn [joined_id] in Hin'.
    apply in_map_iff in Hin'. destruct Hin' as [y [Hid Hy]].
    apply filter_In in Hy. destruct Hy as [_ Hu]. apply unmatched_iff in Hu.
    apply Hu. rewrite Hid. exact Hin.
Qed.

Lemma omap_ok {A B : Type} (f : A -> outcome B) (g : A -> B) (l : list A) :
  (forall x, In x l -> f x = Return (g x)) -> omap f l = Return (map g l).
Proof.
  induction l as [|x r IH]; intros Hf; [reflexivity|].
  cbn [omap map]. rewrite (Hf x (or_introl eq_refl)). cbn [obind].
  rewrite IH; [reflexivity|]. intros y Hy. apply Hf. right. exact Hy.
Qed.

Lemma positive_divisor (k : Q) (r : Z) : 0 < k -> (1 <= r)%Z -> 0 < k + inject_Z r.
Proof.
  intros Hk Hr. destruct k as [kn kd]. unfold Qlt in *. cbn in *. nia.
Qed.

Lemma reciprocal_rank_ok (k : Q) (rank : option Z) :
  0 < k -> one_based rank -> reciprocal_rank k rank = Return (spec_term k rank).
Proof.
  intros Hk Hr. destruct rank as [r|]; [|reflexivity].
  cbn [reciprocal_rank spec_term].
  destruct (Qeq_bool (k + inject_Z r) 0) eqn:E; [|reflexivity].
  apply Qeq_bool_iff in E.
  pose proof (positive_divisor k r Hk (Hr r eq_refl)) as Hpos.
  rewrite E in Hpos. exfalso. exact (Qlt_irrefl 0 Hpos).
Qed.

Lemma fused_score_ok (w_sem w_key k : Q) (vrank krank : option Z) :
  0 < k -> one_based vrank -> one_based krank ->
  fused_score w_sem w_key k vrank krank
  = Return (w_sem * spec_term k vrank + w_key * spec_term k krank).
Proof.
  intros Hk Hv Hkw. unfold fused_score.
  rewrite (reciprocal_rank_ok k vrank Hk Hv), (reciprocal_rank_ok k krank Hk Hkw).
  reflexivity.
Qed.

Lemma joined_ranks_one_based (v kw : list rank_row) (j : joined) :
  Forall (fun x => (1 <= snd x)%Z) v ->
  Forall (fun x => (1 <= snd x)%Z) kw ->
  In j (full_outer_join v kw) ->
  one_based (vector_rank j) /\ one_based (keyword_rank j).
Proof.
  intros Hv Hkw Hj. rewrite Forall_forall in Hv, Hkw.
  apply in_full_outer_join in Hj.
  destruct Hj as [[x [y [-> [Hx [Hy _]]]]] | [[x [-> [Hx _]]] | [y [-> [Hy _]]]]];
    cbn [vector_rank keyword_rank]; split; intros r Hr;
    try discriminate; inversion Hr; subst; auto.
Qed.

(** With a positive [k] and 1-based ranks no divisor is zero: the main
    SELECT computes a row for every row of the join. *)
Lemma candidate_pool_ok (w_sem w_key k : Q) (v kw : list rank_row) :
  0 < k ->
  Forall (fun x => (1 <= snd x)%Z) v ->
  Forall (fun x => (1 <= snd x)%Z) kw ->
  candidate_pool w_sem w_key k v kw
  = Return (map (fused_row w_sem w_key k) (full_outer_join v kw)).
Proof.
  intros Hk Hv Hkw. unfold candidate_pool. apply omap_ok.
  intros j Hj. destruct (joined_ranks_one_based v kw j Hv Hkw Hj) as [H1 H2].
  unfold select_fused. rewrite (fused_score_ok _ _ _ _ _ Hk H1 H2). reflexivity.
Qed.

Lemma fuse_ok (w_sem w_key k : Q) (n : Z) (v kw : list rank_row) :
  0 < k ->
  Forall (fun x => (1 <= snd x)%Z) v ->
  Forall (fun x => (1 <= snd x)%Z) kw ->
  fuse w_sem w_key k n v kw
  = Return (firstn (Z.to_nat n)
              (order_by (desc snd) (map (fused_row w_sem w_key k) (full_outer_join v kw)))).
Proof.
  intros Hk Hv Hkw. unfold fuse.
  rewrite (candidate_pool_ok _ _ _ _ _ Hk Hv Hkw). reflexivity.
Qed.

Lemma fuse_nil (w_sem w_key k : Q) (n : Z) : fuse w_sem w_key k n [] [] = Return [].
Proof. unfold fuse, candidate_pool, sql_limit. cbn. apply f_equal, firstn_nil. Qed.

Lemma rank_in_found (l : list rank_row) (id : string) (r : Z) :
  NoDup (map fst l) -> In (id, r) l -> rank_in l id = Some r.
Proof.
  unfold rank_in. induction l as [|x rest IH]; intros Hnd Hin; [destruct Hin|].
  cbn [map] in Hnd. inversion Hnd as [|? ? Hx Hrest]; subst.
  cbn [find]. destruct Hin as [-> | Hin].
  - cbn [fst]. rewrite String.eqb_refl. reflexivity.
  - destruct (String.eqb (fst x) id) eqn:E; [|apply IH; assumption].
    apply String.eqb_eq in E. exfalso. apply Hx. rewrite E.
    apply (in_map fst) in Hin. exact Hin.
Qed.

Lemma rank_in_absent (l : list rank_row) (id : string) :
  ~ In id (map fst l) -> rank_in l id = None.
Proof.
  unfold rank_in. induction l as [|x rest IH]; intros Hn; [reflexivity|].
  cbn [find]. destruct (String.eqb (fst x) id) eqn:E.
  - apply String.eqb_eq in E. exfalso. apply Hn. left. exact E.
  - apply IH. intros Hin. apply Hn. right. exact Hin.
Qed.

(** With unique ids the ranks of a joined row are the ranks of its id
    in the two lists. *)
Lemma joined_ranks (v kw : list rank_row) (j : joined) :
  NoDup (map fst v) -> NoDup (map fst kw) ->
  In j (full_outer_join v kw) ->
  vector_rank j = rank_in v (joined_id j) /\
  keyword_rank j = rank_in kw (joined_id j).
Proof.
  intros Hv Hkw Hj. apply in_full_outer_join in Hj.
  destruct Hj as [[[xi xr] [[yi yr] [-> [Hx [Hy Hid]]]]]
                 | [[[xi xr] [-> [Hx Hn]]] | [[yi yr] [-> [Hy Hn]]]]];
    cbn [vector_rank keyword_rank joined_id fst snd] in *.
  - subst yi. rewrite (rank_in_found v xi xr Hv Hx), (rank_in_found kw xi yr Hkw Hy).
    split; reflexivity.
  - rewrite (rank_in_found v xi xr Hv Hx), (rank_in_absent kw xi Hn).
    split; reflexivity.
  - rewrite (rank_in_found kw yi yr Hkw Hy), (rank_in_absent v yi Hn).
    split; reflexivity.
Qed.

Lemma in_firstn {A : Type} (n : nat) (l : list A) (x : A) :
  In x (firstn n l) -> In x l.
Proof.
  revert l. induction n as [|n IH]; intros l Hin; [destruct Hin|].
  destruct l as [|y r]; [destruct Hin|].
  cbn [firstn] in Hin. destruct Hin as [-> | Hin]; [left; reflexivity|].
  right. apply IH. exact Hin.
Qed.

(* ================================================================== *)
(** ** Reciprocal rank fusion *)

Lemma fused_row_spec (w_sem w_key k : Q) (v kw : list rank_row) (j : joined) :
  NoDup (map fst v) -> NoDup (map fst kw) ->
  In j (full_outer_join v kw) ->
  snd (fused_row w_sem w_key k j)
  == spec_fused_score w_key w_sem k kw v (joined_id j).
Proof.
  intros Hv Hkw Hj. destruct (joined_ranks v kw j Hv Hkw Hj) as [H1 H2].
  unfold fused_row, spec_fused_score. cbn [snd]. rewrite H1, H2.
  apply Qplus_comm.
Qed.

(** The main SELECT on rank lists with unique ids and 1-based ranks,
    for [k > 0]: one pool row per id of the union of the two lists,
    with the score of the specification's formula; the sum of the two
    reciprocal terms for an id in both lists; and the first [top_n]
    rows of the pool sorted by score, highest first, as the result. *)
Lemma fuse_fused_scores (weight_keyword weight_semantic k : Q) (top_n : Z)
    (sparse_ranks dense_ranks : list rank_row) :
  0 < k ->
  Forall (fun x => (1 <= snd x)%Z) sparse_ranks ->
  Forall (fun x => (1 <= snd x)%Z) dense_ranks ->
  NoDup (map fst sparse_ranks) ->
  NoDup (map fst dense_ranks) ->
  exists pool sorted,
    candidate_pool weight_semantic weight_keyword k dense_ranks sparse_ranks
    = Return pool /\
    (forall id, In id (map fst sparse_ranks) \/ In id (map fst dense_ranks) ->
       exists s, In (id, s) pool /\
                 s == spec_fused_score weight_keyword weight_semantic k
                        sparse_ranks dense_ranks id) /\
    (forall id s, In (id, s) pool ->
       s == spec_fused_score weight_keyword weight_semantic k
              sparse_ranks dense_ranks id) /\
    NoDup (map fst pool) /\
    (forall id rs rd, In (id, rs) sparse_ranks -> In (id, rd) dense_ranks ->
       exists s, In (id, s) pool /\
                 s == weight_keyword * (1 / (k + inject_Z rs))
                      + weight_semantic * (1 / (k + inject_Z rd))) /\
    Permutation pool sorted /\
    StronglySorted (fun a b => snd b <= snd a) sorted /\
    fuse weight_semantic weight_keyword k top_n dense_ranks sparse_ranks
    = Return (firstn (Z.to_nat top_n) sorted).
Proof.
  intros Hk Hs Hd Hns Hnd.
  set (pool := map (fused_row weight_semantic weight_keyword k)
                   (full_outer_join dense_ranks sparse_ranks)).
  assert (Hunion : forall id,
             In id (map fst sparse_ranks) \/ In id (map fst dense_ranks) ->
             exists s, In (id, s) pool /\
                       s == spec_fused_score weight_keyword weight_semantic k
                              sparse_ranks dense_ranks id).
  { intros id Hid.
    assert (Hj : In id (map joined_id (full_outer_join dense_ranks sparse_ranks)))
      by (apply joined_id_in; tauto).
    apply in_map_iff in Hj. destruct Hj as [j [Hjid Hj]].
    exists (snd (fused_row weight_semantic weight_keyword k j)). split.
    - unfold pool. apply in_map_iff. exists j. split; [|exact Hj].
      unfold fused_row. cbn [snd]. rewrite Hjid. reflexivity.
    - rewrite <- Hjid. apply fused_row_spec; assumption. }
  exists pool, (order_by (desc snd) pool).
  split; [apply candidate_pool_ok; assumption|].
  split; [exact Hunion|].
  split.
  { intros id s Hin. unfold pool in Hin. apply in_map_iff in Hin.
    destruct Hin as [j [Hrow Hj]].
    pose proof (fused_row_spec weight_semantic weight_keyword k _ _ j Hnd Hns Hj) as H.
    rewrite Hrow in H. cbn [snd] in H.
    assert (Hid : joined_id j = id) by (unfold fused_row in Hrow; congruence).
    rewrite Hid in H. exact H. }
  split.
  { unfold pool. rewrite map_map. cbn [fused_row fst].
    apply joined_ids_once; assumption. }
  split.
  { intros id rs rd Hrs Hrd.
    destruct (Hunion id) as [s [Hin Hscore]].
    { left. apply (in_map fst) in Hrs. exact Hrs. }
    exists s. split; [exact Hin|]. rewrite Hscore. unfold spec_fused_score.
    rewrite (rank_in_found _ _ _ Hns Hrs), (rank_in_found _ _ _ Hnd Hrd).
    reflexivity. }
  split; [apply order_by_perm|].
  split; [apply order_by_desc_sorted|].
  apply fuse_ok; assumption.
Qed.

(** C6.  For rank lists with 1-based ranks and [k > 0]: every id of the
    fused result is an id of one of the two lists; every id of either
    list has a row in the candidate pool; an id of one list only has a
    pool row whose score is its single reciprocal term; and the result
    is the first [top_n] rows of the whole pool sorted by score. *)
Theorem rrf_candidacy (weight_keyword weight_semantic k : Q) (top_n : Z)
    (sparse_ranks dense_ranks : list rank_row) :
  0 < k ->
  Forall (fun x => (1 <= snd x)%Z) sparse_ranks ->
  Forall (fun x => (1 <= snd x)%Z) dense_ranks ->
  exists pool sorted rows,
    candidate_pool weight_semantic weight_keyword k dense_ranks sparse_ranks
    = Return pool /\
    fuse weight_semantic weight_keyword k top_n dense_ranks sparse_ranks
    = Return rows /\
    (forall id, In id (map fst rows) ->
                In id (map fst sparse_ranks) \/ In id (map fst dense_ranks)) /\
    (forall id, In id (map fst sparse_ranks) \/ In id (map fst dense_ranks) ->
                In id (map fst pool)) /\
    (forall id r, In (id, r) sparse_ranks -> ~ In id (map fst dense_ranks) ->
       exists s, In (id, s) pool /\ s == weight_keyword * (1 / (k + inject_Z r))) /\
    (forall id r, In (id, r) dense_ranks -> ~ In id (map fst sparse_ranks) ->
       exists s, In (id, s) pool /\ s == weight_semantic * (1 / (k + inject_Z r))) /\
    Permutation pool sorted /\
    StronglySorted (fun a b => snd b <= snd a) sorted /\
    rows = firstn (Z.to_nat top_n) sorted.
Proof.
  intros Hk Hs Hd.
  set (pool := map (fused_row weight_semantic weight_keyword k)
                   (full_outer_join dense_ranks sparse_ranks)).
  assert (Hids : map fst pool = map joined_id (full_outer_join dense_ranks sparse_ranks)).
  { unfold pool. rewrite map_map. reflexivity. }
  exists pool, (order_by (desc snd) pool),
    (firstn (Z.to_nat top_n) (order_by (desc snd) pool)).
  split; [apply candidate_pool_ok; assumption|].
  split; [apply fuse_ok; assumption|].
  split.
  { intros id Hin. apply in_map_iff in Hin. destruct Hin as [row [Hid Hin]].
    apply in_firstn in Hin.
    apply (Permutation_in _ (Permutation_sym (order_by_perm (desc snd) pool))) in Hin.
    apply (in_map fst) in Hin. rewrite Hid, Hids in Hin.
    apply joined_id_in in Hin. tauto. }
  split.
  { intros id Hin. rewrite Hids. apply joined_id_in. tauto. }
  split.
  { intros id r Hin Hn. exists (weight_semantic * 0 + weight_keyword * (1 / (k + inject_Z r))).
    split; [|ring].
    unfold pool. apply in_map_iff. exists (KeywordOnly (id, r)). split; [reflexivity|].
    apply in_full_outer_join. right. right. exists (id, r). repeat split; assumption. }
  split.
  { intros id r Hin Hn. exists (weight_semantic * (1 / (k + inject_Z r)) + weight_keyword * 0).
    split; [|ring].
    unfold pool. apply in_map_iff. exists (VectorOnly (id, r)). split; [reflexivity|].
    apply in_full_outer_join. right. left. exists (id, r). repeat split; assumption. }
  split; [apply order_by_perm|].
  split; [apply order_by_desc_sorted | reflexivity].
Qed.

Lemma reciprocal_antitone (k : Q) (r r' : Z) :
  0 < k -> (1 <= r)%Z -> (r <= r')%Z ->
  1 / (k + inject_Z r') <= 1 / (k + inject_Z r).
Proof.
  intros Hk Hr Hrr.
  assert (Hp : 0 < k + inject_Z r) by (apply positive_divisor; assumption).
  assert (Hp' : 0 < k + inject_Z r') by (apply positive_divisor; [assumption | lia]).
  assert (Hle : k + inject_Z r <= k + inject_Z r').
  { apply Qplus_le_r. rewrite <- Zle_Qle. exact Hrr. }
  unfold Qdiv. rewrite !Qmult_1_l.
  apply Qle_shift_inv_l; [exact Hp|].
  setoid_replace (/ (k + inject_Z r') * (k + inject_Z r))
    with ((k + inject_Z r) / (k + inject_Z r')) by (unfold Qdiv; ring).
  apply Qle_shift_div_r; [exact Hp'|]. rewrite Qmult_1_l. exact Hle.
Qed.

Lemma weighted_le (w a b : Q) : 0 <= w -> a <= b -> w * a <= w * b.
Proof.
  intros Hw Hab. rewrite (Qmult_comm w a), (Qmult_comm w b).
  apply Qmult_le_compat_r; assumption.
Qed.

(** C8.  For [k > 0], non-negative weights and 1-based ranks: moving an
    id from rank [r] to a later rank [r'] in the dense list, or in the
    sparse list, with its rank or absence in the other list unchanged,
    does not increase its fused score (and the score is computed in
    both positions). *)
Theorem fused_score_monotone (w_sem w_key k : Q) (r r' : Z) (other : option Z) :
  0 < k -> 0 <= w_sem -> 0 <= w_key ->
  (1 <= r)%Z -> (r <= r')%Z -> one_based other ->
  exists s s' t t',
    fused_score w_sem w_key k (Some r) other = Return s /\
    fused_score w_sem w_key k (Some r') other = Return s' /\
    s' <= s /\
    fused_score w_sem w_key k other (Some r) = Return t /\
    fused_score w_sem w_key k other (Some r') = Return t' /\
    t' <= t.
Proof.
  intros Hk Hws Hwk Hr Hrr Ho.
  assert (H1 : one_based (Some r)) by (intros x Hx; inversion Hx; subst; exact Hr).
  assert (H2 : one_based (Some r')) by (intros x Hx; inversion Hx; subst; lia).
  pose proof (reciprocal_antitone k r r' Hk Hr Hrr) as Hanti.
  do 4 eexists.
  split; [apply fused_score_ok; assumption|].
  split; [apply fused_score_ok; assumption|].
  split.
  { cbn [spec_term]. apply Qplus_le_l. apply weighted_le; assumption. }
  split; [apply fused_score_ok; assumption|].
  split; [apply fused_score_ok; assumption|].
  cbn [spec_term]. apply Qplus_le_r. apply weighted_le; assumption.
Qed.

Lemma rrf_candidacy_witness :
  exists pool rows,
    candidate_pool 1 1 60 [] [("d1", 1%Z); ("d2", 2%Z)] = Return pool /\
    fuse 1 1 60 5 [] [("d1", 1%Z); ("d2", 2%Z)] = Return rows /\
    (exists s, In ("d1", s) pool /\ s == 1 * (1 / (60 + inject_Z 1))).
Proof.
  destruct (rrf_candidacy 1 1 60 5 [("d1", 1%Z); ("d2", 2%Z)] [])
    as [pool [sorted [rows [Hpool [Hfuse [_ [_ [Hone _]]]]]]]].
  - reflexivity.
  - repeat constructor; simpl; lia.
  - constructor.
  - exists pool, rows. split; [exact Hpool|]. split; [exact Hfuse|].
    apply Hone; simpl; tauto.
Defined.

Lemma fused_score_monotone_witness :
  exists s s',
    fused_score 1 1 60 (Some 1%Z) (Some 3%Z) = Return s /\
    fused_score 1 1 60 (Some 2%Z) (Some 3%Z) = Return s' /\
    s' <= s.
Proof.
  destruct (fused_score_monotone 1 1 60 1 2 (Some 3%Z))
    as [s [s' [_ [_ [Hs [Hs' [Hle _]]]]]]].
  - reflexivity.
  - discriminate.
  - discriminate.
  - lia.
  - lia.
  - intros x Hx. inversion Hx. lia.
  - exists s, s'. repeat split; assumption.
Defined.

(** The worked examples of the specification. *)
Example single_source_scenario :
  fuse 1 1 60 5 [] [("d1", 1%Z); ("d2", 2%Z)]
  = Return [("d1", 1 * 0 + 1 * (1 / (60 + inject_Z 1)));
            ("d2", 1 * 0 + 1 * (1 / (60 + inject_Z 2)))].
Proof. reflexivity. Qed.

Example k_sensitivity_scenario :
  exists a b a' b',
    fuse 1 1 60 5 [("A", 100%Z); ("B", 2%Z)] [("A", 1%Z); ("B", 2%Z)]
    = Return [("B", b); ("A", a)] /\
    a == 1 / 61 + 1 / 160 /\ b == 1 / 62 + 1 / 62 /\
    fuse 1 1 1 5 [("A", 100%Z); ("B", 2%Z)] [("A", 1%Z); ("B", 2%Z)]
    = Return [("B", b'); ("A", a')] /\
    a' == 1 / 2 + 1 / 101 /\ b' == 1 / 3 + 1 / 3.
Proof. do 4 eexists. repeat split; reflexivity. Qed.

(* ================================================================== *)
(** ** The rank lists: ROW_NUMBER, RANK and LIMIT *)

Lemma firstn_seq (n start len : nat) :
  firstn n (seq start len) = seq start (Nat.min n len).
Proof.
  revert start len. induction n as [|n IH]; intros start len; [reflexivity|].
  destruct len as [|len]; [reflexivity|].
  cbn [seq firstn Nat.min]. rewrite IH. reflexivity.
Qed.

Lemma NoDup_firstn {A : Type} (n : nat) (l : list A) : NoDup l -> NoDup (firstn n l).
Proof.
  revert l. induction n as [|n IH]; intros l Hnd; [constructor|].
  destruct l as [|x r]; [constructor|].
  inversion Hnd as [|? ? Hx Hr]; subst. cbn [firstn]. constructor.
  - intros Hin. apply Hx. apply in_firstn in Hin. exact Hin.
  - apply IH. exact Hr.
Qed.

Lemma filter_length_perm {A : Type} (p : A -> bool) (l l' : list A) :
  Permutation l l' -> List.length (filter p l) = List.length (filter p l').
Proof.
  induction 1 as [|x l l' _ IH|x y l|l l' l'' _ IH1 _ IH2]; cbn [filter].
  - reflexivity.
  - destruct (p x); cbn [List.length]; rewrite IH; reflexivity.
  - destruct (p x), (p y); reflexivity.
  - rewrite IH1. exact IH2.
Qed.

Lemma StronglySorted_map_inv {A B : Type} (R : B -> B -> Prop) (f : A -> B) (l : list A) :
  StronglySorted R (map f l) -> StronglySorted (fun x y => R (f x) (f y)) l.
Proof.
  induction l as [|x r IH]; intros Hs; [constructor|].
  cbn [map] in Hs. inversion Hs as [|? ? Hr Hx]; subst.
  constructor; [apply IH; exact Hr|].
  rewrite Forall_forall in *. intros y Hy. apply Hx. apply in_map. exact Hy.
Qed.

Section WindowFacts.
Context {A : Type} (leb : A -> A -> bool).
Hypothesis leb_total : forall x y, leb x y = true \/ leb y x = true.
Hypothesis leb_trans : forall x y z, leb x y = true -> leb y z = true -> leb x z = true.

Lemma row_numbers_fst (l : list A) : map fst (row_numbers l) = l.
Proof.
  unfold row_numbers. generalize 1%nat.
  induction l as [|x r IH]; intros s; [reflexivity|].
  cbn [List.length seq map combine fst]. rewrite IH. reflexivity.
Qed.

Lemma row_numbers_snd (l : list A) :
  map snd (row_numbers l) = map Z.of_nat (seq 1 (List.length l)).
Proof.
  unfold row_numbers. generalize 1%nat.
  induction l as [|x r IH]; intros s; [reflexivity|].
  cbn [List.length seq map combine snd]. rewrite IH. reflexivity.
Qed.

(** ROW_NUMBER over an ordering, then ORDER BY the same ordering, then
    LIMIT: the first rows of the ordering, numbered from 1. *)
Lemma numbered_limit (n : Z) (rows : list A) :
  let numbered := row_numbers (order_by leb rows) in
  let cte := sql_limit n (order_by (fun x y => leb (fst x) (fst y)) numbered) in
  map fst cte = firstn (Z.to_nat n) (order_by leb rows) /\
  map snd cte = map Z.of_nat (seq 1 (Nat.min (Z.to_nat n) (List.length rows))).
Proof.
  intros numbered cte. subst cte. unfold sql_limit.
  assert (Hid : order_by (fun x y : A * Z => leb (fst x) (fst y)) numbered = numbered).
  { apply order_by_id.
    apply (StronglySorted_map_inv (fun a b => leb a b = true) fst).
    subst numbered. rewrite row_numbers_fst.
    apply order_by_sorted; assumption. }
  rewrite Hid. subst numbered. split.
  - rewrite <- firstn_map, row_numbers_fst. reflexivity.
  - rewrite <- firstn_map, row_numbers_snd, firstn_map, firstn_seq, order_by_length.
    reflexivity.
Qed.

Lemma sql_rank_one_based (rows : list A) (x : A) : (1 <= sql_rank leb rows x)%Z.
Proof. unfold sql_rank. lia. Qed.

(** Rows that tie share their rank. *)
Lemma sql_rank_tie (rows : list A) (x y : A) :
  leb x y = true -> leb y x = true -> sql_rank leb rows x = sql_rank leb rows y.
Proof.
  intros Hxy Hyx. unfold sql_rank. do 3 f_equal.
  apply filter_ext. intros z. f_equal.
  destruct (leb x z) eqn:Hxz, (leb y z) eqn:Hyz; try reflexivity.
  - rewrite (leb_trans _ _ _ Hyx Hxz) in Hyz. discriminate.
  - rewrite (leb_trans _ _ _ Hxy Hyz) in Hxz. discriminate.
Qed.

Lemma filter_length_lt (p q : A -> bool) (l : list A) (x : A) :
  (forall z, p z = true -> q z = true) ->
  In x l -> p x = false -> q x = true ->
  (List.length (filter p l) < List.length (filter q l))%nat.
Proof.
  intros Hpq. 
  assert (Hle : forall l', (List.length (filter p l') <= List.length (filter q l'))%nat).
  { induction l' as [|z r IH]; [apply Nat.le_refl|]. cbn [filter].
    destruct (p z) eqn:Hp.
    - rewrite (Hpq z Hp). cbn [List.length]. lia.
    - destruct (q z); cbn [List.length]; lia. }
  induction l as [|z r IH]; intros Hin Hp Hq; [destruct Hin|].
  cbn [filter]. destruct Hin as [-> | Hin].
  - rewrite Hp, Hq. cbn [List.length]. specialize (Hle r). lia.
  - specialize (IH Hin Hp Hq). destruct (p z) eqn:Hpz.
    + rewrite (Hpq z Hpz). cbn [List.length]. lia.
    + destruct (q z); cbn [List.length]; lia.
Qed.

(** A row strictly ahead of another has a strictly smaller rank. *)
Lemma sql_rank_strict (rows : list A) (x y : A) :
  In x rows -> leb y x = false ->
  (sql_rank leb rows x < sql_rank leb rows y)%Z.
Proof.
  intros Hin Hyx. unfold sql_rank.
  assert (Hxy : leb x y = true)
    by (destruct (leb_total x y) as [H|H]; [exact H | congruence]).
  assert (Hlt : (List.length (filter (fun z => negb (leb x z)) rows)
                 < List.length (filter (fun z => negb (leb y z)) rows))%nat).
  { apply (filter_length_lt _ _ rows x).
    - intros z Hz. apply negb_true_iff in Hz. apply negb_true_iff.
      destruct (leb y z) eqn:Hyz; [|reflexivity].
      rewrite (leb_trans _ _ _ Hxy Hyz) in Hz. discriminate.
    - exact Hin.
    - destruct (leb_total x x) as [H|H]; rewrite H; reflexivity.
    - rewrite Hyx. reflexivity. }
  lia.
Qed.

(** Without ties the ranks are the positions. *)
Lemma sql_rank_positions (l1 l2 : list A) :
  StronglySorted (fun a b => leb b a = false) (l1 ++ l2) ->
  map (fun x => 1 + Z.of_nat (List.length (filter (fun z => negb (leb x z)) (l1 ++ l2))))%Z l2
  = map Z.of_nat (seq (1 + List.length l1) (List.length l2)).
Proof.
  revert l1. induction l2 as [|x r IH]; intros l1 Hs; [reflexivity|].
  cbn [map List.length seq]. f_equal.
  - rewrite filter_app, length_app. cbn [filter].
    assert (Hxx : leb x x = true) by (destruct (leb_total x x); assumption).
    rewrite Hxx. cbn [negb].
    assert (H1 : filter (fun z => negb (leb x z)) l1 = l1).
    { apply forallb_filter_id. apply forallb_forall. intros z Hz.
      apply negb_true_iff.
      clear IH Hxx. induction l1 as [|a l1 IH1]; [destruct Hz|].
      cbn [app] in Hs. inversion Hs as [|? ? Hs' Ha]; subst.
      destruct Hz as [-> | Hz]; [|apply IH1; assumption].
      rewrite Forall_forall in Ha. apply Ha. apply in_or_app. right. left. reflexivity. }
    assert (H2 : filter (fun z => negb (leb x z)) r = []).
    { assert (Hr : Forall (fun b => leb b x = false) r).
      { clear IH H1. induction l1 as [|a l1 IH1].
        - cbn [app] in Hs. inversion Hs; assumption.
        - cbn [app] in Hs. inversion Hs; subst. apply IH1. assumption. }
      clear IH Hs H1. induction r as [|b r IHr]; [reflexivity|].
      inversion Hr as [|? ? Hb Hr']; subst. cbn [filter].
      assert (Hxb : leb x b = true)
        by (destruct (leb_total x b) as [H|H]; [exact H | congruence]).
      rewrite Hxb. cbn [negb]. apply IHr. exact Hr'. }
    rewrite H1, H2. cbn [List.length]. lia.
  - specialize (IH (l1 ++ [x])). rewrite <- app_assoc in IH. cbn [app] in IH.
    rewrite (IH Hs), length_app. cbn [List.length].
    replace (1 + (List.length l1 + 1))%nat with (S (1 + List.length l1)) by lia.
    reflexivity.
Qed.

Lemma sql_rank_no_ties (rows : list A) :
  StronglySorted (fun a b => leb b a = false) (order_by leb rows) ->
  map (sql_rank leb rows) (order_by leb rows)
  = map Z.of_nat (seq 1 (List.length rows)).
Proof.
  intros Hs.
  transitivity
    (map (fun x => 1 + Z.of_nat (List.length
                        (filter (fun z => negb (leb x z)) ([] ++ order_by leb rows))))%Z
         (order_by leb rows)).
  - apply map_ext. intros x. unfold sql_rank. cbn [app]. do 2 f_equal.
    apply filter_length_perm. apply order_by_perm.
  - rewrite (sql_rank_positions [] (order_by leb rows) Hs).
    cbn [List.length Nat.add]. rewrite order_by_length. reflexivity.
Qed.

End WindowFacts.

Lemma strict_of_no_ties {A : Type} (leb : A -> A -> bool) (l : list A) :
  StronglySorted (fun a b => leb a b = true) l ->
  NoDup l ->
  (forall x y, In x l -> In y l -> leb x y = true -> leb y x = true -> x = y) ->
  StronglySorted (fun a b => leb b a = false) l.
Proof.
  induction 1 as [|x l Hl IH Hx]; intros Hnd Hinj; [constructor|].
  inversion Hnd as [|? ? Hnx Hnl]; subst. constructor.
  - apply IH; [exact Hnl|]. intros a b Ha Hb. apply Hinj; right; assumption.
  - rewrite Forall_forall in *. intros y Hy.
    destruct (leb y x) eqn:Hyx; [|reflexivity].
    exfalso. apply Hnx.
    rewrite (Hinj x y (or_introl eq_refl) (or_intror Hy) (Hx y Hy) Hyx). exact Hy.
Qed.

Lemma asc_no_ties {A : Type} (key : A -> Q) (rows : list A) :
  NoDup rows -> no_ties key rows ->
  StronglySorted (fun a b => asc key b a = false) (order_by (asc key) rows).
Proof.
  intros Hnd Hnt.
  pose proof (order_by_perm (asc key) rows) as Hp.
  apply strict_of_no_ties.
  - apply order_by_sorted; [apply asc_total | apply asc_trans].
  - exact (Permutation_NoDup Hp Hnd).
  - intros x y Hx Hy Hxy Hyx.
    apply (Permutation_in _ (Permutation_sym Hp)) in Hx, Hy.
    apply Hnt; [exact Hx | exact Hy|].
    unfold asc in *. apply Qle_bool_iff in Hxy, Hyx. apply Qle_antisym; assumption.
Qed.

Lemma desc_no_ties {A : Type} (key : A -> Q) (rows : list A) :
  NoDup rows -> no_ties key rows ->
  StronglySorted (fun a b => desc key b a = false) (order_by (desc key) rows).
Proof.
  intros Hnd Hnt.
  pose proof (order_by_perm (desc key) rows) as Hp.
  apply strict_of_no_ties.
  - apply order_by_sorted; [apply desc_total | apply desc_trans].
  - exact (Permutation_NoDup Hp Hnd).
  - intros x y Hx Hy Hxy Hyx.
    apply (Permutation_in _ (Permutation_sym Hp)) in Hx, Hy.
    apply Hnt; [exact Hx | exact Hy|].
    unfold desc in *. apply Qle_bool_iff in Hxy, Hyx. apply Qle_antisym; assumption.
Qed.

Lemma id_and_rank_fst {R : Type} (l : list ((string * R) * Z)) :
  map fst (map id_and_rank l) = map fst (map fst l).
Proof. rewrite !map_map. reflexivity. Qed.

Lemma id_and_rank_snd {R : Type} (l : list ((string * R) * Z)) :
  map snd (map id_and_rank l) = map snd l.
Proof. rewrite !map_map. reflexivity. Qed.

(** A CTE of the pg_textsearch dialect: the first [n] ids of the
    source's ordering, with the ranks 1, 2, 3, ... *)
Lemma row_number_cte {R : Type} (d : string * R -> Q) (rows : list (string * R)) (n : Z) :
  let cte := map id_and_rank
               (sql_limit n (order_by (asc (fun x => d (fst x)))
                                      (row_numbers (order_by (asc d) rows)))) in
  map fst cte = firstn (Z.to_nat n) (map fst (order_by (asc d) rows)) /\
  map snd cte = map Z.of_nat (seq 1 (Nat.min (Z.to_nat n) (List.length rows))).
Proof.
  intros cte. subst cte.
  destruct (numbered_limit (asc d) (asc_total d) (asc_trans d) n rows) as [Hf Hs].
  cbv zeta in Hf, Hs.
  change (fun x y : (string * R) * Z => asc d (fst x) (fst y))
    with (asc (fun x : (string * R) * Z => d (fst x))) in Hf, Hs.
  rewrite id_and_rank_fst, id_and_rank_snd, Hf, Hs, firstn_map.
  split; reflexivity.
Qed.

(** A CTE of the default dialect: the first [n] ids of the source's
    ordering, each with its RANK among all the rows. *)
Lemma rank_cte {R : Type} (leb : string * R -> string * R -> bool)
    (rows : list (string * R)) (n : Z) :
  let cte := sql_limit n (map (fun r => (fst r, sql_rank leb rows r)) (order_by leb rows)) in
  map fst cte = firstn (Z.to_nat n) (map fst (order_by leb rows)) /\
  map snd cte = firstn (Z.to_nat n) (map (sql_rank leb rows) (order_by leb rows)).
Proof.
  intros cte. subst cte. unfold sql_limit.
  rewrite <- !firstn_map, !map_map. split; reflexivity.
Qed.

Section RankLists.
Context {engine : Engine}.

(** The rank lists, per dialect.  Each source contributes the first
    [min(top_n, N)] of its [N] rows under its own ordering: ascending
    distance for dense; for sparse, ascending BM25 distance
    (pg_textsearch dialect) or descending text rank among the matching
    rows (default dialect).  In the pg_textsearch dialect (ROW_NUMBER)
    the ranks are the positions 1, 2, 3, ...  In the default dialect
    (RANK) a row's rank depends on the ordering only: it is at least 1,
    rows that tie share it, a row strictly ahead of another has a
    strictly smaller one, and when no two rows tie (and ids are unique)
    the ranks are the positions 1, 2, 3, ... *)
Theorem rank_lists_by_dialect (db : database) (dense_table sparse_table q idx : string)
    (v : vector) (n : Z) :
  let m := Z.to_nat n in
  let dist (r : string * vector) := distance (snd r) v in
  let bm25 (r : string * string) := bm25_distance (snd r) q idx in
  let text_rank (r : string * string) := ts_rank (snd r) q in
  let dense := dense_rows db dense_table in
  let sparse := sparse_rows db sparse_table in
  let matching := filter (fun r => ts_match (snd r) q) sparse in
  (Permutation dense (order_by (asc dist) dense) /\
   StronglySorted (fun a b => dist a <= dist b) (order_by (asc dist) dense)) /\
  (Permutation sparse (order_by (asc bm25) sparse) /\
   StronglySorted (fun a b => bm25 a <= bm25 b) (order_by (asc bm25) sparse)) /\
  (Permutation matching (order_by (desc text_rank) matching) /\
   StronglySorted (fun a b => text_rank b <= text_rank a)
                  (order_by (desc text_rank) matching)) /\
  (map fst (vector_search db dense_table v n)
   = firstn m (map fst (order_by (asc dist) dense)) /\
   map snd (vector_search db dense_table v n)
   = map Z.of_nat (seq 1 (Nat.min m (List.length dense)))) /\
  (map fst (keyword_search_bm25 db sparse_table q idx n)
   = firstn m (map fst (order_by (asc bm25) sparse)) /\
   map snd (keyword_search_bm25 db sparse_table q idx n)
   = map Z.of_nat (seq 1 (Nat.min m (List.length sparse)))) /\
  (map fst (semantic_search db dense_table v n)
   = firstn m (map fst (order_by (asc dist) dense)) /\
   map snd (semantic_search db dense_table v n)
   = firstn m (map (sql_rank (asc dist) dense) (order_by (asc dist) dense))) /\
  (map fst (keyword_search db sparse_table q n)
   = firstn m (map fst (order_by (desc text_rank) matching)) /\
   map snd (keyword_search db sparse_table q n)
   = firstn m (map (sql_rank (desc text_rank) matching)
                   (order_by (desc text_rank) matching))) /\
  (forall x y, In x dense ->
     (1 <= sql_rank (asc dist) dense x)%Z /\
     (dist x == dist y -> sql_rank (asc dist) dense x = sql_rank (asc dist) dense y) /\
     (dist x < dist y -> (sql_rank (asc dist) dense x < sql_rank (asc dist) dense y)%Z)) /\
  (forall x y, In x matching ->
     (1 <= sql_rank (desc text_rank) matching x)%Z /\
     (text_rank x == text_rank y ->
      sql_rank (desc text_rank) matching x = sql_rank (desc text_rank) matching y) /\
     (text_rank y < text_rank x ->
      (sql_rank (desc text_rank) matching x < sql_rank (desc text_rank) matching y)%Z)) /\
  (NoDup (map fst dense) -> no_ties dist dense ->
   map snd (semantic_search db dense_table v n)
   = map Z.of_nat (seq 1 (Nat.min m (List.length dense)))) /\
  (NoDup (map fst sparse) -> no_ties text_rank matching ->
   map snd (keyword_search db sparse_table q n)
   = map Z.of_nat (seq 1 (Nat.min m (List.length matching)))).
Proof.
  intros m dist bm25 text_rank dense sparse matching.
  split; [split; [apply order_by_perm | apply order_by_asc_sorted]|].
  split; [split; [apply order_by_perm | apply order_by_asc_sorted]|].
  split; [split; [apply order_by_perm | apply order_by_desc_sorted]|].
  split; [apply (row_number_cte dist dense n)|].
  split; [apply (row_number_cte bm25 sparse n)|].
  split; [apply (rank_cte (asc dist) dense n)|].
  split; [apply (rank_cte (desc text_rank) matching n)|].
  split.
  { intros x y Hx. split; [apply sql_rank_one_based|]. split.
    - intros Heq. apply sql_rank_tie; [apply asc_trans | |];
        unfold asc; apply Qle_bool_iff; rewrite Heq; apply Qle_refl.
    - intros Hlt. apply sql_rank_strict;
        [apply asc_total | apply asc_trans | exact Hx |].
      unfold asc. destruct (Qle_bool (dist y) (dist x)) eqn:E; [|reflexivity].
      apply Qle_bool_iff in E. exfalso. exact (Qlt_not_le _ _ Hlt E). }
  split.
  { intros x y Hx. split; [apply sql_rank_one_based|]. split.
    - intros Heq. apply sql_rank_tie; [apply desc_trans | |];
        unfold desc; apply Qle_bool_iff; rewrite Heq; apply Qle_refl.
    - intros Hlt. apply sql_rank_strict;
        [apply desc_total | apply desc_trans | exact Hx |].
      unfold desc. destruct (Qle_bool (text_rank x) (text_rank y)) eqn:E; [|reflexivity].
      apply Qle_bool_iff in E. exfalso. exact (Qlt_not_le _ _ Hlt E). }
  split.
  { intros Hnd Hnt.
    destruct (rank_cte (asc dist) dense n) as [_ Hs]. cbv zeta in Hs.
    unfold semantic_search. fold dense. fold dist. rewrite Hs.
    rewrite (sql_rank_no_ties (asc dist) (asc_total dist) dense
               (asc_no_ties dist dense (NoDup_map_inv _ _ Hnd) Hnt)).
    rewrite firstn_map, firstn_seq. reflexivity. }
  { intros Hnd Hnt.
    destruct (rank_cte (desc text_rank) matching n) as [_ Hs]. cbv zeta in Hs.
    unfold keyword_search. fold sparse. fold matching. fold text_rank. rewrite Hs.
    assert (Hm : NoDup matching).
    { apply (NoDup_map_inv fst). apply NoDup_map_filter_fst. exact Hnd. }
    rewrite (sql_rank_no_ties (desc text_rank) (desc_total text_rank) matching
               (desc_no_ties text_rank matching Hm Hnt)).
    rewrite firstn_map, firstn_seq. reflexivity. }
Qed.

End RankLists.

(* ================================================================== *)
(** ** From the rank lists to the result of [rrf_search] *)

Section Fusion.
Context {tables : CharTables} {engine : Engine} {constants : Constants}.

Lemma ranks_one_based (l : list rank_row) :
  Forall (fun r => (1 <= r)%Z) (map snd l) -> Forall (fun x => (1 <= snd x)%Z) l.
Proof.
  rewrite !Forall_forall. intros H x Hx. apply H. apply in_map. exact Hx.
Qed.

Lemma positions_one_based (len : nat) :
  Forall (fun r => (1 <= r)%Z) (map Z.of_nat (seq 1 len)).
Proof.
  rewrite Forall_forall. intros r Hr. apply in_map_iff in Hr.
  destruct Hr as [i [<- Hi]]. apply in_seq in Hi. lia.
Qed.

Lemma sql_ranks_one_based {A : Type} (leb : A -> A -> bool) (rows l : list A) (m : nat) :
  Forall (fun r => (1 <= r)%Z) (firstn m (map (sql_rank leb rows) l)).
Proof.
  rewrite Forall_forall. intros r Hr. apply in_firstn in Hr.
  apply in_map_iff in Hr. destruct Hr as [x [<- _]]. apply sql_rank_one_based.
Qed.

Lemma ordered_ids_unique {R : Type} (leb : string * R -> string * R -> bool)
    (rows : list (string * R)) (m : nat) :
  NoDup (map fst rows) -> NoDup (firstn m (map fst (order_by leb rows))).
Proof.
  intros Hnd. apply NoDup_firstn.
  exact (Permutation_NoDup (Permutation_map fst (order_by_perm leb rows)) Hnd).
Qed.

(** The rank lists of a fusion call have 1-based ranks, and unique ids
    when the ids of the tables are unique (they are the primary key). *)
Lemma rank_lists_well_formed (self : PostgresSearcher) (dense_table sparse_table q : string)
    (v : vector) (n : Z) :
  NoDup (map fst (dense_rows (conn self) dense_table)) ->
  NoDup (map fst (sparse_rows (conn self) sparse_table)) ->
  Forall (fun x => (1 <= snd x)%Z) (dense_rank_list self dense_table v n) /\
  Forall (fun x => (1 <= snd x)%Z) (sparse_rank_list self sparse_table q n) /\
  NoDup (map fst (dense_rank_list self dense_table v n)) /\
  NoDup (map fst (sparse_rank_list self sparse_table q n)).
Proof.
  intros Hd Hs. unfold dense_rank_list, sparse_rank_list.
  destruct (use_pg_textsearch self).
  - unfold vector_search, keyword_search_bm25.
    destruct (row_number_cte (fun r : string * vector => distance (snd r) v)
                (dense_rows (conn self) dense_table) n) as [Hdf Hds].
    destruct (row_number_cte
                (fun r : string * string =>
                   bm25_distance (snd r) q (BM25_INDEX_TEMPLATE_format sparse_table))
                (sparse_rows (conn self) sparse_table) n) as [Hsf Hss].
    cbv zeta in Hdf, Hds, Hsf, Hss.
    repeat split.
    + apply ranks_one_based. rewrite Hds. apply positions_one_based.
    + apply ranks_one_based. rewrite Hss. apply positions_one_based.
    + rewrite Hdf. apply ordered_ids_unique. exact Hd.
    + rewrite Hsf. apply ordered_ids_unique. exact Hs.
  - unfold semantic_search, keyword_search.
    set (tsq := clean_tsquery q).
    destruct (rank_cte (asc (fun r : string * vector => distance (snd r) v))
                (dense_rows (conn self) dense_table) n) as [Hdf Hds].
    destruct (rank_cte (desc (fun r : string * string => ts_rank (snd r) tsq))
                (filter (fun r => ts_match (snd r) tsq)
                        (sparse_rows (conn self) sparse_table)) n) as [Hsf Hss].
    cbv zeta in Hdf, Hds, Hsf, Hss.
    repeat split.
    + apply ranks_one_based. rewrite Hds. apply sql_ranks_one_based.
    + apply ranks_one_based. rewrite Hss. apply sql_ranks_one_based.
    + rewrite Hdf. apply ordered_ids_unique. exact Hd.
    + rewrite Hsf. apply ordered_ids_unique. apply NoDup_map_filter_fst. exact Hs.
Qed.

(** When both names resolve, the tables have the columns the statement
    names, the vector text is a vector and [top_n] is not negative,
    [rrf_search] returns the fusion of the two rank lists. *)
Lemma rrf_search_fuses (self : PostgresSearcher) (q qe : string) (n : Z) (k : Q)
    (t0 t1 : string) (more : list string) (wk ws : Q) (log : list statement)
    (ty0 ty1 : SearchType.t) (v : vector) :
  search_type_of self t0 = Return ty0 ->
  search_type_of self t1 = Return ty1 ->
  require_columns (conn self) (dense_table_of ty1 t0 t1) ["id"; "embedding"] = Return tt ->
  require_columns (conn self) (sparse_table_of ty0 t0 t1) ["id"; "contents"] = Return tt ->
  cast_vector qe = Some v ->
  (0 <= n)%Z ->
  fst (rrf_search self q qe n k (t0 :: t1 :: more) wk ws log)
  = fuse ws wk k n
      (dense_rank_list self (dense_table_of ty1 t0 t1) v n)
      (sparse_rank_list self (sparse_table_of ty0 t0 t1) q n).
Proof.
  intros H0 H1 Hcd Hcs Hv Hn.
  rewrite (rrf_search_run _ _ _ _ _ _ _ _ _ _ _ _ _ H0 H1). cbn [fst].
  assert (Hlim : require_limit n = Return tt).
  { unfold require_limit. destruct (n <? 0)%Z eqn:E; [|reflexivity].
    apply Z.ltb_lt in E. lia. }
  unfold rrf_answer, dense_rank_list, sparse_rank_list,
    rrf_bm25_answer, rrf_tsquery_answer, require_vector.
  rewrite Hcd, Hcs, Hv, Hlim.
  destruct (use_pg_textsearch self); reflexivity.
Qed.

(** C1.  In a call of [rrf_search] that evaluates its fusion statement
    (both names resolve, the columns exist, the vector text is a vector,
    [top_n >= 0]) with [k > 0], over tables whose ids are unique: for
    the two rank lists of the call, every id of either list has one row
    in the candidate pool, with the score
    [weight_keyword * (1 / (k + rank_sparse(id)) or 0)
     + weight_semantic * (1 / (k + rank_dense(id)) or 0)];
    an id in both lists gets the sum of its two reciprocal terms; and
    [rrf_search] returns the first [top_n] rows of the pool sorted by
    score, highest first. *)
Theorem rrf_fused_scores (self : PostgresSearcher) (q qe : string) (top_n : Z) (k : Q)
    (t0 t1 : string) (more : list string) (weight_keyword weight_semantic : Q)
    (log : list statement) (ty0 ty1 : SearchType.t) (v : vector) :
  0 < k ->
  (0 <= top_n)%Z ->
  search_type_of self t0 = Return ty0 ->
  search_type_of self t1 = Return ty1 ->
  let sparse_table := sparse_table_of ty0 t0 t1 in
  let dense_table := dense_table_of ty1 t0 t1 in
  require_columns (conn self) dense_table ["id"; "embedding"] = Return tt ->
  require_columns (conn self) sparse_table ["id"; "contents"] = Return tt ->
  cast_vector qe = Some v ->
  NoDup (map fst (dense_rows (conn self) dense_table)) ->
  NoDup (map fst (sparse_rows (conn self) sparse_table)) ->
  let sparse_ranks := sparse_rank_list self sparse_table q top_n in
  let dense_ranks := dense_rank_list self dense_table v top_n in
  exists pool sorted,
    candidate_pool weight_semantic weight_keyword k dense_ranks sparse_ranks
    = Return pool /\
    (forall id, In id (map fst sparse_ranks) \/ In id (map fst dense_ranks) ->
       exists s, In (id, s) pool /\
                 s == spec_fused_score weight_keyword weight_semantic k
                        sparse_ranks dense_ranks id) /\
    (forall id s, In (id, s) pool ->
       s == spec_fused_score weight_keyword weight_semantic k
              sparse_ranks dense_ranks id) /\
    NoDup (map fst pool) /\
    (forall id rs rd, In (id, rs) sparse_ranks -> In (id, rd) dense_ranks ->
       exists s, In (id, s) pool /\
                 s == weight_keyword * (1 / (k + inject_Z rs))
                      + weight_semantic * (1 / (k + inject_Z rd))) /\
    Permutation pool sorted /\
    StronglySorted (fun a b => snd b <= snd a) sorted /\
    fst (rrf_search self q qe top_n k (t0 :: t1 :: more)
           weight_keyword weight_semantic log)
    = Return (firstn (Z.to_nat top_n) sorted).
Proof.
  intros Hk Hn H0 H1 sparse_table dense_table Hcd Hcs Hv Hnd Hns sparse_ranks dense_ranks.
  destruct (rank_lists_well_formed self dense_table sparse_table q v top_n Hnd Hns)
    as [Hd1 [Hs1 [Hdu Hsu]]].
  destruct (fuse_fused_scores weight_keyword weight_semantic k top_n
              sparse_ranks dense_ranks Hk Hs1 Hd1 Hsu Hdu)
    as [pool [sorted [Hpool [Hall [Hrow [Hone [Hboth [Hperm [Hsorted Hfuse]]]]]]]]].
  exists pool, sorted.
  repeat (split; [assumption|]).
  rewrite (rrf_search_fuses _ _ _ _ _ _ _ _ _ _ _ _ _ _ H0 H1 Hcd Hcs Hv Hn).
  exact Hfuse.
Qed.

(** C7.  When the fusion statement is evaluated (both names resolve,
    the columns exist, the vector text is a vector, [top_n >= 0]) and
    both rank lists are empty, [rrf_search] returns the empty list and
    raises nothing. *)
Theorem rrf_search_empty_rank_lists (self : PostgresSearcher) (q qe : string) (n : Z)
    (k : Q) (t0 t1 : string) (more : list string) (wk ws : Q) (log : list statement)
    (ty0 ty1 : SearchType.t) (v : vector) :
  search_type_of self t0 = Return ty0 ->
  search_type_of self t1 = Return ty1 ->
  require_columns (conn self) (dense_table_of ty1 t0 t1) ["id"; "embedding"] = Return tt ->
  require_columns (conn self) (sparse_table_of ty0 t0 t1) ["id"; "contents"] = Return tt ->
  cast_vector qe = Some v ->
  (0 <= n)%Z ->
  dense_rank_list self (dense_table_of ty1 t0 t1) v n = [] ->
  sparse_rank_list self (sparse_table_of ty0 t0 t1) q n = [] ->
  fst (rrf_search self q qe n k (t0 :: t1 :: more) wk ws log) = Return [].
Proof.
  intros H0 H1 Hcd Hcs Hv Hn Hd Hs.
  rewrite (rrf_search_fuses _ _ _ _ _ _ _ _ _ _ _ _ _ _ H0 H1 Hcd Hcs Hv Hn).
  rewrite Hd, Hs. apply fuse_nil.
Qed.

End Fusion.

Lemma rrf_search_empty_rank_lists_witness :
  fst (rrf_search (toy_searcher false) "black hole" "[1]" 5 60
         ["empty_sparse"; "empty_dense"] 1 1 []) = Return []
  /\
  fst (rrf_search (toy_searcher true) "black hole" "[1]" 0 60
         ["sparse"; "dense"] 1 1 []) = Return [].
Proof.
  split.
  - apply (rrf_search_empty_rank_lists (toy_searcher false) "black hole" "[1]" 5 60
             "empty_sparse" "empty_dense" [] 1 1 []
             SearchType.SPARSE SearchType.DENSE 1);
      try reflexivity; lia.
  - apply (rrf_search_empty_rank_lists (toy_searcher true) "black hole" "[1]" 0 60
             "sparse" "dense" [] 1 1 []
             SearchType.SPARSE SearchType.DENSE 1);
      try reflexivity; lia.
Defined.

Lemma rrf_fused_scores_witness :
  exists pool sorted,
    candidate_pool 1 1 60
      (dense_rank_list (toy_searcher false) "dense" (1 : Q) 3)
      (sparse_rank_list (toy_searcher false) "sparse" "black hole?" 3)
    = Return pool /\
    Permutation pool sorted /\
    fst (rrf_search (toy_searcher false) "black hole?" "[1]" 3 60
           ["sparse"; "dense"] 1 1 [])
    = Return (firstn 3 sorted).
Proof.
  destruct (rrf_fused_scores (toy_searcher false) "black hole?" "[1]" 3 60
              "sparse" "dense" [] 1 1 [] SearchType.SPARSE SearchType.DENSE (1 : Q))
    as [pool [sorted [Hpool [_ [_ [_ [_ [Hperm [_ Hrun]]]]]]]]];
    try reflexivity.
  - lia.
  - simpl. repeat constructor; simpl; intuition discriminate.
  - simpl. repeat constructor; simpl; intuition discriminate.
  - exists pool, sorted. repeat split; assumption.
Defined.

Lemma rank_lists_by_dialect_witness :
  map snd (semantic_search toy_db "both_a" (0 : Q) 5) = [1%Z; 2%Z] /\
  map snd (vector_search toy_db "dense" (1 : Q) 2) = [1%Z; 2%Z].
Proof.
  split.
  - pose proof (rank_lists_by_dialect toy_db "both_a" "both_a" "black" "" (0 : Q) 5) as H.
    cbv zeta in H.
    destruct H as [_ [_ [_ [_ [_ [_ [_ [_ [_ [H _]]]]]]]]]].
    rewrite H; [reflexivity | |].
    + simpl. repeat constructor; simpl; intuition discriminate.
    + intros x y Hx Hy. simpl in Hx, Hy.
      destruct Hx as [<- | [<- | []]]; destruct Hy as [<- | [<- | []]];
        intros Hk; try reflexivity; vm_compute in Hk; discriminate.
  - pose proof (rank_lists_by_dialect toy_db "dense" "sparse" "black" "" (1 : Q) 2) as H.
    cbv zeta in H.
    destruct H as [_ [_ [_ [[_ H] _]]]].
    rewrite H. reflexivity.
Defined.

(** In the default dialect two rows at the same distance get the same
    rank, and the next rank is skipped. *)
Lemma default_dialect_shared_rank :
  let self := toy_searcher false in
  dense_rank_list self "dense" (1 : Q) 5 = [("d2", 1%Z); ("d5", 1%Z); ("d1", 3%Z)] /\
  fst (rrf_search self "black hole" "[1]" 5 60 ["sparse"; "dense"] 1 1 [])
  = fuse 1 1 60 5 [("d2", 1%Z); ("d5", 1%Z); ("d1", 3%Z)]
         (sparse_rank_list self "sparse" "black hole" 5) /\
  ~ NoDup (map snd (dense_rank_list self "dense" (1 : Q) 5)).
Proof.
  split; [reflexivity|]. split; [reflexivity|].
  intros H. vm_compute in H. inversion H as [|? ? Hin _]. apply Hin. left. reflexivity.
Qed.

(** RANK counts the rows strictly ahead: when the rows split into
    those strictly ahead of [x] and the others, the rank of [x] is one
    more than the number of the former, ties among them included. *)
Lemma sql_rank_counts_rows_ahead {A : Type} (leb : A -> A -> bool)
    (rows ahead others : list A) (x : A) :
  Permutation rows (ahead ++ others) ->
  Forall (fun y => leb x y = false) ahead ->
  Forall (fun y => leb x y = true) others ->
  sql_rank leb rows x = (1 + Z.of_nat (List.length ahead))%Z.
Proof.
  intros Hperm Hahead Hothers. unfold sql_rank. do 2 f_equal.
  rewrite (filter_length_perm _ _ _ Hperm), filter_app, length_app.
  assert (H1 : filter (fun y => negb (leb x y)) ahead = ahead).
  { apply forallb_filter_id. apply forallb_forall. rewrite Forall_forall in Hahead.
    intros y Hy. rewrite (Hahead y Hy). reflexivity. }
  assert (H2 : filter (fun y => negb (leb x y)) others = []).
  { clear Hperm. induction Hothers as [|y others Hy _ IH]; [reflexivity|].
    cbn [filter]. rewrite Hy. exact IH. }
  rewrite H1, H2. cbn [List.length]. lia.
Qed.

(** C3.  The code at a tie.  The dense table of the small engine has
    two rows ([d2], [d5]) at the same distance from the query vector
    and a third ([d1]) farther away.  The default dialect of
    [rrf_search] (RANK, LIMIT with no ORDER BY) ranks them 1, 1, 3:
    two distinct rows share a position and position 2 is not given.
    The pg_textsearch dialect of the same method (ROW_NUMBER, ORDER BY
    before LIMIT) ranks the same rows 1, 2, 3.  The fusion call of each
    dialect runs on its rank list, so [d5] scores as a first in the
    default dialect and as a second in the other. *)
Lemma default_dialect_ranks_on_ties :
  map (fun r => (fst r, distance (snd r) (1 : Q))) (dense_rows toy_db "dense")
  = [("d1", Qabs (2 - 1)); ("d2", Qabs (1 - 1)); ("d5", Qabs (1 - 1))] /\
  dense_rank_list (toy_searcher false) "dense" (1 : Q) 5
  = [("d2", 1%Z); ("d5", 1%Z); ("d1", 3%Z)] /\
  dense_rank_list (toy_searcher true) "dense" (1 : Q) 5
  = [("d2", 1%Z); ("d5", 2%Z); ("d1", 3%Z)] /\
  fst (rrf_search (toy_searcher false) "black hole" "[1]" 5 60 ["sparse"; "dense"] 1 1 [])
  = fuse 1 1 60 5 [("d2", 1%Z); ("d5", 1%Z); ("d1", 3%Z)]
         (sparse_rank_list (toy_searcher false) "sparse" "black hole" 5) /\
  fst (rrf_search (toy_searcher true) "black hole" "[1]" 5 60 ["sparse"; "dense"] 1 1 [])
  = fuse 1 1 60 5 [("d2", 1%Z); ("d5", 2%Z); ("d1", 3%Z)]
         (sparse_rank_list (toy_searcher true) "sparse" "black hole" 5) /\
  (exists rows,
     fst (rrf_search (toy_searcher false) "zzz" "[1]" 5 60 ["sparse"; "dense"] 1 1 [])
     = Return rows /\
     map fst rows = ["d2"; "d5"; "d1"] /\
     Forall2 Qeq (map snd rows) [1 / 61; 1 / 61; 1 / 63]) /\
  (exists rows,
     fst (rrf_search (toy_searcher true) "zzz" "[1]" 1 60 ["empty_sparse"; "dense"] 1 1 [])
     = Return rows /\
     map fst rows = ["d2"]).
Proof.
  split; [reflexivity|]. split; [reflexivity|]. split; [reflexivity|].
  split; [reflexivity|]. split; [reflexivity|]. split.
  - eexists. split; [reflexivity|]. split; [reflexivity|].
    repeat constructor; reflexivity.
  - eexists. split; reflexivity.
Qed.

(** A run of each dialect on the two tables of the small engine. *)
Example rrf_search_default_run :
  fst (rrf_search (toy_searcher false) "black hole?" "[1]" 3 60 ["sparse"; "dense"] 1 1 [])
  = Return [("d1", 1 * (1 / (60 + inject_Z 3)) + 1 * (1 / (60 + inject_Z 1)));
            ("d2", 1 * (1 / (60 + inject_Z 1)) + 1 * 0);
            ("d5", 1 * (1 / (60 + inject_Z 1)) + 1 * 0)].
Proof. reflexivity. Qed.

Example rrf_search_swapped_names :
  fst (rrf_search (toy_searcher false) "black hole?" "[1]" 3 60 ["dense"; "sparse"] 1 1 [])
  = fst (rrf_search (toy_searcher false) "black hole?" "[1]" 3 60 ["sparse"; "dense"] 1 1 []).
Proof. reflexivity. Qed.

Example rrf_search_unknown_table :
  fst (rrf_search (toy_searcher false) "black hole?" "[1]" 3 60 ["other"; "dense"] 1 1 [])
  = Raise (ValueError (unknown_search_type "other")).
Proof. reflexivity. Qed.

Example rrf_search_zero_divisor :
  fst (rrf_search (toy_searcher false) "black hole?" "[1]" 3 (-1) ["sparse"; "dense"] 1 1 [])
  = Raise (DatabaseError "division by zero").
Proof. reflexivity. Qed.

Example clean_tsquery_ex1 :
  clean_tsquery "  what is  a (black) hole? " = "what | is | a | black | hole".
Proof. reflexivity. Qed.

Example clean_tsquery_ex2 : clean_tsquery "covid-19" = "covid | 19".
Proof. reflexivity. Qed.

Example clean_tsquery_ex3 : clean_tsquery " ?! " = "".
Proof. reflexivity. Qed.

(** Deleting the other characters instead of replacing them by a space
    would merge the terms they separate. *)
Example deletion_merges_terms :
  spec_normalize_by_deletion "covid-19" = "covid19" /\
  clean_tsquery "covid-19" = "covid | 19".
Proof. split; reflexivity. Qed.

(* ================================================================== *)
(** * Further properties *)

(** ** [clean_tsquery]: terms, idempotence, the empty query *)

Section NormalizationMore.
Context {tables : CharTables}.

Lemma string_app_nil (s : string) : (s ++ EmptyString)%string = s.
Proof. induction s as [|c s IH]; cbn; [reflexivity | rewrite IH; reflexivity]. Qed.

(** A word followed by a boundary is the first field. *)
Lemma fields_app_word (sep : ascii -> bool) (t s : string) :
  t <> EmptyString ->
  all_chars (fun c => negb (sep c)) t = true ->
  at_boundary sep s = true ->
  fields sep (t ++ s) = t :: fields sep s.
Proof.
  induction t as [|c t IH]; intros Hne Hall Hs; [contradiction Hne; reflexivity|].
  cbn [all_chars] in Hall. apply andb_true_iff in Hall. destruct Hall as [Hc Ht].
  apply negb_true_iff in Hc.
  destruct t as [|c' t'].
  - cbn [append fields]. rewrite Hc, Hs. reflexivity.
  - assert (Hc' : sep c' = false).
    { cbn [all_chars] in Ht. apply andb_true_iff in Ht. destruct Ht as [H _].
      apply negb_true_iff in H. exact H. }
    change ((String c (String c' t') ++ s)%string)
      with (String c (String c' t' ++ s)%string).
    cbn [fields]. rewrite Hc.
    replace (at_boundary sep (String c' t' ++ s)%string) with false
      by (cbn [append at_boundary]; symmetry; exact Hc').
    rewrite (IH ltac:(discriminate) Ht Hs). reflexivity.
Qed.

(** Splitting the OR of a list of words gives the words back. *)
Lemma fields_join (sep : ascii -> bool) (ts : list string) :
  sep " "%char = true -> sep "|"%char = true ->
  Forall (fun t => t <> EmptyString /\ all_chars (fun c => negb (sep c)) t = true) ts ->
  fields sep (str_join " | " ts) = ts.
Proof.
  intros Hsp Hbar. induction ts as [|t ts IH]; intros Hts; [reflexivity|].
  inversion Hts as [|? ? [Hne Hall] Hrest]; subst.
  destruct ts as [|t' ts'].
  - cbn [str_join]. rewrite <- (string_app_nil t) at 1.
    rewrite (fields_app_word sep t EmptyString Hne Hall eq_refl). reflexivity.
  - change (str_join " | " (t :: t' :: ts'))
      with (t ++ (" | " ++ str_join " | " (t' :: ts')))%string.
    rewrite (fields_app_word sep t _ Hne Hall) by (cbn; exact Hsp).
    f_equal. cbn [append fields]. rewrite Hsp, Hbar. apply IH. exact Hrest.
Qed.

Lemma separator_space : negb (is_term_char " "%char) = true.
Proof. unfold is_term_char. rewrite space_is_space, andb_false_r. reflexivity. Qed.

(** X1.  When [|] is not a word character, the terms of the normalized
    query are the terms of the query, and normalizing twice is
    normalizing once. *)
Theorem clean_tsquery_idempotent (query_string : string) :
  is_word "|"%char = false ->
  query_terms (clean_tsquery query_string) = query_terms query_string /\
  clean_tsquery (clean_tsquery query_string) = clean_tsquery query_string.
Proof.
  intros Hbar.
  assert (Hterms : query_terms (clean_tsquery query_string) = query_terms query_string).
  { rewrite clean_tsquery_terms. unfold query_terms at 1.
    apply fields_join.
    - apply separator_space.
    - unfold is_term_char. rewrite Hbar. reflexivity.
    - unfold query_terms. apply fields_terms. }
  split; [exact Hterms|].
  rewrite (clean_tsquery_terms (clean_tsquery query_string)), Hterms.
  symmetry. apply clean_tsquery_terms.
Qed.

Lemma fields_nil_iff (sep : ascii -> bool) (s : string) :
  fields sep s = [] <-> all_chars sep s = true.
Proof.
  induction s as [|c r IH]; [split; reflexivity|].
  cbn [fields all_chars]. destruct (sep c); cbn [andb]; [exact IH|].
  split; [|discriminate].
  destruct (at_boundary sep r); [discriminate|].
  destruct (fields sep r); discriminate.
Qed.

Lemma str_join_empty_iff (sep : string) (ts : list string) :
  Forall (fun t => t <> EmptyString) ts ->
  (str_join sep ts = EmptyString <-> ts = []).
Proof.
  intros Hts. destruct ts as [|t ts]; [split; reflexivity|].
  inversion Hts as [|? ? Hne _]; subst.
  split; [|discriminate]. intros H. exfalso.
  destruct t as [|c t]; [apply Hne; reflexivity|].
  destruct ts; cbn in H; discriminate.
Qed.

(** X2.  The normalized query is the empty string exactly when the
    query has no word character; [clean_tsquery] raises nothing then. *)
Theorem clean_tsquery_empty_iff (query_string : string) :
  clean_tsquery query_string = EmptyString <->
  all_chars (fun c => negb (is_term_char c)) query_string = true.
Proof.
  rewrite clean_tsquery_terms, <- fields_nil_iff.
  apply str_join_empty_iff.
  eapply Forall_impl; [|apply (fields_terms (fun c => negb (is_term_char c)))].
  cbv beta. intros t [Hne _]. exact Hne.
Qed.

End NormalizationMore.

Lemma clean_tsquery_idempotent_witness :
  clean_tsquery (clean_tsquery "What is a (black) hole?")
  = clean_tsquery "What is a (black) hole?".
Proof.
  exact (proj2 (clean_tsquery_idempotent "What is a (black) hole?" eq_refl)).
Defined.

Lemma clean_tsquery_empty_iff_witness : clean_tsquery " ?! -- " = EmptyString.
Proof. apply (proj2 (clean_tsquery_empty_iff " ?! -- ")). reflexivity. Defined.

(* ================================================================== *)
(** ** The hits of [fts_search] and [embedding_search] *)

Lemma StronglySorted_app_inv {A : Type} (R : A -> A -> Prop) (l1 l2 : list A) :
  StronglySorted R (l1 ++ l2) ->
  StronglySorted R l1 /\ StronglySorted R l2 /\
  (forall a b, In a l1 -> In b l2 -> R a b).
Proof.
  induction l1 as [|x l1 IH]; intros Hs.
  - split; [constructor|]. split; [exact Hs|]. intros a b [].
  - cbn [app] in Hs. inversion Hs as [|? ? Hrest Hx]; subst.
    destruct (IH Hrest) as [H1 [H2 H12]]. rewrite Forall_forall in Hx.
    split; [|split; [exact H2|]].
    + constructor; [exact H1|]. rewrite Forall_forall. intros y Hy.
      apply Hx. apply in_or_app. left. exact Hy.
    + intros a b [<- | Ha] Hb; [|apply H12; assumption].
      apply Hx. apply in_or_app. right. exact Hb.
Qed.

(** ORDER BY then LIMIT keeps the rows that come first in the order:
    the kept rows are in order and none of the others comes strictly
    before one of them. *)
Lemma limit_keeps_best {A : Type} (leb : A -> A -> bool) (n : Z) (l : list A) :
  (forall x y, leb x y = true \/ leb y x = true) ->
  (forall x y z, leb x y = true -> leb y z = true -> leb x z = true) ->
  exists rest,
    Permutation (sql_limit n (order_by leb l) ++ rest) l /\
    StronglySorted (fun a b => leb a b = true) (sql_limit n (order_by leb l)) /\
    (forall a b, In a (sql_limit n (order_by leb l)) -> In b rest -> leb a b = true) /\
    List.length (sql_limit n (order_by leb l)) = Nat.min (Z.to_nat n) (List.length l).
Proof.
  intros Htotal Htrans. unfold sql_limit.
  exists (skipn (Z.to_nat n) (order_by leb l)).
  pose proof (order_by_sorted leb Htotal Htrans l) as Hs.
  rewrite <- (firstn_skipn (Z.to_nat n) (order_by leb l)) in Hs.
  destruct (StronglySorted_app_inv _ _ _ Hs) as [H1 [_ H12]].
  split; [|split; [exact H1 | split; [exact H12|]]].
  - rewrite firstn_skipn. apply Permutation_sym. apply order_by_perm.
  - rewrite length_firstn, order_by_length. reflexivity.
Qed.

Section Hits.
Context {tables : CharTables} {engine : Engine} {constants : Constants}.

Lemma require_limit_ok (n : Z) : (0 <= n)%Z -> require_limit n = Return tt.
Proof.
  intros Hn. unfold require_limit. destruct (n <? 0)%Z eqn:E; [|reflexivity].
  apply Z.ltb_lt in E. lia.
Qed.

(** X3.  Default dialect.  On a table with the columns [id] and
    [contents], for [top_n >= 0], [fts_search] returns hits that are
    rows matching the normalized query with their text rank as score,
    highest score first, [min(top_n, number of matching rows)] of them,
    and no matching row left out has a higher score than a hit. *)
Theorem fts_search_hits (self : PostgresSearcher) (q : string) (n : Z) (tn : string)
    (log : list statement) :
  use_pg_textsearch self = false ->
  require_columns (conn self) tn ["id"; "contents"] = Return tt ->
  (0 <= n)%Z ->
  let ts_query := clean_tsquery q in
  let matching := filter (fun r => ts_match (snd r) ts_query) (sparse_rows (conn self) tn) in
  exists hits rest,
    fst (fts_search self q n tn log) = Return hits /\
    Permutation (hits ++ rest) (map (fun r => (fst r, ts_rank (snd r) ts_query)) matching) /\
    StronglySorted (fun a b => snd b <= snd a) hits /\
    (forall a b, In a hits -> In b rest -> snd b <= snd a) /\
    List.length hits = Nat.min (Z.to_nat n) (List.length matching) /\
    (forall id s, In (id, s) hits ->
       exists contents, In (id, contents) (sparse_rows (conn self) tn) /\
                        ts_match contents ts_query = true /\
                        s = ts_rank contents ts_query).
Proof.
  intros Hpg Hcols Hn ts_query matching.
  set (scored := map (fun r : string * string => (fst r, ts_rank (snd r) ts_query)) matching).
  destruct (limit_keeps_best (desc (@snd string Q)) n scored
              (desc_total snd) (desc_trans snd)) as [rest [Hperm [Hsorted [Hbest Hlen]]]].
  exists (sql_limit n (order_by (desc snd) scored)), rest.
  split.
  { unfold fts_search. rewrite Hpg. unfold execute. cbn [fst].
    unfold fts_tsquery_answer. rewrite Hcols, (require_limit_ok n Hn). reflexivity. }
  split; [exact Hperm|].
  split.
  { eapply StronglySorted_impl; [|exact Hsorted]. cbv beta. unfold desc.
    intros a b H. apply Qle_bool_iff. exact H. }
  split.
  { intros a b Ha Hb. apply Qle_bool_iff. exact (Hbest a b Ha Hb). }
  split.
  { rewrite Hlen. unfold scored. rewrite length_map. reflexivity. }
  intros id s Hin.
  assert (Hsc : In (id, s) scored).
  { apply (Permutation_in _ Hperm). apply in_or_app. left. exact Hin. }
  unfold scored in Hsc. apply in_map_iff in Hsc. destruct Hsc as [[i c] [Heq Hm]].
  cbn [fst snd] in Heq. inversion Heq; subst.
  unfold matching in Hm. apply filter_In in Hm. destruct Hm as [Hrow Hmatch].
  exists c. repeat split; assumption.
Qed.

(** X4.  pg_textsearch dialect.  On a table with the columns [id] and
    [contents], for [top_n >= 0], [fts_search] returns rows of the
    table scored by the BM25 distance to the query string as given (no
    normalization, no filter), lowest distance first,
    [min(top_n, number of rows)] of them, and no row left out has a
    lower distance than a hit. *)
Theorem fts_search_bm25_hits (self : PostgresSearcher) (q : string) (n : Z) (tn : string)
    (log : list statement) :
  use_pg_textsearch self = true ->
  require_columns (conn self) tn ["id"; "contents"] = Return tt ->
  (0 <= n)%Z ->
  let idx := BM25_INDEX_TEMPLATE_format tn in
  let rows := sparse_rows (conn self) tn in
  exists hits rest,
    fst (fts_search self q n tn log) = Return hits /\
    Permutation (hits ++ rest) (map (fun r => (fst r, bm25_distance (snd r) q idx)) rows) /\
    StronglySorted (fun a b => snd a <= snd b) hits /\
    (forall a b, In a hits -> In b rest -> snd a <= snd b) /\
    List.length hits = Nat.min (Z.to_nat n) (List.length rows).
Proof.
  intros Hpg Hcols Hn idx rows.
  set (scored := map (fun r : string * string => (fst r, bm25_distance (snd r) q idx)) rows).
  destruct (limit_keeps_best (asc (@snd string Q)) n scored
              (asc_total snd) (asc_trans snd)) as [rest [Hperm [Hsorted [Hbest Hlen]]]].
  exists (sql_limit n (order_by (asc snd) scored)), rest.
  split.
  { unfold fts_search. rewrite Hpg. unfold execute. cbn [fst].
    unfold fts_bm25_answer. rewrite Hcols, (require_limit_ok n Hn). reflexivity. }
  split; [exact Hperm|].
  split.
  { eapply StronglySorted_impl; [|exact Hsorted]. cbv beta. unfold asc.
    intros a b H. apply Qle_bool_iff. exact H. }
  split.
  { intros a b Ha Hb. apply Qle_bool_iff. exact (Hbest a b Ha Hb). }
  rewrite Hlen. unfold scored. rewrite length_map. reflexivity.
Qed.

(** X5.  On a table with the columns [id] and [embedding], for a query
    text that is a vector and [top_n >= 0], [embedding_search] returns
    rows of the table scored [1 - distance], highest score first,
    [min(top_n, number of rows)] of them, and no row left out has a
    higher score than a hit. *)
Theorem embedding_search_hits (self : PostgresSearcher) (qe : string) (n : Z) (tn : string)
    (log : list statement) (v : vector) :
  require_columns (conn self) tn ["id"; "embedding"] = Return tt ->
  cast_vector qe = Some v ->
  (0 <= n)%Z ->
  let rows := dense_rows (conn self) tn in
  exists hits rest,
    fst (embedding_search self qe n tn log) = Return hits /\
    Permutation (hits ++ rest) (map (fun r => (fst r, 1 - distance (snd r) v)) rows) /\
    StronglySorted (fun a b => snd b <= snd a) hits /\
    (forall a b, In a hits -> In b rest -> snd b <= snd a) /\
    List.length hits = Nat.min (Z.to_nat n) (List.length rows) /\
    (forall id s, In (id, s) hits ->
       exists e, In (id, e) rows /\ s = 1 - distance e v).
Proof.
  intros Hcols Hv Hn rows.
  set (scored := map (fun r : string * vector => (fst r, 1 - distance (snd r) v)) rows).
  destruct (limit_keeps_best (desc (@snd string Q)) n scored
              (desc_total snd) (desc_trans snd)) as [rest [Hperm [Hsorted [Hbest Hlen]]]].
  exists (sql_limit n (order_by (desc snd) scored)), rest.
  split.
  { unfold embedding_search, execute. cbn [fst].
    unfold embedding_answer, require_vector.
    rewrite Hcols, Hv, (require_limit_ok n Hn). reflexivity. }
  split; [exact Hperm|].
  split.
  { eapply StronglySorted_impl; [|exact Hsorted]. cbv beta. unfold desc.
    intros a b H. apply Qle_bool_iff. exact H. }
  split.
  { intros a b Ha Hb. apply Qle_bool_iff. exact (Hbest a b Ha Hb). }
  split.
  { rewrite Hlen. unfold scored. rewrite length_map. reflexivity. }
  intros id s Hin.
  assert (Hsc : In (id, s) scored).
  { apply (Permutation_in _ Hperm). apply in_or_app. left. exact Hin. }
  unfold scored in Hsc. apply in_map_iff in Hsc. destruct Hsc as [[i e] [Heq Hrow]].
  cbn [fst snd] in Heq. inversion Heq; subst.
  exists e. split; [exact Hrow | reflexivity].
Qed.

End Hits.

Lemma fts_search_hits_witness :
  exists hits,
    fst (fts_search (toy_searcher false) "black hole?" 1 "sparse" []) = Return hits /\
    List.length hits = 1%nat.
Proof.
  destruct (fts_search_hits (toy_searcher false) "black hole?" 1 "sparse" [])
    as [hits [rest [Hrun [_ [_ [_ [Hlen _]]]]]]]; try reflexivity; [lia|].
  exists hits. split; [exact Hrun | exact Hlen].
Defined.

Lemma fts_search_bm25_hits_witness :
  exists hits,
    fst (fts_search (toy_searcher true) "black hole" 2 "sparse" []) = Return hits /\
    List.length hits = 2%nat.
Proof.
  destruct (fts_search_bm25_hits (toy_searcher true) "black hole" 2 "sparse" [])
    as [hits [rest [Hrun [_ [_ [_ Hlen]]]]]]; try reflexivity; [lia|].
  exists hits. split; [exact Hrun | exact Hlen].
Defined.

Lemma embedding_search_hits_witness :
  exists hits,
    fst (embedding_search (toy_searcher false) "[1]" 2 "dense" []) = Return hits /\
    List.length hits = 2%nat.
Proof.
  destruct (embedding_search_hits (toy_searcher false) "[1]" 2 "dense" [] (1 : Q))
    as [hits [rest [Hrun [_ [_ [_ [Hlen _]]]]]]]; try reflexivity; [lia|].
  exists hits. split; [exact Hrun | exact Hlen].
Defined.

(* ================================================================== *)
(** ** [rrf_search]: table names *)

Section TableNames.
Context {tables : CharTables} {engine : Engine} {constants : Constants}.

(** X6.  With no table name [rrf_search] raises [IndexError] before
    any statement; with one name it sends that name's catalog lookup
    and raises: the resolver's error if the name does not resolve,
    [IndexError] otherwise.  The fusion statement is not sent. *)
Theorem rrf_search_too_few_names (self : PostgresSearcher) (q qe : string) (n : Z)
    (k : Q) (wk ws : Q) (log : list statement) :
  rrf_search self q qe n k [] wk ws log
  = (Raise (IndexError "list index out of range"), log) /\
  (forall t0,
      rrf_search self q qe n k [t0] wk ws log
      = (match search_type_of self t0 with
         | Return _ => Raise (IndexError "list index out of range")
         | Raise e => Raise e
         end,
         (log ++ [columns_statement t0])%list)).
Proof.
  split; [reflexivity|]. intros t0.
  cbv [rrf_search bind py_getitem nth_error ret raise].
  rewrite get_search_type_run.
  destruct (search_type_of self t0) as [ty0|e]; [|reflexivity].
  destruct (SearchType.eqb ty0 SearchType.SPARSE); reflexivity.
Qed.

Lemma search_type_of_unknown (self : PostgresSearcher) (t : string) :
  ~ (In (t, "contents") (information_schema_columns (conn self)) \/
     In (t, "embedding") (information_schema_columns (conn self))) ->
  search_type_of self t = Raise (ValueError (unknown_search_type t)).
Proof.
  intros Hn. rewrite search_type_of_cases.
  destruct (has_column (conn self) t "contents") eqn:Hc.
  { exfalso. apply Hn. left. apply has_column_In. exact Hc. }
  destruct (has_column (conn self) t "embedding") eqn:He.
  { exfalso. apply Hn. right. apply has_column_In. exact He. }
  reflexivity.
Qed.

Lemma search_type_of_known (self : PostgresSearcher) (t : string) :
  In (t, "contents") (information_schema_columns (conn self)) \/
  In (t, "embedding") (information_schema_columns (conn self)) ->
  exists ty, search_type_of self t = Return ty.
Proof.
  intros Hk. rewrite search_type_of_cases.
  destruct (has_column (conn self) t "contents") eqn:Hc; [eexists; reflexivity|].
  destruct (has_column (conn self) t "embedding") eqn:He; [eexists; reflexivity|].
  exfalso. apply has_column_not_In in Hc, He. tauto.
Qed.

(** X7.  A table name for which the catalog lists neither a
    [contents] nor an [embedding] column makes [rrf_search] raise a
    [ValueError] naming that table: after one lookup when it is the
    first name, after two when the first name resolves and it is the
    second.  The fusion statement is not sent. *)
Theorem rrf_search_unresolved_name (self : PostgresSearcher) (q qe : string) (n : Z)
    (k : Q) (t0 t1 : string) (more : list string) (wk ws : Q) (log : list statement) :
  let cols := information_schema_columns (conn self) in
  (~ (In (t0, "contents") cols \/ In (t0, "embedding") cols) ->
   exists msg,
     rrf_search self q qe n k (t0 :: more) wk ws log
     = (Raise (ValueError msg), (log ++ [columns_statement t0])%list) /\
     occurs_in t0 msg) /\
  (In (t0, "contents") cols \/ In (t0, "embedding") cols ->
   ~ (In (t1, "contents") cols \/ In (t1, "embedding") cols) ->
   exists msg,
     rrf_search self q qe n k (t0 :: t1 :: more) wk ws log
     = (Raise (ValueError msg),
        (log ++ [columns_statement t0; columns_statement t1])%list) /\
     occurs_in t1 msg).
Proof.
  intros cols. split.
  - intros Hn. exists (unknown_search_type t0). split.
    + apply rrf_search_unresolved_first. apply search_type_of_unknown. exact Hn.
    + apply occurs_in_middle.
  - intros Hk Hn. exists (unknown_search_type t1). split; [|apply occurs_in_middle].
    destruct (search_type_of_known self t0 Hk) as [ty0 H0].
    pose proof (search_type_of_unknown self t1 Hn) as H1.
    cbv [rrf_search bind py_getitem nth_error ret raise].
    rewrite get_search_type_run, H0.
    destruct (SearchType.eqb ty0 SearchType.SPARSE);
      rewrite get_search_type_run, H1; rewrite <- app_assoc; reflexivity.
Qed.

(** X8.  The order of the two names does not matter: when one resolves
    to SPARSE and the other to DENSE, [rrf_search] sends the same
    fusion statement and returns the same outcome for both orders. *)
Theorem rrf_search_order_agnostic (self : PostgresSearcher) (q qe : string) (n : Z)
    (k : Q) (a b : string) (wk ws : Q) (log : list statement) :
  search_type_of self a = Return SearchType.SPARSE ->
  search_type_of self b = Return SearchType.DENSE ->
  fst (rrf_search self q qe n k [a; b] wk ws log)
  = fst (rrf_search self q qe n k [b; a] wk ws log) /\
  exists st,
    sql st = (if use_pg_textsearch self then rrf_bm25_sql b a else rrf_tsquery_sql b a) /\
    snd (rrf_search self q qe n k [a; b] wk ws log)
    = (log ++ [columns_statement a; columns_statement b; st])%list /\
    snd (rrf_search self q qe n k [b; a] wk ws log)
    = (log ++ [columns_statement b; columns_statement a; st])%list.
Proof.
  intros Ha Hb.
  rewrite (rrf_search_run self q qe n k a b [] wk ws log _ _ Ha Hb).
  rewrite (rrf_search_run self q qe n k b a [] wk ws log _ _ Hb Ha).
  cbn [fst snd sparse_table_of dense_table_of SearchType.eqb].
  split; [reflexivity|].
  exists (rrf_statement self b a q qe n k wk ws).
  split; [|split; reflexivity].
  unfold rrf_statement. destruct (use_pg_textsearch self); reflexivity.
Qed.

(** X13.  On one database the searcher's and the indexer's resolver
    send the same statement and classify alike: both SPARSE, both
    DENSE, or both raising. *)
Theorem resolvers_agree (self : PostgresSearcher) (ix : PostgresIndexer) (t : string)
    (log : list statement) :
  conn self = indexer_conn ix ->
  snd (get_search_type self t log) = snd (get_index_type ix t log) /\
  (fst (get_search_type self t log) = Return SearchType.SPARSE <->
   fst (get_index_type ix t log) = Return IndexType.SPARSE) /\
  (fst (get_search_type self t log) = Return SearchType.DENSE <->
   fst (get_index_type ix t log) = Return IndexType.DENSE) /\
  ((exists e, fst (get_search_type self t log) = Raise e) <->
   (exists e, fst (get_index_type ix t log) = Raise e)).
Proof.
  intros Hdb. rewrite get_search_type_run, get_index_type_cases. cbn [fst snd].
  rewrite search_type_of_cases, Hdb.
  split; [reflexivity|].
  destruct (has_column (indexer_conn ix) t "contents");
    [|destruct (has_column (indexer_conn ix) t "embedding")];
    repeat split; intros H; try reflexivity; try discriminate;
    try (destruct H as [e H]; discriminate); eexists; reflexivity.
Qed.

End TableNames.

Lemma rrf_search_unresolved_name_witness :
  exists msg,
    rrf_search (toy_searcher false) "black hole" "[1]" 5 60 ["sparse"; "other"] 1 1 []
    = (Raise (ValueError msg), [columns_statement "sparse"; columns_statement "other"]) /\
    occurs_in "other" msg.
Proof.
  apply (proj2 (rrf_search_unresolved_name (toy_searcher false) "black hole" "[1]" 5 60
                  "sparse" "other" [] 1 1 [])).
  - simpl. tauto.
  - simpl. intuition congruence.
Defined.

Lemma rrf_search_order_agnostic_witness :
  fst (rrf_search (toy_searcher true) "black hole" "[1]" 5 60 ["sparse"; "dense"] 1 1 [])
  = fst (rrf_search (toy_searcher true) "black hole" "[1]" 5 60 ["dense"; "sparse"] 1 1 []).
Proof.
  exact (proj1 (rrf_search_order_agnostic (toy_searcher true) "black hole" "[1]" 5 60
                  "sparse" "dense" 1 1 [] eq_refl eq_refl)).
Defined.

Lemma resolvers_agree_witness :
  fst (get_search_type (toy_searcher false) "dense" []) = Return SearchType.DENSE <->
  fst (get_index_type toy_indexer "dense" []) = Return IndexType.DENSE.
Proof.
  destruct (resolvers_agree (toy_searcher false) toy_indexer "dense" [] eq_refl)
    as [_ [_ [H _]]].
  exact H.
Defined.

(* ================================================================== *)
(** ** [rrf_search]: the shape of the result, bounds, edge values *)

Lemma omap_raise {A B : Type} (f : A -> outcome B) (e : exn) (l : list A) :
  (forall x, In x l -> (exists b, f x = Return b) \/ f x = Raise e) ->
  (exists x, In x l /\ f x = Raise e) ->
  omap f l = Raise e.
Proof.
  induction l as [|y r IH]; intros Hall [x [Hin Hx]]; [destruct Hin|].
  cbn [omap].
  destruct (Hall y (or_introl eq_refl)) as [[b Hb] | Hy]; [|rewrite Hy; reflexivity].
  rewrite Hb. cbn [obind].
  destruct Hin as [-> | Hin]; [congruence|].
  rewrite IH; [reflexivity | | exists x; split; assumption].
  intros z Hz. apply Hall. right. exact Hz.
Qed.

Lemma reciprocal_rank_cases (k : Q) (rank : option Z) :
  (exists a, reciprocal_rank k rank = Return a) \/
  reciprocal_rank k rank = Raise (DatabaseError "division by zero").
Proof.
  destruct rank as [r|]; cbn [reciprocal_rank]; [|left; eexists; reflexivity].
  destruct (Qeq_bool (k + inject_Z r) 0); [right | left; eexists]; reflexivity.
Qed.

Lemma select_fused_cases (w_sem w_key k : Q) (j : joined) :
  (exists row, select_fused w_sem w_key k j = Return row) \/
  select_fused w_sem w_key k j = Raise (DatabaseError "division by zero").
Proof.
  unfold select_fused, fused_score.
  destruct (reciprocal_rank_cases k (vector_rank j)) as [[a Ha] | Ha]; rewrite Ha;
    [|right; reflexivity].
  destruct (reciprocal_rank_cases k (keyword_rank j)) as [[b Hb] | Hb]; rewrite Hb;
    [left; eexists; reflexivity | right; reflexivity].
Qed.

Lemma select_fused_zero_divisor (w_sem w_key k : Q) (j : joined) (r : Z) :
  vector_rank j = Some r \/ keyword_rank j = Some r ->
  k + inject_Z r == 0 ->
  select_fused w_sem w_key k j = Raise (DatabaseError "division by zero").
Proof.
  intros Hr Hz. apply Qeq_bool_iff in Hz.
  unfold select_fused, fused_score. destruct Hr as [Hr | Hr].
  - rewrite Hr. cbn [reciprocal_rank]. rewrite Hz. reflexivity.
  - destruct (reciprocal_rank_cases k (vector_rank j)) as [[a Ha] | Ha]; rewrite Ha;
      [|reflexivity].
    rewrite Hr. cbn [reciprocal_rank obind]. rewrite Hz. reflexivity.
Qed.

(** Every row of either rank list is in a row of the join. *)
Lemma rank_row_joined (v kw : list rank_row) (id : string) (r : Z) :
  In (id, r) v \/ In (id, r) kw ->
  exists j, In j (full_outer_join v kw) /\
            (vector_rank j = Some r \/ keyword_rank j = Some r).
Proof.
  intros [Hin | Hin].
  - destruct (in_dec string_dec id (map fst kw)) as [Hk | Hk].
    + apply in_map_iff in Hk. destruct Hk as [y [Hy Hk]].
      exists (Matched (id, r) y). split; [|left; reflexivity].
      apply in_full_outer_join. left. exists (id, r), y.
      repeat split; [exact Hin | exact Hk | symmetry; exact Hy].
    + exists (VectorOnly (id, r)). split; [|left; reflexivity].
      apply in_full_outer_join. right. left. exists (id, r). repeat split; assumption.
  - destruct (in_dec string_dec id (map fst v)) as [Hv | Hv].
    + apply in_map_iff in Hv. destruct Hv as [x [Hx Hv]].
      exists (Matched x (id, r)). split; [|right; reflexivity].
      apply in_full_outer_join. left. exists x, (id, r).
      repeat split; [exact Hv | exact Hin | exact Hx].
    + exists (KeywordOnly (id, r)). split; [|right; reflexivity].
      apply in_full_outer_join. right. right. exists (id, r). repeat split; assumption.
Qed.

Lemma fuse_zero_divisor (w_sem w_key k : Q) (n : Z) (v kw : list rank_row)
    (id : string) (r : Z) :
  In (id, r) v \/ In (id, r) kw ->
  k + inject_Z r == 0 ->
  fuse w_sem w_key k n v kw = Raise (DatabaseError "division by zero").
Proof.
  intros Hin Hz. unfold fuse, candidate_pool.
  rewrite (omap_raise (select_fused w_sem w_key k) (DatabaseError "division by zero")).
  - reflexivity.
  - intros j _. apply select_fused_cases.
  - destruct (rank_row_joined v kw id r Hin) as [j [Hj Hr]].
    exists j. split; [exact Hj|]. apply (select_fused_zero_divisor _ _ _ _ r); assumption.
Qed.

Lemma spec_term_bounds (k : Q) (rank : option Z) :
  0 < k -> one_based rank ->
  0 <= spec_term k rank /\ spec_term k rank <= 1 / (k + 1).
Proof.
  intros Hk Hr.
  assert (Hk1 : 0 < k + 1) by (apply (positive_divisor k 1 Hk); lia).
  assert (H0 : 0 <= 1 / (k + 1)).
  { unfold Qdiv. rewrite Qmult_1_l. apply Qlt_le_weak, Qinv_lt_0_compat. exact Hk1. }
  destruct rank as [r|]; cbn [spec_term]; [|split; [apply Qle_refl | exact H0]].
  pose proof (Hr r eq_refl) as Hr1. split.
  - unfold Qdiv. rewrite Qmult_1_l. apply Qlt_le_weak, Qinv_lt_0_compat.
    apply positive_divisor; assumption.
  - exact (reciprocal_antitone k 1 r Hk (Z.le_refl 1) Hr1).
Qed.

Lemma fused_row_bounds (w_sem w_key k : Q) (j : joined) :
  0 < k -> 0 <= w_sem -> 0 <= w_key ->
  one_based (vector_rank j) -> one_based (keyword_rank j) ->
  0 <= snd (fused_row w_sem w_key k j) /\
  snd (fused_row w_sem w_key k j) <= (w_sem + w_key) * (1 / (k + 1)).
Proof.
  intros Hk Hws Hwk Hv Hkw. unfold fused_row. cbn [snd].
  destruct (spec_term_bounds k (vector_rank j) Hk Hv) as [Hv0 Hv1].
  destruct (spec_term_bounds k (keyword_rank j) Hk Hkw) as [Hk0 Hk1].
  split.
  - setoid_replace 0 with (0 + 0) by ring.
    apply Qplus_le_compat; apply Qmult_le_0_compat; assumption.
  - setoid_replace ((w_sem + w_key) * (1 / (k + 1)))
      with (w_sem * (1 / (k + 1)) + w_key * (1 / (k + 1))) by ring.
    apply Qplus_le_compat; apply weighted_le; assumption.
Qed.

Lemma reciprocal_strict (k : Q) (r r' : Z) :
  0 < k -> (1 <= r)%Z -> (r < r')%Z ->
  1 / (k + inject_Z r') < 1 / (k + inject_Z r).
Proof.
  intros Hk Hr Hrr.
  assert (Hp : 0 < k + inject_Z r) by (apply positive_divisor; assumption).
  assert (Hp' : 0 < k + inject_Z r') by (apply positive_divisor; [assumption | lia]).
  assert (Hlt : k + inject_Z r < k + inject_Z r').
  { apply Qplus_lt_r. rewrite <- Zlt_Qlt. exact Hrr. }
  unfold Qdiv. rewrite !Qmult_1_l.
  apply Qlt_shift_inv_l; [exact Hp|].
  setoid_replace (/ (k + inject_Z r') * (k + inject_Z r))
    with ((k + inject_Z r) / (k + inject_Z r')) by (unfold Qdiv; ring).
  apply Qlt_shift_div_r; [exact Hp'|]. rewrite Qmult_1_l. exact Hlt.
Qed.

Section Shape.
Context {tables : CharTables} {engine : Engine} {constants : Constants}.

(** The ranks of both rank lists of a call are 1-based. *)
Lemma rank_lists_one_based (self : PostgresSearcher) (dense_table sparse_table q : string)
    (v : vector) (n : Z) :
  Forall (fun x => (1 <= snd x)%Z) (dense_rank_list self dense_table v n) /\
  Forall (fun x => (1 <= snd x)%Z) (sparse_rank_list self sparse_table q n).
Proof.
  unfold dense_rank_list, sparse_rank_list.
  destruct (use_pg_textsearch self).
  - unfold vector_search, keyword_search_bm25.
    destruct (row_number_cte (fun r : string * vector => distance (snd r) v)
                (dense_rows (conn self) dense_table) n) as [_ Hds].
    destruct (row_number_cte
                (fun r : string * string =>
                   bm25_distance (snd r) q (BM25_INDEX_TEMPLATE_format sparse_table))
                (sparse_rows (conn self) sparse_table) n) as [_ Hss].
    cbv zeta in Hds, Hss.
    split; apply ranks_one_based; [rewrite Hds | rewrite Hss]; apply positions_one_based.
  - unfold semantic_search, keyword_search.
    set (tsq := clean_tsquery q).
    destruct (rank_cte (asc (fun r : string * vector => distance (snd r) v))
                (dense_rows (conn self) dense_table) n) as [_ Hds].
    destruct (rank_cte (desc (fun r : string * string => ts_rank (snd r) tsq))
                (filter (fun r => ts_match (snd r) tsq)
                        (sparse_rows (conn self) sparse_table)) n) as [_ Hss].
    cbv zeta in Hds, Hss.
    split; apply ranks_one_based; [rewrite Hds | rewrite Hss]; apply sql_ranks_one_based.
Qed.

(** X9.  In a call that evaluates its fusion statement, with [k > 0]
    and unique ids per table, [rrf_search] returns at most [top_n]
    rows, no id twice, and when it returns fewer than [top_n] rows
    every id of either rank list is among them. *)
Theorem rrf_search_result_shape (self : PostgresSearcher) (q qe : string) (n : Z) (k : Q)
    (t0 t1 : string) (more : list string) (wk ws : Q) (log : list statement)
    (ty0 ty1 : SearchType.t) (v : vector) :
  0 < k ->
  (0 <= n)%Z ->
  search_type_of self t0 = Return ty0 ->
  search_type_of self t1 = Return ty1 ->
  let sparse_table := sparse_table_of ty0 t0 t1 in
  let dense_table := dense_table_of ty1 t0 t1 in
  require_columns (conn self) dense_table ["id"; "embedding"] = Return tt ->
  require_columns (conn self) sparse_table ["id"; "contents"] = Return tt ->
  cast_vector qe = Some v ->
  NoDup (map fst (dense_rows (conn self) dense_table)) ->
  NoDup (map fst (sparse_rows (conn self) sparse_table)) ->
  exists rows,
    fst (rrf_search self q qe n k (t0 :: t1 :: more) wk ws log) = Return rows /\
    (List.length rows <= Z.to_nat n)%nat /\
    NoDup (map fst rows) /\
    ((List.length rows < Z.to_nat n)%nat ->
     forall id,
       In id (map fst (sparse_rank_list self sparse_table q n)) \/
       In id (map fst (dense_rank_list self dense_table v n)) ->
       In id (map fst rows)).
Proof.
  intros Hk Hn H0 H1 sparse_table dense_table Hcd Hcs Hv Hnd Hns.
  destruct (rank_lists_well_formed self dense_table sparse_table q v n Hnd Hns)
    as [Hd1 [Hs1 [Hdu Hsu]]].
  destruct (fuse_fused_scores wk ws k n _ _ Hk Hs1 Hd1 Hsu Hdu)
    as [pool [sorted [_ [Hall [_ [Hone [_ [Hperm [_ Hfuse]]]]]]]]].
  exists (firstn (Z.to_nat n) sorted).
  split.
  { rewrite (rrf_search_fuses _ _ _ _ _ _ _ _ _ _ _ _ _ _ H0 H1 Hcd Hcs Hv Hn).
    exact Hfuse. }
  split; [apply firstn_le_length|].
  split.
  { rewrite <- firstn_map. apply NoDup_firstn.
    exact (Permutation_NoDup (Permutation_map fst Hperm) Hone). }
  intros Hlt id Hid.
  rewrite length_firstn in Hlt.
  rewrite firstn_all2 by lia.
  destruct (Hall id Hid) as [s [Hin _]].
  apply in_map_iff. exists (id, s). split; [reflexivity|].
  exact (Permutation_in _ Hperm Hin).
Qed.

(** X10.  In a call that evaluates its fusion statement, with [k > 0]
    and non-negative weights, every returned score lies between 0 and
    [(weight_semantic + weight_keyword) / (k + 1)]. *)
Theorem rrf_search_score_bounds (self : PostgresSearcher) (q qe : string) (n : Z) (k : Q)
    (t0 t1 : string) (more : list string) (wk ws : Q) (log : list statement)
    (ty0 ty1 : SearchType.t) (v : vector) :
  0 < k -> 0 <= wk -> 0 <= ws ->
  (0 <= n)%Z ->
  search_type_of self t0 = Return ty0 ->
  search_type_of self t1 = Return ty1 ->
  require_columns (conn self) (dense_table_of ty1 t0 t1) ["id"; "embedding"] = Return tt ->
  require_columns (conn self) (sparse_table_of ty0 t0 t1) ["id"; "contents"] = Return tt ->
  cast_vector qe = Some v ->
  exists rows,
    fst (rrf_search self q qe n k (t0 :: t1 :: more) wk ws log) = Return rows /\
    forall id s, In (id, s) rows -> 0 <= s /\ s <= (ws + wk) * (1 / (k + 1)).
Proof.
  intros Hk Hwk Hws Hn H0 H1 Hcd Hcs Hv.
  destruct (rank_lists_one_based self (dense_table_of ty1 t0 t1)
              (sparse_table_of ty0 t0 t1) q v n) as [Hd1 Hs1].
  eexists. split.
  { rewrite (rrf_search_fuses _ _ _ _ _ _ _ _ _ _ _ _ _ _ H0 H1 Hcd Hcs Hv Hn).
    apply fuse_ok; assumption. }
  intros id s Hin. apply in_firstn in Hin.
  apply (Permutation_in _ (Permutation_sym (order_by_perm _ _))) in Hin.
  apply in_map_iff in Hin. destruct Hin as [j [Hrow Hj]].
  destruct (joined_ranks_one_based _ _ j Hd1 Hs1 Hj) as [Hv1 Hk1].
  pose proof (fused_row_bounds ws wk k j Hk Hws Hwk Hv1 Hk1) as Hb.
  rewrite Hrow in Hb. exact Hb.
Qed.

(** X11.  In a call that evaluates its fusion statement, when [-k] is
    a rank that occurs in either rank list, [rrf_search] fails with the
    engine's division by zero. *)
Theorem rrf_search_zero_divisor_fails (self : PostgresSearcher) (q qe : string) (n : Z)
    (k : Q) (t0 t1 : string) (more : list string) (wk ws : Q) (log : list statement)
    (ty0 ty1 : SearchType.t) (v : vector) (id : string) (r : Z) :
  (0 <= n)%Z ->
  search_type_of self t0 = Return ty0 ->
  search_type_of self t1 = Return ty1 ->
  require_columns (conn self) (dense_table_of ty1 t0 t1) ["id"; "embedding"] = Return tt ->
  require_columns (conn self) (sparse_table_of ty0 t0 t1) ["id"; "contents"] = Return tt ->
  cast_vector qe = Some v ->
  In (id, r) (dense_rank_list self (dense_table_of ty1 t0 t1) v n) \/
  In (id, r) (sparse_rank_list self (sparse_table_of ty0 t0 t1) q n) ->
  k + inject_Z r == 0 ->
  fst (rrf_search self q qe n k (t0 :: t1 :: more) wk ws log)
  = Raise (DatabaseError "division by zero").
Proof.
  intros Hn H0 H1 Hcd Hcs Hv Hin Hz.
  rewrite (rrf_search_fuses _ _ _ _ _ _ _ _ _ _ _ _ _ _ H0 H1 Hcd Hcs Hv Hn).
  exact (fuse_zero_divisor ws wk k n _ _ id r Hin Hz).
Qed.

(** X12.  With [top_n = 0] a call that evaluates its fusion statement
    returns the empty list, whatever [k] is. *)
Theorem rrf_search_top_zero (self : PostgresSearcher) (q qe : string) (k : Q)
    (t0 t1 : string) (more : list string) (wk ws : Q) (log : list statement)
    (ty0 ty1 : SearchType.t) (v : vector) :
  search_type_of self t0 = Return ty0 ->
  search_type_of self t1 = Return ty1 ->
  require_columns (conn self) (dense_table_of ty1 t0 t1) ["id"; "embedding"] = Return tt ->
  require_columns (conn self) (sparse_table_of ty0 t0 t1) ["id"; "contents"] = Return tt ->
  cast_vector qe = Some v ->
  fst (rrf_search self q qe 0 k (t0 :: t1 :: more) wk ws log) = Return [].
Proof.
  intros H0 H1 Hcd Hcs Hv.
  rewrite (rrf_search_fuses _ _ _ _ _ _ _ _ _ _ _ _ _ _ H0 H1 Hcd Hcs Hv (Z.le_refl 0)).
  unfold dense_rank_list, sparse_rank_list, vector_search, keyword_search_bm25,
    semantic_search, keyword_search, sql_limit.
  destruct (use_pg_textsearch self); cbn [Z.to_nat firstn map]; apply fuse_nil.
Qed.

End Shape.

(** X14.  With [weight_semantic = 0], [k > 0], unique ids and 1-based
    ranks: an id of the sparse list scores
    [weight_keyword / (k + rank)] whether or not the dense list has
    it, an id of the dense list only is still in the pool, with score
    0, and for [weight_keyword > 0] an earlier sparse rank gives a
    strictly higher score. *)
Theorem single_source_scores (weight_keyword k : Q)
    (sparse_ranks dense_ranks : list rank_row) :
  0 < k ->
  Forall (fun x => (1 <= snd x)%Z) sparse_ranks ->
  Forall (fun x => (1 <= snd x)%Z) dense_ranks ->
  NoDup (map fst sparse_ranks) ->
  NoDup (map fst dense_ranks) ->
  exists pool,
    candidate_pool 0 weight_keyword k dense_ranks sparse_ranks = Return pool /\
    (forall id r s, In (id, r) sparse_ranks -> In (id, s) pool ->
       s == weight_keyword * (1 / (k + inject_Z r))) /\
    (forall id, In id (map fst dense_ranks) -> ~ In id (map fst sparse_ranks) ->
       exists s, In (id, s) pool /\ s == 0) /\
    (0 < weight_keyword ->
     forall id1 r1 s1 id2 r2 s2,
       In (id1, r1) sparse_ranks -> In (id2, r2) sparse_ranks ->
       In (id1, s1) pool -> In (id2, s2) pool ->
       (r1 < r2)%Z -> s2 < s1).
Proof.
  intros Hk Hs Hd Hns Hnd.
  destruct (fuse_fused_scores weight_keyword 0 k 0 sparse_ranks dense_ranks
              Hk Hs Hd Hns Hnd)
    as [pool [sorted [Hpool [Hall [Hrow _]]]]].
  assert (Hsparse : forall id r s, In (id, r) sparse_ranks -> In (id, s) pool ->
                      s == weight_keyword * (1 / (k + inject_Z r))).
  { intros id r s Hin Hp. rewrite (Hrow id s Hp). unfold spec_fused_score.
    rewrite (rank_in_found _ _ _ Hns Hin). cbn [spec_term]. ring. }
  exists pool. split; [exact Hpool|]. split; [exact Hsparse|]. split.
  - intros id Hin Hn. destruct (Hall id (or_intror Hin)) as [s [Hp Hscore]].
    exists s. split; [exact Hp|]. rewrite Hscore. unfold spec_fused_score.
    rewrite (rank_in_absent _ _ Hn). cbn [spec_term]. ring.
  - intros Hw id1 r1 s1 id2 r2 s2 Hin1 Hin2 Hp1 Hp2 Hlt.
    rewrite (Hsparse _ _ _ Hin1 Hp1), (Hsparse _ _ _ Hin2 Hp2).
    apply Qmult_lt_l; [exact Hw|].
    apply reciprocal_strict; [exact Hk | | exact Hlt].
    rewrite Forall_forall in Hs. exact (Hs _ Hin1).
Qed.

Lemma rrf_search_result_shape_witness :
  exists rows,
    fst (rrf_search (toy_searcher false) "black hole?" "[1]" 3 60
           ["sparse"; "dense"] 1 1 []) = Return rows /\
    (List.length rows <= 3)%nat /\
    NoDup (map fst rows).
Proof.
  destruct (rrf_search_result_shape (toy_searcher false) "black hole?" "[1]" 3 60
              "sparse" "dense" [] 1 1 [] SearchType.SPARSE SearchType.DENSE (1 : Q))
    as [rows [Hrun [Hlen [Hnd _]]]]; try reflexivity.
  - lia.
  - simpl. repeat constructor; simpl; intuition discriminate.
  - simpl. repeat constructor; simpl; intuition discriminate.
  - exists rows. repeat split; assumption.
Defined.

Lemma rrf_search_score_bounds_witness :
  exists rows,
    fst (rrf_search (toy_searcher true) "black hole" "[1]" 3 60
           ["sparse"; "dense"] 1 2 []) = Return rows /\
    forall id s, In (id, s) rows -> 0 <= s /\ s <= (2 + 1) * (1 / (60 + 1)).
Proof.
  apply (rrf_search_score_bounds (toy_searcher true) "black hole" "[1]" 3 60
           "sparse" "dense" [] 1 2 [] SearchType.SPARSE SearchType.DENSE (1 : Q));
    try reflexivity; try discriminate; lia.
Defined.

Lemma rrf_search_zero_divisor_fails_witness :
  fst (rrf_search (toy_searcher false) "black hole" "[1]" 3 (-1)
         ["sparse"; "dense"] 1 1 [])
  = Raise (DatabaseError "division by zero").
Proof.
  apply (rrf_search_zero_divisor_fails (toy_searcher false) "black hole" "[1]" 3 (-1)
           "sparse" "dense" [] 1 1 [] SearchType.SPARSE SearchType.DENSE (1 : Q)
           "d2" 1);
    try reflexivity; try lia.
  left. vm_compute. left. reflexivity.
Defined.

Lemma rrf_search_top_zero_witness :
  fst (rrf_search (toy_searcher false) "black hole" "[1]" 0 (-1)
         ["sparse"; "dense"] 1 1 []) = Return [].
Proof.
  apply (rrf_search_top_zero (toy_searcher false) "black hole" "[1]" (-1)
           "sparse" "dense" [] 1 1 [] SearchType.SPARSE SearchType.DENSE (1 : Q));
    reflexivity.
Defined.

Lemma single_source_scores_witness :
  exists pool,
    candidate_pool 0 1 60 [("d2", 1%Z); ("d3", 2%Z)] [("d1", 1%Z); ("d2", 2%Z)]
    = Return pool /\
    (exists s, In ("d3", s) pool /\ s == 0).
Proof.
  destruct (single_source_scores 1 60 [("d1", 1%Z); ("d2", 2%Z)] [("d2", 1%Z); ("d3", 2%Z)])
    as [pool [Hpool [_ [Hdense _]]]].
  - reflexivity.
  - repeat constructor; simpl; lia.
  - repeat constructor; simpl; lia.
  - repeat constructor; simpl; intuition discriminate.
  - repeat constructor; simpl; intuition discriminate.
  - exists pool. split; [exact Hpool|]. apply Hdense; simpl; intuition discriminate.
Defined.

(* ================================================================== *)
(** ** The rank lists of [rrf_search] and the standalone searches *)

Lemma insert_sorted_map {A B : Type} (leb : B -> B -> bool) (f : A -> B)
    (x : A) (l : list A) :
  insert_sorted leb (f x) (map f l)
  = map f (insert_sorted (fun a b => leb (f a) (f b)) x l).
Proof.
  induction l as [|y r IH]; [reflexivity|].
  cbn [map insert_sorted]. destruct (leb (f x) (f y)); [reflexivity|].
  cbn [map]. rewrite IH. reflexivity.
Qed.

Lemma order_by_map {A B : Type} (leb : B -> B -> bool) (f : A -> B) (l : list A) :
  order_by leb (map f l) = map f (order_by (fun a b => leb (f a) (f b)) l).
Proof.
  induction l as [|x r IH]; [reflexivity|].
  cbn [map order_by fold_right]. fold (order_by leb (map f r)).
  fold (order_by (fun a b => leb (f a) (f b)) r).
  rewrite IH. apply insert_sorted_map.
Qed.

Lemma order_by_ext {A : Type} (leb leb' : A -> A -> bool) (l : list A) :
  (forall x y, leb x y = leb' x y) -> order_by leb l = order_by leb' l.
Proof.
  intros Hext. induction l as [|x r IH]; [reflexivity|].
  cbn [order_by fold_right]. fold (order_by leb r). fold (order_by leb' r).
  rewrite IH. generalize (order_by leb' r) as s.
  induction s as [|y s IHs]; [reflexivity|].
  cbn [insert_sorted]. rewrite Hext, IHs. reflexivity.
Qed.

Lemma combine_fst_snd {A B : Type} (l : list (A * B)) :
  l = combine (map fst l) (map snd l).
Proof.
  induction l as [|[a b] r IH]; [reflexivity|].
  cbn [map combine fst snd]. rewrite <- IH. reflexivity.
Qed.

Lemma complement_order (a b : Q) : Qle_bool (1 - b) (1 - a) = Qle_bool a b.
Proof.
  destruct (Qle_bool a b) eqn:E.
  - apply Qle_bool_iff. apply Qle_bool_iff in E.
    unfold Qminus. apply Qplus_le_r. apply Qopp_le_compat. exact E.
  - destruct (Qle_bool (1 - b) (1 - a)) eqn:E'; [|reflexivity].
    apply Qle_bool_iff in E'. unfold Qminus in E'. apply Qplus_le_r in E'.
    apply Qopp_le_compat in E'. rewrite !Qopp_involutive in E'.
    apply Qle_bool_iff in E'. congruence.
Qed.

Section RankListsAndHits.
Context {tables : CharTables} {engine : Engine} {constants : Constants}.

(** X15.  When no two candidate rows tie and ids are unique, the
    sparse rank list of a fusion call is the hit list of [fts_search]
    for the same query, [top_n] and table, with the scores replaced by
    the positions 1, 2, 3, ... *)
Theorem sparse_rank_list_is_fts_hits (self : PostgresSearcher) (q : string) (n : Z)
    (tn : string) (log : list statement) :
  require_columns (conn self) tn ["id"; "contents"] = Return tt ->
  (0 <= n)%Z ->
  NoDup (map fst (sparse_rows (conn self) tn)) ->
  (if use_pg_textsearch self
   then no_ties (fun r : string * string =>
                   bm25_distance (snd r) q (BM25_INDEX_TEMPLATE_format tn))
                (sparse_rows (conn self) tn)
   else no_ties (fun r : string * string => ts_rank (snd r) (clean_tsquery q))
                (filter (fun r => ts_match (snd r) (clean_tsquery q))
                        (sparse_rows (conn self) tn))) ->
  exists hits,
    fst (fts_search self q n tn log) = Return hits /\
    sparse_rank_list self tn q n
    = combine (map fst hits) (map Z.of_nat (seq 1 (List.length hits))).
Proof.
  intros Hcols Hn Hnd Hties.
  pose proof (require_limit_ok n Hn) as Hlim.
  destruct (use_pg_textsearch self) eqn:Hpg.
  - set (idx := BM25_INDEX_TEMPLATE_format tn) in *.
    set (d := fun r : string * string => bm25_distance (snd r) q idx) in *.
    set (rows := sparse_rows (conn self) tn) in *.
    exists (sql_limit n (order_by (asc snd)
                           (map (fun r : string * string => (fst r, d r)) rows))).
    split.
    { unfold fts_search, execute. rewrite Hpg. cbn [fst].
      unfold fts_bm25_answer. rewrite Hcols, Hlim. reflexivity. }
    rewrite (order_by_map (asc snd) (fun r : string * string => (fst r, d r)) rows).
    change (fun a b : string * string => asc snd (fst a, d a) (fst b, d b))
      with (asc d).
    unfold sql_limit. rewrite <- firstn_map, map_map. cbn [fst].
    rewrite length_firstn, length_map, order_by_length.
    destruct (row_number_cte d rows n) as [Hf Hs]. cbv zeta in Hf, Hs.
    unfold sparse_rank_list. rewrite Hpg.
    change (keyword_search_bm25 (conn self) tn q (BM25_INDEX_TEMPLATE_format tn) n)
      with (map id_and_rank
              (sql_limit n (order_by (asc (fun x : (string * string) * Z => d (fst x)))
                                     (row_numbers (order_by (asc d) rows))))).
    rewrite (combine_fst_snd (map id_and_rank _)), Hf, Hs.
    rewrite <- ?firstn_map. reflexivity.
  - set (tsq := clean_tsquery q) in *.
    set (s := fun r : string * string => ts_rank (snd r) tsq) in *.
    set (rows := filter (fun r : string * string => ts_match (snd r) tsq)
                        (sparse_rows (conn self) tn)) in *.
    exists (sql_limit n (order_by (desc snd)
                           (map (fun r : string * string => (fst r, s r)) rows))).
    split.
    { unfold fts_search, execute. rewrite Hpg. cbn [fst].
      unfold fts_tsquery_answer. rewrite Hcols, Hlim. reflexivity. }
    rewrite (order_by_map (desc snd) (fun r : string * string => (fst r, s r)) rows).
    change (fun a b : string * string => desc snd (fst a, s a) (fst b, s b))
      with (desc s).
    unfold sql_limit. rewrite <- firstn_map, map_map. cbn [fst].
    rewrite length_firstn, length_map, order_by_length.
    destruct (rank_cte (desc s) rows n) as [Hf Hs]. cbv zeta in Hf, Hs.
    unfold sparse_rank_list. rewrite Hpg.
    change (keyword_search (conn self) tn (clean_tsquery q) n)
      with (sql_limit n (map (fun r => (fst r, sql_rank (desc s) rows r))
                             (order_by (desc s) rows))).
    rewrite (combine_fst_snd (sql_limit n _)), Hf, Hs.
    assert (Hrows : NoDup rows).
    { apply (NoDup_map_inv fst). apply NoDup_map_filter_fst. exact Hnd. }
    rewrite (sql_rank_no_ties (desc s) (desc_total s) rows
               (desc_no_ties s rows Hrows Hties)).
    rewrite (firstn_map Z.of_nat), firstn_seq.
    rewrite <- ?firstn_map. reflexivity.
Qed.

(** X16.  When no two rows are at the same distance and ids are
    unique, the dense rank list of a fusion call is the hit list of
    [embedding_search] for the same vector, [top_n] and table, with the
    scores replaced by the positions 1, 2, 3, ... *)
Theorem dense_rank_list_is_embedding_hits (self : PostgresSearcher) (qe : string) (n : Z)
    (tn : string) (log : list statement) (v : vector) :
  require_columns (conn self) tn ["id"; "embedding"] = Return tt ->
  cast_vector qe = Some v ->
  (0 <= n)%Z ->
  NoDup (map fst (dense_rows (conn self) tn)) ->
  no_ties (fun r : string * vector => distance (snd r) v) (dense_rows (conn self) tn) ->
  exists hits,
    fst (embedding_search self qe n tn log) = Return hits /\
    dense_rank_list self tn v n
    = combine (map fst hits) (map Z.of_nat (seq 1 (List.length hits))).
Proof.
  intros Hcols Hv Hn Hnd Hties.
  pose proof (require_limit_ok n Hn) as Hlim.
  set (d := fun r : string * vector => distance (snd r) v) in *.
  set (rows := dense_rows (conn self) tn) in *.
  exists (sql_limit n (order_by (desc snd)
                         (map (fun r : string * vector => (fst r, 1 - d r)) rows))).
  split.
  { unfold embedding_search, execute. cbn [fst].
    unfold embedding_answer, require_vector. rewrite Hcols, Hv, Hlim. reflexivity. }
  rewrite (order_by_map (desc snd) (fun r : string * vector => (fst r, 1 - d r)) rows).
  rewrite (order_by_ext _ (asc d) rows)
    by (intros x y; unfold desc, asc; cbn [snd]; apply complement_order).
  unfold sql_limit. rewrite <- firstn_map, map_map. cbn [fst].
  rewrite length_firstn, length_map, order_by_length.
  unfold dense_rank_list. destruct (use_pg_textsearch self).
  - destruct (row_number_cte d rows n) as [Hf Hs]. cbv zeta in Hf, Hs.
    change (vector_search (conn self) tn v n)
      with (map id_and_rank
              (sql_limit n (order_by (asc (fun x : (string * vector) * Z => d (fst x)))
                                     (row_numbers (order_by (asc d) rows))))).
    rewrite (combine_fst_snd (map id_and_rank _)), Hf, Hs.
    rewrite <- ?firstn_map. reflexivity.
  - destruct (rank_cte (asc d) rows n) as [Hf Hs]. cbv zeta in Hf, Hs.
    change (semantic_search (conn self) tn v n)
      with (sql_limit n (map (fun r => (fst r, sql_rank (asc d) rows r))
                             (order_by (asc d) rows))).
    rewrite (combine_fst_snd (sql_limit n _)), Hf, Hs.
    rewrite (sql_rank_no_ties (asc d) (asc_total d) rows
               (asc_no_ties d rows (NoDup_map_inv _ _ Hnd) Hties)).
    rewrite (firstn_map Z.of_nat), firstn_seq.
    rewrite <- ?firstn_map. reflexivity.
Qed.

End RankListsAndHits.

Lemma sparse_rank_list_is_fts_hits_witness :
  exists hits,
    fst (fts_search (toy_searcher false) "black hole, red" 5 "both_a" []) = Return hits /\
    sparse_rank_list (toy_searcher false) "both_a" "black hole, red" 5
    = combine (map fst hits) (map Z.of_nat (seq 1 (List.length hits))).
Proof.
  apply (sparse_rank_list_is_fts_hits (toy_searcher false) "black hole, red" 5 "both_a" []).
  - reflexivity.
  - lia.
  - simpl. repeat constructor; simpl; intuition discriminate.
  - intros x y Hx Hy. vm_compute in Hx, Hy.
    destruct Hx as [<- | [<- | []]]; destruct Hy as [<- | [<- | []]];
      intros Hk; try reflexivity; vm_compute in Hk; discriminate.
Defined.

Lemma dense_rank_list_is_embedding_hits_witness :
  exists hits,
    fst (embedding_search (toy_searcher false) "[0]" 5 "both_a" []) = Return hits /\
    dense_rank_list (toy_searcher false) "both_a" (0 : Q) 5
    = combine (map fst hits) (map Z.of_nat (seq 1 (List.length hits))).
Proof.
  apply (dense_rank_list_is_embedding_hits (toy_searcher false) "[0]" 5 "both_a" [] (0 : Q)).
  - reflexivity.
  - reflexivity.
  - lia.
  - simpl. repeat constructor; simpl; intuition discriminate.
  - intros x y Hx Hy. simpl in Hx, Hy.
    destruct Hx as [<- | [<- | []]]; destruct Hy as [<- | [<- | []]];
      intros Hk; try reflexivity; vm_compute in Hk; discriminate.
Defined.

(* ================================================================== *)
(** ** [load_jsonl_table]: the rows handed to the insertion *)

Lemma amap_Done_iff {A B : Type} (f : A -> attempt B) (l : list A) (r : list B) :
  amap f l = Done r <-> Forall2 (fun x y => f x = Done y) l r.
Proof.
  revert r. induction l as [|x l IH]; intros r; cbn [amap].
  - split; [intros H; inversion H; constructor | intros H; inversion H; reflexivity].
  - destruct (f x) as [y|e] eqn:Hx; cbn [abind].
    + destruct (amap f l) as [ys|e] eqn:Hl; cbn [abind].
      * split.
        -- intros H. inversion H; subst. constructor; [exact Hx|].
           apply IH. reflexivity.
        -- intros H. inversion H as [|? ? ? ? Hy Hys]; subst.
           rewrite Hx in Hy. inversion Hy; subst.
           apply IH in Hys. inversion Hys; subst. reflexivity.
      * split; [discriminate|].
        intros H. inversion H as [|? ? ? ? _ Hys]; subst.
        apply IH in Hys. discriminate.
    + split; [discriminate|].
      intros H. inversion H as [|? ? ? ? Hy _]; subst. rewrite Hx in Hy. discriminate.
Qed.

Lemma amap_first_failure {A B : Type} (f : A -> attempt B) (good : list A) (x : A)
    (rest : list A) (rows : list B) (e : py_error) :
  amap f good = Done rows -> f x = Failed e ->
  amap f (good ++ x :: rest) = Failed e.
Proof.
  revert rows. induction good as [|y good IH]; intros rows Hgood Hx.
  - cbn [app amap]. rewrite Hx. reflexivity.
  - cbn [app amap] in *. destruct (f y) as [b|e']; cbn [abind] in *; [|discriminate].
    destruct (amap f good) as [bs|e'] eqn:Hg; cbn [abind] in Hgood; [|discriminate].
    rewrite (IH bs eq_refl Hx). reflexivity.
Qed.

(** A row of the first pass: the id, and the contents with the NULs
    replaced when the record has a [contents] key, its vector
    otherwise. *)
Lemma first_pass_row_spec (d : pyvalue) (row : pyvalue * pyvalue) :
  first_pass_row d = Done row <->
  exists items,
    d = PyDict items /\
    dict_get items "id" = Some (fst row) /\
    match dict_get items "contents" with
    | Some c => exists s, c = PyStr s /\ snd row = PyStr (str_replace_nul s)
    | None => dict_get items "vector" = Some (snd row)
    end.
Proof.
  destruct row as [i x]. unfold first_pass_row. cbn [fst snd]. split.
  - destruct d as [| | | | |items]; cbn [py_subscript abind]; try discriminate.
    destruct (dict_get items "id") as [id|] eqn:Hid; cbn [abind]; [|discriminate].
    cbn [py_has_key]. intros H. exists items. split; [reflexivity|].
    destruct (dict_get items "contents") as [c|] eqn:Hc; cbn [abind] in H.
    + destruct c; cbn [py_replace_nul abind] in H; try discriminate.
      inversion H; subst. split; [exact Hid|]. eexists. split; reflexivity.
    + destruct (dict_get items "vector") as [vec|]; cbn [abind] in H; [|discriminate].
      inversion H; subst. split; [exact Hid | reflexivity].
  - intros [items [-> [Hid Hc]]]. cbn [py_subscript py_has_key]. rewrite Hid. cbn [abind].
    destruct (dict_get items "contents") as [c|].
    + destruct Hc as [s [-> ->]]. reflexivity.
    + rewrite Hc. reflexivity.
Qed.

Section LoaderFacts.
Context {analysis : Analysis}.

(** X17.  Without tokenization (a DENSE load, or a pretokenized SPARSE
    load) [load_jsonl_table] reaches the insertion exactly when every
    decoded line is a dict with an [id] and either a string [contents]
    or, with no [contents] key, a [vector]; the row of a record is its
    id with its contents (NULs replaced) whenever it has a [contents]
    key, also in a DENSE load of records that carry a vector too, and
    with its vector only when it has no [contents]. *)
Theorem load_jsonl_untokenized (table_name : string) (data : list pyvalue)
    (index_type : IndexType.t) (pretokenized : bool) (req : insert_request) :
  is_sparse index_type && negb pretokenized = false ->
  (load_jsonl_table table_name data index_type pretokenized = Done req <->
   insert_sql req
   = ("INSERT INTO " ++ table_name ++
      (if is_sparse index_type then " (id, contents) VALUES %s"
       else " (id, embedding) VALUES %s"))%string /\
   Forall2 (fun d row =>
              exists items,
                d = PyDict items /\
                dict_get items "id" = Some (fst row) /\
                match dict_get items "contents" with
                | Some c => exists s, c = PyStr s /\ snd row = PyStr (str_replace_nul s)
                | None => dict_get items "vector" = Some (snd row)
                end)
           data (insert_rows req)).
Proof.
  intros Hmode. unfold load_jsonl_table. rewrite Hmode.
  destruct req as [rsql rrows]. cbn [insert_sql insert_rows].
  split.
  - destruct (amap first_pass_row data) as [rows|e] eqn:Hrows; cbn [abind];
      [|discriminate].
    apply amap_Done_iff in Hrows.
    assert (Hspec : Forall2 (fun d row =>
              exists items,
                d = PyDict items /\
                dict_get items "id" = Some (fst row) /\
                match dict_get items "contents" with
                | Some c => exists s, c = PyStr s /\ snd row = PyStr (str_replace_nul s)
                | None => dict_get items "vector" = Some (snd row)
                end) data rows).
    { eapply Forall2_impl; [|exact Hrows]. cbv beta. intros d row H.
      apply first_pass_row_spec. exact H. }
    destruct index_type; cbn [is_sparse]; intros H; inversion H; subst;
      split; [reflexivity | exact Hspec | reflexivity | exact Hspec].
  - intros [Hsql Hrows].
    assert (Hamap : amap first_pass_row data = Done rrows).
    { apply amap_Done_iff. eapply Forall2_impl; [|exact Hrows]. cbv beta.
      intros d row H. apply first_pass_row_spec. exact H. }
    rewrite Hamap. cbn [abind]. rewrite Hsql.
    destruct index_type; reflexivity.
Qed.

(** X18.  A SPARSE load that tokenizes reaches the insertion exactly
    when every decoded line is a dict with an [id] and a string
    [contents] that [tokenize] accepts; the row of a record is its id
    with [tokenize] of its contents as decoded: the NUL replacement of
    the first pass does not reach the tokenizer. *)
Theorem load_jsonl_tokenized (table_name : string) (data : list pyvalue)
    (req : insert_request) :
  load_jsonl_table table_name data IndexType.SPARSE false = Done req <->
  insert_sql req = ("INSERT INTO " ++ table_name ++ " (id, contents) VALUES %s")%string /\
  Forall2 (fun d row =>
             exists items s,
               d = PyDict items /\
               dict_get items "id" = Some (fst row) /\
               dict_get items "contents" = Some (PyStr s) /\
               tokenize (PyStr s) = Done (snd row))
          data (insert_rows req).
Proof.
  unfold load_jsonl_table. cbn [is_sparse negb andb].
  destruct req as [rsql rrows]. cbn [insert_sql insert_rows].
  split.
  - destruct (amap first_pass_row data) as [rows|e] eqn:Hrows; cbn [abind];
      [|discriminate].
    destruct (amap second_pass_row data) as [rows2|e] eqn:Hrows2; cbn [abind];
      [|discriminate].
    intros H. inversion H; subst. split; [reflexivity|].
    apply amap_Done_iff in Hrows, Hrows2.
    clear H. revert rows Hrows. induction Hrows2 as [|d row2 data rows2 Hd _ IH];
      intros rows Hrows; [constructor|].
    inversion Hrows as [|? row ? rows' Hfirst Hrest]; subst.
    constructor; [|exact (IH _ Hrest)].
    apply first_pass_row_spec in Hfirst. destruct Hfirst as [items [-> [Hid Hc]]].
    unfold second_pass_row in Hd. cbn [py_subscript] in Hd. rewrite Hid in Hd.
    cbn [abind] in Hd.
    destruct (dict_get items "contents") as [c|] eqn:Hcont; cbn [abind] in Hd;
      [|discriminate].
    destruct Hc as [s [-> _]].
    destruct (tokenize (PyStr s)) as [t|e] eqn:Ht; cbn [abind] in Hd; [|discriminate].
    inversion Hd; subst. exists items, s. cbn [fst snd].
    split; [reflexivity|]. split; [exact Hid|]. split; [exact Hcont | exact Ht].
  - intros [Hsql Hrows].
    assert (H1 : exists rows, amap first_pass_row data = Done rows).
    { clear Hsql. induction Hrows as [|d row data rows Hd _ [rows1 IH]];
        [exists []; reflexivity|].
      destruct Hd as [items [s [-> [Hid [Hc _]]]]].
      exists ((fst row, PyStr (str_replace_nul s)) :: rows1).
      cbn [amap]. rewrite IH.
      unfold first_pass_row. cbn [py_subscript py_has_key]. rewrite Hid, Hc.
      reflexivity. }
    destruct H1 as [rows1 H1]. rewrite H1. cbn [abind].
    assert (H2 : amap second_pass_row data = Done rrows).
    { apply amap_Done_iff. eapply Forall2_impl; [|exact Hrows]. cbv beta.
      intros d [i t] [items [s [-> [Hid [Hc Ht]]]]]. cbn [fst snd] in *.
      unfold second_pass_row. cbn [py_subscript]. rewrite Hid, Hc. cbn [abind].
      rewrite Ht. reflexivity. }
    rewrite H2. cbn [abind]. rewrite Hsql. reflexivity.
Qed.

(** X19.  Whatever the index type and the flag, the first decoded line
    that fails the first pass ends the load with its error:
    [TypeError] when it is not a dict, [KeyError] for [id] when it has
    no id, [AttributeError] when its contents is not a string, and
    [KeyError] for [vector] when it has neither [contents] nor
    [vector], also in a SPARSE load. *)
Theorem load_jsonl_first_error (table_name : string) (good : list pyvalue) (d : pyvalue)
    (rest : list pyvalue) (index_type : IndexType.t) (pretokenized : bool)
    (rows : list (pyvalue * pyvalue)) :
  amap first_pass_row good = Done rows ->
  let run := load_jsonl_table table_name (good ++ d :: rest) index_type pretokenized in
  ((forall items, d <> PyDict items) -> run = Failed TypeError) /\
  (forall items, d = PyDict items -> dict_get items "id" = None ->
     run = Failed (KeyError "id")) /\
  (forall items i c, d = PyDict items -> dict_get items "id" = Some i ->
     dict_get items "contents" = Some c -> (forall s, c <> PyStr s) ->
     run = Failed AttributeError) /\
  (forall items i, d = PyDict items -> dict_get items "id" = Some i ->
     dict_get items "contents" = None -> dict_get items "vector" = None ->
     run = Failed (KeyError "vector")).
Proof.
  intros Hgood run. subst run. unfold load_jsonl_table.
  assert (Hfail : forall e, first_pass_row d = Failed e ->
            abind (amap first_pass_row (good ++ d :: rest))
              (fun rows0 =>
                 abind (if is_sparse index_type && negb pretokenized
                        then amap second_pass_row (good ++ d :: rest)
                        else Done rows0)
                   (fun rows1 =>
                      match index_type with
                      | IndexType.SPARSE =>
                          Done {| insert_sql := "INSERT INTO " ++ table_name ++
                                                " (id, contents) VALUES %s";
                                  insert_rows := rows1 |}
                      | IndexType.DENSE =>
                          Done {| insert_sql := "INSERT INTO " ++ table_name ++
                                                " (id, embedding) VALUES %s";
                                  insert_rows := rows1 |}
                      end)) = Failed e).
  { intros e He. rewrite (amap_first_failure _ _ _ rest _ _ Hgood He). reflexivity. }
  repeat split.
  - intros Hnd. apply Hfail. unfold first_pass_row.
    destruct d; try reflexivity. exfalso. exact (Hnd items eq_refl).
  - intros items -> Hid. apply Hfail. unfold first_pass_row.
    cbn [py_subscript]. rewrite Hid. reflexivity.
  - intros items i c -> Hid Hc Hns. apply Hfail. unfold first_pass_row.
    cbn [py_subscript py_has_key]. rewrite Hid, Hc. cbn [abind].
    destruct c; try reflexivity. exfalso. exact (Hns s eq_refl).
  - intros items i -> Hid Hc Hv. apply Hfail. unfold first_pass_row.
    cbn [py_subscript py_has_key]. rewrite Hid, Hc, Hv. reflexivity.
Qed.

End LoaderFacts.

Lemma replacement_has_no_nul (r : string) :
  all_chars (fun c => negb (Ascii.eqb c nul)) r = true ->
  all_chars (fun c => negb (Ascii.eqb c nul)) (replacement_character ++ r) = true.
Proof. intros H. cbn. exact H. Qed.

(** X20.  The replacement leaves no NUL, changes nothing in a string
    without NUL, and so changes nothing when applied again. *)
Theorem str_replace_nul_clean (s : string) :
  all_chars (fun c => negb (Ascii.eqb c nul)) (str_replace_nul s) = true /\
  (all_chars (fun c => negb (Ascii.eqb c nul)) s = true -> str_replace_nul s = s) /\
  str_replace_nul (str_replace_nul s) = str_replace_nul s.
Proof.
  assert (Hclean : forall t,
             all_chars (fun c => negb (Ascii.eqb c nul)) (str_replace_nul t) = true).
  { induction t as [|c t IH]; [reflexivity|].
    cbn [str_replace_nul]. destruct (Ascii.eqb c nul) eqn:Hc.
    - apply replacement_has_no_nul. exact IH.
    - cbn [all_chars]. rewrite Hc, IH. reflexivity. }
  assert (Hid : forall t, all_chars (fun c => negb (Ascii.eqb c nul)) t = true ->
                          str_replace_nul t = t).
  { induction t as [|c t IH]; intros Ht; [reflexivity|].
    cbn [all_chars] in Ht. apply andb_true_iff in Ht. destruct Ht as [Hc Ht].
    apply negb_true_iff in Hc. cbn [str_replace_nul]. rewrite Hc, (IH Ht). reflexivity. }
  split; [apply Hclean|]. split; [apply Hid|]. apply Hid. apply Hclean.
Qed.

Lemma load_jsonl_untokenized_witness :
  load_jsonl_table "dense"
    [PyDict [("id", PyStr "d1"); ("contents", PyStr "black hole");
             ("vector", PyList [PyNum 1])]]
    IndexType.DENSE false
  = Done {| insert_sql := "INSERT INTO dense (id, embedding) VALUES %s";
            insert_rows := [(PyStr "d1", PyStr "black hole")] |}.
Proof.
  apply (proj2 (load_jsonl_untokenized "dense" _ IndexType.DENSE false _ eq_refl)).
  split; [reflexivity|].
  constructor; [|constructor].
  eexists. split; [reflexivity|]. split; [reflexivity|].
  cbn. exists "black hole". split; reflexivity.
Defined.

Lemma load_jsonl_tokenized_witness :
  load_jsonl_table "sparse"
    [PyDict [("id", PyStr "d1"); ("contents", PyStr "A (black) hole")]]
    IndexType.SPARSE false
  = Done {| insert_sql := "INSERT INTO sparse (id, contents) VALUES %s";
            insert_rows := [(PyStr "d1", PyStr "A black hole")] |}.
Proof.
  apply (proj2 (load_jsonl_tokenized "sparse" _ _)).
  split; [reflexivity|].
  constructor; [|constructor].
  eexists. exists "A (black) hole". repeat split.
Defined.

Lemma load_jsonl_first_error_witness :
  load_jsonl_table "sparse"
    [PyDict [("id", PyStr "d1"); ("contents", PyStr "black hole")];
     PyDict [("id", PyStr "d2"); ("text", PyStr "white dwarf")]]
    IndexType.SPARSE false
  = Failed (KeyError "vector").
Proof.
  destruct (load_jsonl_first_error "sparse"
              [PyDict [("id", PyStr "d1"); ("contents", PyStr "black hole")]]
              (PyDict [("id", PyStr "d2"); ("text", PyStr "white dwarf")])
              [] IndexType.SPARSE false _ eq_refl) as [_ [_ [_ H]]].
  exact (H _ (PyStr "d2") eq_refl eq_refl eq_refl eq_refl).
Defined.

Lemma str_replace_nul_clean_witness :
  str_replace_nul "black hole" = "black hole".
Proof.
  apply (proj1 (proj2 (str_replace_nul_clean "black hole"))). reflexivity.
Defined.
